(** * Huizemark stock scraper: a shallow embedding and its specification

    The two scripts of the repository, [scripts/fetch_stock.py] (the strict
    detail-page scraper) and [scripts/fetch_stock1.py] (the earlier
    results-card scraper), are embedded as Rocq functions.

    Conventions of the embedding.
    - Text is a [string]: a sequence of characters with code points 0..255.
      The character predicates of Python ([str.isspace], the regular
      expression classes [\s], [\d], [\w], the cased characters) and the
      lower-case mapping are those of Python on that range.  The upper-case
      and title-case mappings leave the range (the image of U+00FF is
      U+0178, that of U+00B5 is U+039C) and may give two characters (U+00DF
      gives [SS] or [Ss]): what [upper] and [title] return is a [ustring], a
      sequence of code points.
    - Integers are unbounded ([Z]); [int] of a string of decimal digits
      raises [ValueError] when the string has more than 4300 digits, the
      limit of the interpreter on such conversions.
    - Regular expressions are values of the type [regex], interpreted by a
      backtracking matcher with the leftmost, greedy semantics of [re].
    - A function body with early [return]s is a sequence of [flow]s; an
      exception that no handler catches ends the run.
    - [json.loads] gives a [json] value; a float is a [spec_float], so that
      the non-finite floats, on which [int] raises, are there.
    - BeautifulSoup is an external library: a parsed document is the record
      of the answers to the queries the scripts make of it.
    - The HTTP transport is an oracle: the answer to the n-th request.
    - The environment variable that [fetch_stock1.py] reads is a parameter
      of its run.
    - Writing the output files and the progress messages are left out. *)

From Stdlib Require Import ZArith NArith Bool Ascii Lia.
From Stdlib Require String.
From Stdlib Require Import Floats.SpecFloat.
From stdpp Require Import gmap strings list sorting.

Local Open Scope Z_scope.

(** ** Control flow: early [return] and exceptions *)

(** The outcome of a statement inside a function body: it returns a value,
    falls through to the next statement, or raises an exception of [E]. *)
Inductive flow (E A : Type) : Type :=
| Return (a : A)
| Continue
| Raised (e : E).

Arguments Return {E A} a.
Arguments Continue {E A}.
Arguments Raised {E A} e.

Definition then_ {E A} (a b : flow E A) : flow E A :=
  match a with
  | Continue => b
  | r => r
  end.

Notation "a ;; b" := (then_ a b)
  (at level 100, b at level 200, right associativity).

(** [for x in xs: body]. *)
Fixpoint for_each {E A B} (xs : list A) (body : A -> flow E B) : flow E B :=
  match xs with
  | [] => Continue
  | x :: xs' => body x ;; for_each xs' body
  end.

(** [if c: body]. *)
Definition when {E A} (c : bool) (body : flow E A) : flow E A :=
  if c then body else Continue.

(** The value of a function body without exceptions; falling off the end
    returns [None]. *)
Definition pure_fn {A} (body : flow Empty_set (option A)) : option A :=
  match body with
  | Return a => a
  | Continue => None
  | Raised e => match e with end
  end.

(** The value of a function body, or the exception it raises. *)
Inductive result (A : Type) : Type :=
| Ok (a : A)
| Exc (e : string).

Arguments Ok {A} a.
Arguments Exc {A} e.

Definition fn {A} (body : flow string (option A)) : result (option A) :=
  match body with
  | Return a => Ok a
  | Continue => Ok None
  | Raised e => Exc e
  end.

(** Exceptions go through a sequence of calls: [x ← f; k] is [k] on the
    value of [f], or the exception [f] raises. *)
#[global] Instance result_ret : MRet result := @Ok.
#[global] Instance result_bind : MBind result := fun A B k r =>
  match r with
  | Ok a => k a
  | Exc e => Exc e
  end.
#[global] Instance result_fmap : FMap result := fun A B f r =>
  match r with
  | Ok a => Ok (f a)
  | Exc e => Exc e
  end.

(** A call that may raise, inside a function body. *)
Definition call {A B} (r : result A) (k : A -> flow string B) : flow string B :=
  match r with
  | Ok a => k a
  | Exc e => Raised e
  end.

(** ** Characters *)

Module Chr.

Definition code (c : ascii) : N := N_of_ascii c.

Definition in_range (lo hi : N) (c : ascii) : bool :=
  (lo <=? code c)%N && (code c <=? hi)%N.

(** [\d] on the range: the decimal digits. *)
Definition is_digit (c : ascii) : bool := in_range 48 57 c.

(** [str.isspace] and [\s]: TAB..CR, FS..US, space, NEL and NBSP. *)
Definition is_space (c : ascii) : bool :=
  in_range 9 13 c || in_range 28 32 c
  || (code c =? 133)%N || (code c =? 160)%N.

(** The classes [[A-Z]] and [[a-z]]; under [re.I] each of them matches the
    characters of [[A-Za-z]] and no other character of the range. *)
Definition is_upper (c : ascii) : bool := in_range 65 90 c.
Definition is_lower (c : ascii) : bool := in_range 97 122 c.
Definition is_alpha (c : ascii) : bool := is_upper c || is_lower c.

(** [\w]: what [str.isalnum] accepts, and the underscore. *)
Definition is_word (c : ascii) : bool :=
  is_alpha c || is_digit c || (code c =? 95)%N
  || (code c =? 170)%N || (code c =? 178)%N || (code c =? 179)%N
  || (code c =? 181)%N || (code c =? 185)%N || (code c =? 186)%N
  || in_range 188 190 c
  || in_range 192 214 c || in_range 216 246 c || in_range 248 255 c.

(** The characters with an upper-case or a lower-case form: the letters,
    the two ordinal indicators and the micro sign. *)
Definition cased (c : ascii) : bool :=
  is_alpha c || (code c =? 170)%N || (code c =? 181)%N || (code c =? 186)%N
  || in_range 192 214 c || in_range 216 246 c || in_range 248 255 c.

(** The capital letters, which alone have another lower-case form: A..Z and
    U+00C0..U+00DE but the multiplication sign. *)
Definition has_lower (c : ascii) : bool :=
  is_upper c || in_range 192 214 c || in_range 216 222 c.

(** The small letters whose upper-case form is in the range. *)
Definition has_upper (c : ascii) : bool :=
  is_lower c || in_range 224 246 c || in_range 248 254 c.

(** The lower-case mapping. *)
Definition lower (c : ascii) : ascii :=
  if has_lower c then ascii_of_N (code c + 32) else c.

(** The upper-case mapping: the sharp s gives [SS], the micro sign U+039C
    and the y with diaeresis U+0178. *)
Definition upper (c : ascii) : list N :=
  if has_upper c then [(code c - 32)%N]
  else if (code c =? 223)%N then [83; 83]%N
  else if (code c =? 181)%N then [924%N]
  else if (code c =? 255)%N then [376%N]
  else [code c].

(** The title-case mapping: the upper-case mapping, but for the sharp s,
    which gives [Ss]. *)
Definition title (c : ascii) : list N :=
  if (code c =? 223)%N then [83; 115]%N else upper c.

(** Two characters are the same under [re.I]. *)
Definition eqb_ci (a b : ascii) : bool := Ascii.eqb (lower a) (lower b).

End Chr.

(** ** Sequences of code points *)

(** The text a case mapping returns. *)
Definition ustring : Type := list N.

Module Ustr.

Fixpoint of_string (s : string) : ustring :=
  match s with
  | EmptyString => []
  | String c s' => Chr.code c :: of_string s'
  end.

(** Python truthiness of a string. *)
Definition truthy (u : ustring) : bool :=
  match u with [] => false | _ => true end.

End Ustr.

(** ** Strings: the methods of [str] the scripts use *)

Module Str.

Fixpoint map (f : ascii -> ascii) (s : string) : string :=
  match s with
  | EmptyString => EmptyString
  | String c s' => String (f c) (map f s')
  end.

Definition lower : string -> string := map Chr.lower.

Fixpoint upper (s : string) : ustring :=
  match s with
  | EmptyString => []
  | String c s' => Chr.upper c ++ upper s'
  end.

Fixpoint forallb (p : ascii -> bool) (s : string) : bool :=
  match s with
  | EmptyString => true
  | String c s' => p c && forallb p s'
  end.

Fixpoint existsb (p : ascii -> bool) (s : string) : bool :=
  match s with
  | EmptyString => false
  | String c s' => p c || existsb p s'
  end.

Fixpoint filter (p : ascii -> bool) (s : string) : string :=
  match s with
  | EmptyString => EmptyString
  | String c s' => if p c then String c (filter p s') else filter p s'
  end.

Fixpoint take (n : nat) (s : string) : string :=
  match n, s with
  | S n', String c s' => String c (take n' s')
  | _, _ => EmptyString
  end.

(** Python truthiness of a string. *)
Definition truthy (s : string) : bool :=
  match s with EmptyString => false | _ => true end.

(** [s.startswith(p)]. *)
Fixpoint startswith (p s : string) : bool :=
  match p, s with
  | EmptyString, _ => true
  | String a p', String b s' => Ascii.eqb a b && startswith p' s'
  | String _ _, EmptyString => false
  end.

(** [p in s]. *)
Fixpoint contains (p s : string) : bool :=
  startswith p s ||
  match s with
  | EmptyString => false
  | String _ s' => contains p s'
  end.

(** [s.lstrip()] / [s.lstrip(chars)] for a set of characters [p]. *)
Fixpoint lstrip (p : ascii -> bool) (s : string) : string :=
  match s with
  | EmptyString => EmptyString
  | String c s' => if p c then lstrip p s' else s
  end.

Fixpoint rstrip (p : ascii -> bool) (s : string) : string :=
  match s with
  | EmptyString => EmptyString
  | String c s' =>
      match rstrip p s' with
      | EmptyString => if p c then EmptyString else String c EmptyString
      | r => String c r
      end
  end.

Definition strip (p : ascii -> bool) (s : string) : string :=
  rstrip p (lstrip p s).

(** [s.replace(a, b)] for single characters. *)
Definition replace (a b : ascii) : string -> string :=
  map (fun c => if Ascii.eqb c a then b else c).

(** [s.title()]: a character takes its title-case form when the character
    before it is not cased, and its lower-case form when it is. *)
Fixpoint title_from (prev_cased : bool) (s : string) : ustring :=
  match s with
  | EmptyString => []
  | String c s' =>
      (if prev_cased then [Chr.code (Chr.lower c)] else Chr.title c)
      ++ title_from (Chr.cased c) s'
  end.

Definition title : string -> ustring := title_from false.

(** The value of a string of decimal digits. *)
Fixpoint int_acc (acc : Z) (s : string) : Z :=
  match s with
  | EmptyString => acc
  | String c s' => int_acc (10 * acc + (Z.of_N (Chr.code c) - 48)) s'
  end.

(** The limit of the interpreter on the number of digits of a string that
    [int] converts ([sys.get_int_max_str_digits()]); the leading zeros
    count. *)
Definition MAX_STR_DIGITS : nat := 4300.

(** [int(s)] for a string of decimal digits, as it is wherever the scripts
    call it; the empty string and a string beyond the limit raise. *)
Definition int (s : string) : result Z :=
  if negb (truthy s) || (MAX_STR_DIGITS <? String.length s)%nat
  then Exc "ValueError"
  else Ok (int_acc 0 s).

(** Comparison of two strings in the order of Python: by code points. *)
Fixpoint compare (a b : string) : comparison :=
  match a, b with
  | EmptyString, EmptyString => Eq
  | EmptyString, String _ _ => Lt
  | String _ _, EmptyString => Gt
  | String x a', String y b' =>
      match N.compare (Chr.code x) (Chr.code y) with
      | Eq => compare a' b'
      | o => o
      end
  end.

End Str.

(** ** Regular expressions: the fragment of [re] the scripts use *)

Module Re.

(** Every repetition in the scripts' patterns is over a character class,
    which is what [Rep] repeats; [lo] and [hi] are the bounds of [{lo,hi}],
    and [hi = None] is "unbounded". *)
Inductive regex : Type :=
| Eps
| Cls (p : ascii -> bool)
| Seq (r1 r2 : regex)
| Alt (r1 r2 : regex)
| Rep (p : ascii -> bool) (lo : nat) (hi : option nat)
| Grp (n : nat) (r : regex)
| WordB
| Bos
| Eos.

(** A position in the subject: the character before it, the number of
    characters of the match so far, the text from it on, and the groups
    captured so far. *)
Record mstate : Type := MState {
  ms_prev : option ascii;
  ms_pos : nat;
  ms_rest : string;
  ms_caps : list (nat * string)
}.

Definition word_at (o : option ascii) : bool :=
  match o with Some c => Chr.is_word c | None => false end.

Definition next_char (s : string) : option ascii :=
  match s with String c _ => Some c | EmptyString => None end.

Definition at_boundary (st : mstate) : bool :=
  xorb (word_at (ms_prev st)) (word_at (next_char (ms_rest st))).

(** [$]: the end of the text, or just before a final newline. *)
Definition at_end (s : string) : bool :=
  match s with
  | EmptyString => true
  | String c EmptyString => Ascii.eqb c "010"
  | _ => false
  end.

(** The text between two positions. *)
Definition consumed (st st' : mstate) : string :=
  Str.take (ms_pos st' - ms_pos st) (ms_rest st).

Definition more (hi : option nat) : bool :=
  match hi with Some O => false | _ => true end.

(** Greedy repetition of a class: take as many characters as allowed, and
    give them back one at a time while the continuation fails. *)
Fixpoint rep (p : ascii -> bool) (lo : nat) (hi : option nat)
    (caps : list (nat * string)) (prev : option ascii) (pos : nat)
    (s : string) (k : mstate -> option mstate) {struct s} : option mstate :=
  let stop :=
    match lo with O => k (MState prev pos s caps) | S _ => None end in
  match s with
  | String c s' =>
      if p c && more hi then
        match rep p (Nat.pred lo) (Nat.pred <$> hi) caps (Some c) (S pos) s' k
        with
        | Some r => Some r
        | None => stop
        end
      else stop
  | EmptyString => stop
  end.

(** The backtracking matcher, in continuation-passing style. *)
Fixpoint run (r : regex) (st : mstate) (k : mstate -> option mstate)
    : option mstate :=
  match r with
  | Eps => k st
  | Cls p =>
      match ms_rest st with
      | String c s' =>
          if p c then k (MState (Some c) (S (ms_pos st)) s' (ms_caps st))
          else None
      | EmptyString => None
      end
  | Seq r1 r2 => run r1 st (fun st' => run r2 st' k)
  | Alt r1 r2 =>
      match run r1 st k with
      | Some x => Some x
      | None => run r2 st k
      end
  | Rep p lo hi =>
      rep p lo hi (ms_caps st) (ms_prev st) (ms_pos st) (ms_rest st) k
  | Grp n r =>
      run r st (fun st' =>
        k (MState (ms_prev st') (ms_pos st') (ms_rest st')
             ((n, consumed st st') :: ms_caps st')))
  | WordB => if at_boundary st then k st else None
  | Bos => match ms_prev st with None => k st | Some _ => None end
  | Eos => if at_end (ms_rest st) then k st else None
  end.

(** A match object. *)
Record rmatch : Type := RMatch {
  m_whole : string;
  m_caps : list (nat * string);
  m_len : nat
}.

Fixpoint cap (n : nat) (caps : list (nat * string)) : string :=
  match caps with
  | [] => EmptyString
  | (i, v) :: caps' => if Nat.eqb i n then v else cap n caps'
  end.

(** [m.group(n)]; every group of the patterns below takes part in every
    match of its pattern. *)
Definition group (n : nat) (m : rmatch) : string :=
  match n with O => m_whole m | _ => cap n (m_caps m) end.

(** The pattern matched at the position before [s]. *)
Definition match_at (r : regex) (prev : option ascii) (s : string)
    : option rmatch :=
  match run r (MState prev O s []) Some with
  | Some st => Some (RMatch (Str.take (ms_pos st) s) (ms_caps st) (ms_pos st))
  | None => None
  end.

(** [re.search]: the leftmost match. *)
Fixpoint search_from (r : regex) (prev : option ascii) (s : string)
    : option rmatch :=
  match match_at r prev s with
  | Some m => Some m
  | None =>
      match s with
      | EmptyString => None
      | String c s' => search_from r (Some c) s'
      end
  end.

Definition search (r : regex) (s : string) : option rmatch :=
  search_from r None s.

(** The scans below go through the text once; [skip] counts the characters
    of the last match still to be passed over.  None of the scripts'
    patterns matches the empty string, and an empty match is passed over
    like a failure. *)
Fixpoint finditer_go (r : regex) (skip : nat) (prev : option ascii)
    (s : string) : list rmatch :=
  match s with
  | EmptyString => []
  | String c s' =>
      match skip with
      | S n => finditer_go r n (Some c) s'
      | O =>
          match match_at r prev s with
          | Some m =>
              match m_len m with
              | S n => m :: finditer_go r n (Some c) s'
              | O => finditer_go r O (Some c) s'
              end
          | None => finditer_go r O (Some c) s'
          end
      end
  end.

Definition finditer (r : regex) (s : string) : list rmatch :=
  finditer_go r O None s.

(** [re.sub(r, repl, s)] for a constant replacement. *)
Fixpoint sub_go (r : regex) (repl : string) (skip : nat)
    (prev : option ascii) (s : string) : string :=
  match s with
  | EmptyString => EmptyString
  | String c s' =>
      match skip with
      | S n => sub_go r repl n (Some c) s'
      | O =>
          match match_at r prev s with
          | Some (RMatch _ _ (S n)) => repl +:+ sub_go r repl n (Some c) s'
          | _ => String c (sub_go r repl O (Some c) s')
          end
      end
  end.

Definition sub (r : regex) (repl : string) (s : string) : string :=
  sub_go r repl O None s.

(** [re.split(r, s)]: [cur] is the piece being read, reversed. *)
Fixpoint split_go (r : regex) (skip : nat) (prev : option ascii)
    (cur : string) (s : string) : list string :=
  match s with
  | EmptyString => [String.rev cur]
  | String c s' =>
      match skip with
      | S n => split_go r n (Some c) cur s'
      | O =>
          match match_at r prev s with
          | Some (RMatch _ _ (S n)) =>
              String.rev cur :: split_go r n (Some c) EmptyString s'
          | _ => split_go r O (Some c) (String c cur) s'
          end
      end
  end.

Definition split (r : regex) (s : string) : list string :=
  split_go r O None EmptyString s.

(** *** Pattern notation *)

Definition chr (c : ascii) : regex := Cls (Ascii.eqb c).
Definition chr_i (c : ascii) : regex := Cls (Chr.eqb_ci c).

(** A literal, and a literal under [re.I]. *)
Fixpoint lit (s : string) : regex :=
  match s with
  | EmptyString => Eps
  | String c EmptyString => chr c
  | String c s' => Seq (chr c) (lit s')
  end.

Fixpoint lit_i (s : string) : regex :=
  match s with
  | EmptyString => Eps
  | String c EmptyString => chr_i c
  | String c s' => Seq (chr_i c) (lit_i s')
  end.

Definition opt (r : regex) : regex := Alt r Eps.
Definition star (p : ascii -> bool) : regex := Rep p 0 None.
Definition plus (p : ascii -> bool) : regex := Rep p 1 None.
Definition at_least (n : nat) (p : ascii -> bool) : regex := Rep p n None.

Fixpoint seq (rs : list regex) : regex :=
  match rs with
  | [] => Eps
  | [r] => r
  | r :: rs' => Seq r (seq rs')
  end.

(** [.]: any character but the newline. *)
Definition dot (c : ascii) : bool := negb (Ascii.eqb c "010").

(** A class given by the list of its members. *)
Definition one_of (s : string) (c : ascii) : bool := Str.existsb (Ascii.eqb c) s.

Definition not_in (p : ascii -> bool) (c : ascii) : bool := negb (p c).

End Re.

(** ** Parsed JSON and parsed documents *)

(** What [json.loads] returns. *)
#[warnings="-register-all"] Inductive json : Type :=
| JNull
| JBool (b : bool)
| JInt (z : Z)
| JFloat (f : spec_float)
| JStr (s : string)
| JList (l : list json)
| JDict (kv : list (string * json)).

Definition dict : Type := list (string * json).

(** [node.get(key)]; an absent key gives [None], which is [JNull]. *)
Fixpoint get (key : string) (node : dict) : json :=
  match node with
  | [] => JNull
  | (k, v) :: node' => if String.eqb k key then v else get key node'
  end.

(** Python truthiness. *)
Definition truthy (v : json) : bool :=
  match v with
  | JNull => false
  | JBool b => b
  | JInt z => negb (z =? 0)
  | JFloat (S754_zero _) => false
  | JFloat _ => true
  | JStr s => Str.truthy s
  | JList l => match l with [] => false | _ => true end
  | JDict kv => match kv with [] => false | _ => true end
  end.

(** [int(f)] of a float: truncation toward zero; the non-finite floats
    raise. *)
Definition int_of_float (f : spec_float) : flow string Z :=
  match f with
  | S754_zero _ => Return 0
  | S754_finite s m e =>
      let mag := if 0 <=? e then Z.pos m * 2 ^ e else Z.pos m / 2 ^ (- e) in
      Return (if s then - mag else mag)
  | S754_infinity _ => Raised "OverflowError"
  | S754_nan => Raised "ValueError"
  end.

(** An element of a document, as far as the scripts look at it: its tag
    name, its [content] attribute and its text [get_text(" ", strip=True)]. *)
Record element : Type := Element {
  el_name : string;
  el_content : option string;
  el_text : string
}.

(** A document parsed by BeautifulSoup, as the answers to the queries of
    [fetch_stock.py]:
    - [anchors]: the [href] of every [<a>] element that has one, in
      document order;
    - [ld_scripts]: for every [<script type="application/ld+json">], the
      value [json.loads] gives for its content, [None] when it raises;
    - [select_one]: the first element matching a CSS selector;
    - [title_tag]: [soup.title];
    - [page_text]: [soup.get_text(" ", strip=True)]. *)
Record soup : Type := Soup {
  anchors : list string;
  ld_scripts : list (option json);
  select_one : string -> option element;
  title_tag : option element;
  page_text : string
}.

(** [tag.get("content")] when it is truthy. *)
Definition content_of (n : element) : option string :=
  match el_content n with
  | Some c => if Str.truthy c then Some c else None
  | None => None
  end.

(** ** [scripts/fetch_stock.py] *)

Module FetchStock.

Import Re.

(** *** Constants *)

Definition AGENT_ID : string := "75570".
Definition AGENT_SLUG : string := "blessing-nsibande".

Definition RESULTS_URL : string :=
  "https://www.huizemark.com/results/agent/" +:+ AGENT_ID +:+ "/".
Definition PROFILE_URL : string :=
  "https://www.huizemark.com/agents/" +:+ AGENT_SLUG +:+ "/" +:+ AGENT_ID +:+ "/".

Definition MAX_PAGES : nat := 20.

(** The class of [MONEY_RE]: digits, whitespace, comma, full stop and
    apostrophe; its last member, the right single quotation mark U+2019, is
    outside the range of the character model. *)
Definition money_class (c : ascii) : bool :=
  Chr.is_digit c || Chr.is_space c || one_of ",.'" c.

Definition RESIDENTIAL_HREF_RE : regex := lit "/results/residential/".

(** [(R\s*[...]+)] over that class, [re.I]. *)
Definition MONEY_RE : regex :=
  Grp 1 (seq [chr_i "R"; star Chr.is_space; plus money_class]).

(** [(Bedrooms?|Beds?)\s*[:\-]?\s*(\d+)], [re.I]. *)
Definition BEDS_LABEL_RE : regex :=
  seq [Grp 1 (Alt (Seq (lit_i "Bedroom") (opt (chr_i "s")))
                  (Seq (lit_i "Bed") (opt (chr_i "s"))));
       star Chr.is_space; opt (Cls (one_of ":-")); star Chr.is_space;
       Grp 2 (plus Chr.is_digit)].

(** [(\d+)\s*bed(?:room)?s?\b], [re.I]. *)
Definition BEDS_WORD_RE : regex :=
  seq [Grp 1 (plus Chr.is_digit); star Chr.is_space; lit_i "bed";
       opt (lit_i "room"); opt (chr_i "s"); WordB].

(** [\b(RL\d{3,})\b], [re.I]. *)
Definition REF_RL_RE : regex :=
  seq [WordB; Grp 1 (Seq (lit_i "RL") (at_least 3 Chr.is_digit)); WordB].

(** [\b(\d{5,})\b]. *)
Definition REF_NUMERIC_RE : regex :=
  seq [WordB; Grp 1 (at_least 5 Chr.is_digit); WordB].

(** The label and the code of a labelled reference; [sep] is the class of
    the optional separator. *)
Definition ref_label : regex :=
  Alt (seq [lit_i "Web"; star Chr.is_space; lit_i "Ref"; opt (lit_i "erence")])
      (seq [lit_i "Ref"; opt (lit_i "erence");
            opt (seq [star Chr.is_space; lit_i "No"; opt (chr ".")])]).

Definition ref_code : regex :=
  Alt (Seq (Rep Chr.is_alpha 0 (Some 3%nat)) (at_least 5 Chr.is_digit))
      (at_least 5 Chr.is_digit).

Definition labelled (sep : ascii -> bool) : regex :=
  seq [ref_label; star Chr.is_space; opt (Cls sep); star Chr.is_space;
       Grp 1 ref_code].

(** [(?:Web\s*Ref(?:erence)?|Ref(?:erence)?(?:\s*No\.?)?)\s*SEP?\s*([A-Za-z]{0,3}\d{5,}|\d{5,})],
    [re.I], where SEP is the class of the colon, the hash, the hyphen and
    the no-break space U+00A0. *)
Definition REF_LABELLED_RE : regex :=
  labelled (fun c => one_of ":#-" c || Ascii.eqb c "160").

(** The pattern of the "numeric windows" loop of [extract_ref]: the same
    with the separator class [[:#-]]. *)
Definition REF_WINDOW_RE : regex := labelled (one_of ":#-").

(** [\bblessing\b.*\bnsibande\b], [re.I]. *)
Definition AGENT_NAME_RE : regex :=
  seq [WordB; lit_i "blessing"; WordB; star dot; WordB; lit_i "nsibande"; WordB].

Definition AGENT_URL_SNIPPETS : list string :=
  ["/agents/" +:+ AGENT_SLUG +:+ "/" +:+ AGENT_ID +:+ "/";
   "/results/agent/" +:+ AGENT_ID +:+ "/"].

Definition TYPES_REQUIRE_BEDS : gset string :=
  {[ "house"; "apartment"; "flat"; "townhouse"; "cluster"; "duplex";
     "simplex"; "loft"; "cottage"; "villa"; "maisonette"; "penthouse" ]}.

Definition TYPES_NO_BEDS : gset string :=
  {[ "vacant-land"; "land"; "plot"; "farm"; "smallholding";
     "commercial"; "industrial"; "office"; "retail"; "warehouse";
     "development"; "site"; "stand" ]}.

(** *** Utilities *)

Definition make_abs (url : string) : string :=
  if Str.startswith "http" url then url
  else if Str.startswith "/" url then "https://www.huizemark.com" +:+ url
  else "https://www.huizemark.com/" +:+ url.

(** [re.sub(r'\s+', ' ', s or '').strip()]. *)
Definition norm_space (s : string) : string :=
  Str.strip Chr.is_space (sub (plus Chr.is_space) " " s).

(** [txt] is [None] or a string; [not txt] holds of [None] and of the
    empty string. *)
Definition to_int_money (txt : option string) : result (option Z) :=
  match txt with
  | None => Ok None
  | Some t =>
      if negb (Str.truthy t) then Ok None
      else
        let digits := sub (Cls (not_in Chr.is_digit)) EmptyString t in
        if Str.truthy digits then Some <$> Str.int digits else Ok None
  end.

Definition to_int (txt : option string) : result (option Z) :=
  match txt with
  | None => Ok None
  | Some t =>
      if negb (Str.truthy t) then Ok None
      else
        match search (plus Chr.is_digit) t with
        | Some m => Some <$> Str.int (group 0 m)
        | None => Ok None
        end
  end.

Definition is_slash (c : ascii) : bool := Ascii.eqb c "/".

(** [^https?://[^/]+]. *)
Definition URL_HOST_RE : regex :=
  seq [Bos; lit "http"; opt (chr "s"); lit "://"; plus (not_in is_slash)].

(** [re.sub(r'^https?://[^/]+', '', url).strip('/')], then
    [re.split(r'/+', path)]. *)
Definition url_path (url : string) : string :=
  Str.strip is_slash (sub URL_HOST_RE EmptyString url).

Definition url_parts (url : string) : list string :=
  split (plus is_slash) (url_path url).

(** [x in parts] and [parts.index(x)]. *)
Fixpoint index (x : string) (parts : list string) : option nat :=
  match parts with
  | [] => None
  | p :: parts' =>
      if String.eqb p x then Some O else S <$> index x parts'
  end.

(** The position of the marker segment: of ["for-sale"] when there is one,
    otherwise of ["to-let"]. *)
Definition sale_index (parts : list string) : option nat :=
  match index "for-sale" parts with
  | Some i => Some i
  | None => index "to-let" parts
  end.

(** No operation of the [try] block raises. *)
Definition parse_location_from_url (url : string) : option ustring :=
  let parts := url_parts url in
  match sale_index parts with
  | None => None
  | Some i =>
      if (i + 2 <? length parts)%nat then
        match parts !! (i + 2)%nat with
        | Some area_slug => Some (Str.title (Str.replace "-" " " area_slug))
        | None => None
        end
      else None
  end.

Definition property_type_from_url (url : string) : option string :=
  let parts := url_parts url in
  match sale_index parts with
  | None => None
  | Some i =>
      if (i + 3 <? length parts)%nat then
        match parts !! (i + 3)%nat with
        | Some t => Some (Str.lower t)
        | None => None
        end
      else None
  end.

(** [/(\d{5,})(?:/|$)]. *)
Definition last_numeric_segment_from_url (url : string) : option string :=
  match search (seq [chr "/"; Grp 1 (at_least 5 Chr.is_digit);
                     Alt (chr "/") Eos]) url with
  | Some m => Some (group 1 m)
  | None => None
  end.

(** *** JSON-LD helpers *)

(** The blocks that parse; a block on which [json.loads] raises is skipped. *)
Definition iter_jsonld (sp : soup) : list json :=
  omap id (ld_scripts sp).

(** Every mapping of the tree, depth first. *)
Fixpoint flatten_json (obj : json) : list dict :=
  match obj with
  | JDict kv => kv :: flat_map (fun p : string * json => flatten_json p.2) kv
  | JList l => flat_map flatten_json l
  | _ => []
  end.

Definition jsonld_nodes (sp : soup) : list dict :=
  flat_map flatten_json (iter_jsonld sp).

Definition is_str (v : json) : bool :=
  match v with JStr _ => true | _ => false end.

Definition any_url_points_to_agent (url_val : json) : bool :=
  match url_val with
  | JStr s =>
      let u := Str.lower s in
      existsb (fun snippet => Str.contains snippet u) AGENT_URL_SNIPPETS
  | _ => false
  end.

Definition any_name_is_agent (name_val : json) : bool :=
  match name_val with
  | JStr s => bool_decide (is_Some (search AGENT_NAME_RE s))
  | _ => false
  end.

(** *** Extraction *)

Definition TITLE_SELECTORS : list string :=
  ["h1"; "h1.property-title"; ".property-title"; ".title";
   "h1[itemprop='name']"; "meta[property='og:title']"].

Definition get_meta_content (sp : soup) (prop : string) : option string :=
  match select_one sp ("meta[property='" +:+ prop +:+ "']") with
  | Some tag => content_of tag
  | None => None
  end.

(** The JSON-LD signals of one node. *)
Definition node_points_to_agent (node : dict) : bool :=
  existsb (fun key =>
    match get key node with
    | JStr s => any_url_points_to_agent (JStr s)
    | JList l =>
        existsb (fun x => is_str x && any_url_points_to_agent x) l
    | _ => false
    end) ["url"; "@id"; "sameAs"]
  ||
  existsb (fun key =>
    match get key node with
    | JStr s => any_name_is_agent (JStr s)
    | JDict d => any_name_is_agent (get "name" d) || any_url_points_to_agent (get "url" d)
    | _ => false
    end) ["name"; "agent"; "seller"; "brand"; "author"].

(** Every branch is a [return True] without effects, so the cascade is the
    disjunction of its signals. *)
Definition verify_agent_ownership (sp : soup) (full_text : string) : bool :=
  existsb (fun a =>
    let href := Str.lower a in
    Str.contains ("/agents/" +:+ AGENT_SLUG +:+ "/" +:+ AGENT_ID +:+ "/") href
    || Str.contains ("/results/agent/" +:+ AGENT_ID +:+ "/") href) (anchors sp)
  || existsb node_points_to_agent (jsonld_nodes sp)
  || (let canonical := Str.lower (default EmptyString (get_meta_content sp "og:url")) in
      any_url_points_to_agent (JStr canonical))
  || (let lt := Str.lower full_text in
      existsb (fun snippet => Str.contains snippet lt) AGENT_URL_SNIPPETS
      || (any_name_is_agent (JStr full_text)
          && Str.contains "/results/residential/" lt)).

(** [if p:] for an optional integer: neither [None] nor zero. *)
Definition truthy_int (p : option Z) : bool :=
  match p with
  | Some z => negb (z =? 0)
  | None => false
  end.

Definition extract_price (sp : soup) (text : string) : result (option Z) :=
  fn (
    (* meta *)
    match select_one sp "meta[itemprop='price']" with
    | Some meta_price =>
        match content_of meta_price with
        | Some c =>
            call (to_int_money (Some c)) (fun p =>
            when (truthy_int p) (Return p))
        | None => Continue
        end
    | None => Continue
    end ;;
    (* css *)
    for_each [".price"; ".property-price"; "[class*='price']"] (fun sel =>
      match select_one sp sel with
      | Some n =>
          call (to_int_money (Some (el_text n))) (fun p =>
          when (truthy_int p) (Return p))
      | None => Continue
      end) ;;
    (* regex *)
    match search MONEY_RE text with
    | Some m => call (to_int_money (Some (group 1 m))) Return
    | None => Continue
    end ;;
    Return None).

(** [A.search(t) or B.search(t)]: a match object is truthy. *)
Definition or_match (a b : option rmatch) : option rmatch :=
  match a with
  | Some m => Some m
  | None => b
  end.

Definition extract_ref (sp : soup) (text : string) (url : string)
    : option ustring :=
  pure_fn (
    (* labelled anywhere *)
    match search REF_LABELLED_RE text with
    | Some m => Return (Some (Str.upper (group 1 m)))
    | None => Continue
    end ;;
    (* 'ref' containers *)
    for_each ["[class*='ref']"; ".property-ref"; ".web-ref"] (fun sel =>
      match select_one sp sel with
      | Some n =>
          let t := norm_space (el_text n) in
          match or_match (search REF_LABELLED_RE t)
                  (or_match (search REF_RL_RE t) (search REF_NUMERIC_RE t)) with
          | Some m2 => Return (Some (Str.upper (group 1 m2)))
          | None => Continue
          end
      | None => Continue
      end) ;;
    (* rl anywhere *)
    match search REF_RL_RE text with
    | Some m => Return (Some (Str.upper (group 1 m)))
    | None => Continue
    end ;;
    (* numeric windows near 'ref' *)
    for_each (finditer REF_WINDOW_RE text) (fun window =>
      let val := group 1 window in
      when (Str.truthy val) (Return (Some (Str.upper val)))) ;;
    (* avoid money-like numerics; fallback to URL id.  [monies] is a set,
       read only through [any]. *)
    (let monies := map (group 0) (finditer MONEY_RE text) in
     for_each (finditer REF_NUMERIC_RE text) (fun m =>
       let seq := group 1 m in
       when (negb (existsb (fun mon => Str.contains seq mon) monies))
            (Return (Some (Ustr.of_string seq))))) ;;
    Return (Ustr.of_string <$> last_numeric_segment_from_url url)).

(** [int(val)] when [val] is an [int] or a [float]; [bool] is a subclass of
    [int]. *)
Definition int_of_number (val : json) : option (flow string Z) :=
  match val with
  | JBool b => Some (Return (if b then 1 else 0))
  | JInt z => Some (Return z)
  | JFloat f => Some (int_of_float f)
  | _ => None
  end.

(** The four sources of [extract_beds], in the order of its docstring. *)

(** 1) JSON-LD [numberOfBedrooms] / [numberOfRooms]. *)
Definition beds_jsonld (sp : soup) : flow string (option Z) :=
  for_each (iter_jsonld sp) (fun data =>
    for_each (flatten_json data) (fun node =>
      for_each ["numberOfBedrooms"; "numberOfRooms"] (fun key =>
        let val := get key node in
        match int_of_number val with
        | Some (Return z) => when (0 <=? z) (Return (Some z))
        | Some (Raised e) => Raised e
        | _ => Continue
        end ;;
        match val with
        | JStr s =>
            when (bool_decide (is_Some (search (plus Chr.is_digit) s)))
                 (call (to_int (Some s)) Return)
        | _ => Continue
        end))).

(** 2) Labelled rows: 'Bedrooms: 3'. *)
Definition beds_label (text : string) : flow string (option Z) :=
  match search BEDS_LABEL_RE text with
  | Some m => call (Str.int (group 2 m)) (fun z => Return (Some z))
  | None => Continue
  end.

(** 3) Bed icon/blocks: class contains 'bed'. *)
Definition beds_blocks (sp : soup) : flow string (option Z) :=
  for_each ["[class*='bed']"; ".icon-bed"; ".beds"; ".property-beds"] (fun sel =>
    match select_one sp sel with
    | Some n =>
        call (to_int (Some (el_text n))) (fun v =>
        match v with
        | Some v => Return (Some v)
        | None => Continue
        end)
    | None => Continue
    end).

(** 4) Title phrase: '3 Bedroom' (last resort). *)
Definition beds_word (text : string) : flow string (option Z) :=
  match search BEDS_WORD_RE text with
  | Some m => call (Str.int (group 1 m)) (fun z => Return (Some z))
  | None => Continue
  end.

Definition beds_cascade (sp : soup) (text : string) : flow string (option Z) :=
  beds_jsonld sp ;; beds_label text ;; beds_blocks sp ;; beds_word text.

Definition extract_beds (sp : soup) (text : string) (ptype : string)
    : result (option Z) :=
  fn (
    beds_cascade sp text ;;
    (* Types without bedrooms => 0 *)
    when (bool_decide (ptype ∈ TYPES_NO_BEDS)) (Return (Some 0)) ;;
    (* Unknown type: still require bedrooms *)
    Return None).

(** A complete item of [listings.json]. *)
Record listing : Type := Listing {
  ref : ustring;
  title : string;
  url : string;
  price : Z;
  beds : Z;
  area : ustring
}.

(** The title loop: [title] is the variable of the loop, [break] leaves it
    with a non-empty title. *)
Fixpoint title_loop (sp : soup) (sels : list string) (title : option string)
    : option string :=
  match sels with
  | [] => title
  | sel :: sels' =>
      match select_one sp sel with
      | Some n =>
          let raw :=
            match content_of n with
            | Some c => if String.eqb (el_name n) "meta" then c else el_text n
            | None => el_text n
            end in
          let t := norm_space raw in
          if Str.truthy t then Some t else title_loop sp sels' (Some t)
      | None => title_loop sp sels' title
      end
  end.

Definition truthy_str (o : option string) : bool :=
  match o with
  | Some s => Str.truthy s
  | None => false
  end.

(** The "Title" block of [extract_complete_item_from_detail]: the value of
    [title] when the block is left. *)
Definition extract_title (sp : soup) : option string :=
  let title := title_loop sp TITLE_SELECTORS None in
  if negb (truthy_str title) then
    match title_tag sp with
    | Some t => Some (norm_space (el_text t))
    | None => title
    end
  else title.

(** [skip_log] is a dictionary of strings that the function updates; the
    result is the returned item, if any, and the dictionary as it is left.
    [sp] is [BeautifulSoup(html, "lxml")]. *)
Definition extract_complete_item_from_detail (sp : soup) (url : string)
    (skip_log : gmap string string)
    : result (option listing * gmap string string) :=
  let text := page_text sp in
  (* Verify ownership *)
  if negb (verify_agent_ownership sp text) then
    Ok (None, <["reason" := "not_owned_by_agent_75570"]> skip_log)
  else
  (* Property type & location *)
  let ptype := Str.lower (default EmptyString (property_type_from_url url)) in
  match parse_location_from_url url with
  | None => Ok (None, <["reason" := "missing_area"]> skip_log)
  | Some area =>
  if negb (Ustr.truthy area) then
    Ok (None, <["reason" := "missing_area"]> skip_log)
  else
  (* Title *)
  match extract_title sp with
  | None => Ok (None, <["reason" := "missing_title"]> skip_log)
  | Some title =>
  if negb (Str.truthy title) then
    Ok (None, <["reason" := "missing_title"]> skip_log)
  else
  (* Price *)
  match extract_price sp text with
  | Exc e => Exc e
  | Ok None => Ok (None, <["reason" := "missing_price"]> skip_log)
  | Ok (Some price) =>
  (* Beds (with type-aware rule) *)
  match extract_beds sp text ptype with
  | Exc e => Exc e
  | Ok None =>
      Ok (None,
          <["property_type" := if Str.truthy ptype then ptype else "unknown"]>
            (<["reason" := "missing_beds_required_for_residential"]> skip_log))
  | Ok (Some beds) =>
  (* Ref *)
  match extract_ref sp text url with
  | None => Ok (None, <["reason" := "missing_ref"]> skip_log)
  | Some ref =>
  if negb (Ustr.truthy ref) then
    Ok (None, <["reason" := "missing_ref"]> skip_log)
  else
    Ok (Some (Listing ref title url price beds area), skip_log)
  end end end end end.

(** *** Collecting the detail URLs *)

Definition dq : ascii := "034".

(** [<a[^>]+rel=QnextQ[^>]*href=Q([^Q]+)Q], [re.I], where Q stands for the
    double quote. *)
Definition NEXT_REL_RE : regex :=
  seq [lit_i "<a"; plus (not_in (Ascii.eqb ">")); lit_i "rel="; chr dq;
       lit_i "next"; chr dq; star (not_in (Ascii.eqb ">")); lit_i "href=";
       chr dq; Grp 1 (plus (not_in (Ascii.eqb dq))); chr dq].

(** [<a[^>]*href=Q([^Q]+)Q[^>]*>\s*(Next|>>|Next\s*Page)\s*<], [re.I], where
    >> stands for the right-pointing double angle quotation mark U+00BB. *)
Definition NEXT_TEXT_RE : regex :=
  seq [lit_i "<a"; star (not_in (Ascii.eqb ">")); lit_i "href="; chr dq;
       Grp 1 (plus (not_in (Ascii.eqb dq))); chr dq;
       star (not_in (Ascii.eqb ">")); chr ">"; star Chr.is_space;
       Grp 2 (Alt (lit_i "Next")
               (Alt (chr "187")
                    (seq [lit_i "Next"; star Chr.is_space; lit_i "Page"])));
       star Chr.is_space; chr "<"].

Definition find_next_link (html : string) : option string :=
  match search NEXT_REL_RE html with
  | Some m => Some (group 1 m)
  | None =>
      match search NEXT_TEXT_RE html with
      | Some m2 => Some (group 1 m2)
      | None => None
      end
  end.

(** The loop [for u in urls: if u not in seen: seen.add(u); uniq.append(u)]. *)
Fixpoint uniq (seen : gset string) (urls : list string) : list string :=
  match urls with
  | [] => []
  | u :: urls' =>
      if decide (u ∈ seen) then uniq seen urls'
      else u :: uniq ({[u]} ∪ seen) urls'
  end.

(** [soup.find_all("a", href=RESIDENTIAL_HREF_RE)], as the list of the
    [href] values. *)
Definition residential_anchors (sp : soup) : list string :=
  filter (fun href => is_Some (search RESIDENTIAL_HREF_RE href)) (anchors sp).

(** [a or b]. *)
Definition or_ (a b : json) : json := if truthy a then a else b.

Section Crawl.

(** [parse html] is [BeautifulSoup(html, "lxml")].  [fetch n url] is what
    [fetch_html] returns for the request number [n] of the run: the body of
    the response, or [None] on a status other than 200 or a transport
    error. *)
Variable parse : string -> soup.
Variable fetch : nat -> string -> option string.

Definition parse_results_for_detail_urls (html : string) : list string :=
  let sp := parse html in
  let urls :=
    omap (fun href =>
      if negb (Str.truthy href) then None
      else
        let url := make_abs href in
        if Str.contains "/results/residential/" url then Some url else None)
      (residential_anchors sp) in
  uniq ∅ urls.

Definition parse_profile_for_detail_urls (html : string) : list string :=
  let sp := parse html in
  let urls :=
    omap (fun href =>
      if negb (Str.truthy href) then None else Some (make_abs href))
      (residential_anchors sp) in
  (* JSON-LD fallback *)
  let urls' :=
    omap (fun node =>
      match or_ (get "url" node) (get "@id" node) with
      | JStr url =>
          if Str.contains "/results/residential/" url
          then Some (make_abs url) else None
      | _ => None
      end) (jsonld_nodes sp) in
  uniq ∅ (urls ++ urls').

(** [for u in urls: if u not in collected: collected.append(u)]. *)
Fixpoint extend_new (collected urls : list string) : list string :=
  match urls with
  | [] => collected
  | u :: urls' =>
      if bool_decide (u ∈ collected) then extend_new collected urls'
      else extend_new (collected ++ [u]) urls'
  end.

(** The [while url and pages < MAX_PAGES] loop; [left] is
    [MAX_PAGES - pages], [n] the number of the next request.  The result is
    [collected] and the number of the next request. *)
Fixpoint results_loop (left : nat) (n : nat) (url : option string)
    (collected : list string) : list string * nat :=
  match left, url with
  | S left', Some u =>
      if negb (Str.truthy u) then (collected, n)
      else
        match fetch n u with
        | Some html =>
            if negb (Str.truthy html) then (collected, S n)
            else
              let urls := parse_results_for_detail_urls html in
              let collected' := extend_new collected urls in
              match find_next_link html with
              | Some nxt =>
                  if Str.truthy nxt
                  then results_loop left' (S n) (Some (make_abs nxt)) collected'
                  else results_loop left' (S n) None collected'
              | None => results_loop left' (S n) None collected'
              end
        | None => (collected, S n)
        end
  | _, _ => (collected, n)
  end.

Definition collect_from_results (n : nat) : list string * nat :=
  results_loop MAX_PAGES n (Some RESULTS_URL) [].

Definition collect_from_profile (n : nat) : list string * nat :=
  match fetch n PROFILE_URL with
  | Some html =>
      if negb (Str.truthy html) then ([], S n)
      else (parse_profile_for_detail_urls html, S n)
  | None => ([], S n)
  end.

(** *** main *)

(** "Merge (profile first), de-dupe". *)
Definition merge (urls_profile urls_results : list string) : list string :=
  uniq ∅ (urls_profile ++ urls_results).

(** The loop over the merged URLs: [items] and [skipped] as they are when
    the loop is left. *)
Fixpoint detail_loop (n : nat) (merged : list string)
    (items : list listing) (skipped : list (gmap string string))
    : result (list listing * list (gmap string string)) :=
  match merged with
  | [] => Ok (items, skipped)
  | u :: merged' =>
      match fetch n u with
      | Some html =>
          if negb (Str.truthy html) then
            detail_loop (S n) merged' items
              (skipped ++ [ {["url" := u; "reason" := "detail_fetch_failed"]} ])
          else
            match extract_complete_item_from_detail (parse html) u
                    {["url" := u]} with
            | Exc e => Exc e
            | Ok (Some item, _) =>
                detail_loop (S n) merged' (items ++ [item]) skipped
            | Ok (None, skip_log) =>
                detail_loop (S n) merged' items (skipped ++ [skip_log])
            end
      | None =>
          detail_loop (S n) merged' items
            (skipped ++ [ {["url" := u; "reason" := "detail_fetch_failed"]} ])
      end
  end.

End Crawl.

(** "De-duplicate": the items whose URL has not been seen. *)
Fixpoint dedup_items (seen : gset string) (items : list listing)
    : list listing :=
  match items with
  | [] => []
  | it :: items' =>
      if decide (url it ∈ seen) then dedup_items seen items'
      else it :: dedup_items ({[url it]} ∪ seen) items'
  end.

(** The sort key [(price or 0, title or '')] and the order of Python on
    such pairs. *)
Definition sort_key (x : listing) : Z * string :=
  (if price x =? 0 then 0 else price x,
   if Str.truthy (title x) then title x else EmptyString).

Definition key_lt (a b : Z * string) : bool :=
  (a.1 <? b.1)
  || ((a.1 =? b.1) && match Str.compare a.2 b.2 with Lt => true | _ => false end).

(** [list.sort(key=key, reverse=True)] is a stable sort into descending
    order of the keys: elements with equal keys keep their order.  It is
    written here as an insertion sort. *)
Fixpoint insert_desc {A K} (key : A -> K) (lt : K -> K -> bool) (x : A)
    (l : list A) : list A :=
  match l with
  | [] => [x]
  | y :: l' =>
      if lt (key x) (key y) then y :: insert_desc key lt x l'
      else x :: l
  end.

Fixpoint sort_desc {A K} (key : A -> K) (lt : K -> K -> bool) (l : list A)
    : list A :=
  match l with
  | [] => []
  | x :: l' => insert_desc key lt x (sort_desc key lt l')
  end.

(** "De-duplicate and sort": the content of [listings.json]. *)
Definition finalize (items : list listing) : list listing :=
  sort_desc sort_key key_lt (dedup_items ∅ items).

(** The candidate URLs handed to the detail loop, and the number of the
    next request. *)
Definition candidate_urls (parse : string -> soup)
    (fetch : nat -> string -> option string) : list string * nat :=
  let '(urls_profile, n1) := collect_from_profile parse fetch 0 in
  let '(urls_results, n2) := collect_from_results parse fetch n1 in
  (merge urls_profile urls_results, n2).

(** The run: the content of [listings.json] and of [debug_skipped.json],
    or the exception that ends the run. *)
Definition main (parse : string -> soup) (fetch : nat -> string -> option string)
    : result (list listing * list (gmap string string)) :=
  let '(merged, n) := candidate_urls parse fetch in
  match detail_loop parse fetch n merged [] [] with
  | Exc e => Exc e
  | Ok (items, skipped) => Ok (finalize items, skipped)
  end.

End FetchStock.

(** ** [scripts/fetch_stock1.py] *)

Module FetchStock1.

Import Re.

Definition MAX_PAGES : nat := 12.

(** [AGENT_ID] is [os.environ.get("HUIZEMARK_AGENT_ID", "75570")]; [env] is
    the value of the variable in the environment of the run, when it is
    set. *)
Definition AGENT_ID (env : option string) : string := default "75570" env.

Definition RESULTS_URL (env : option string) : string :=
  "https://www.huizemark.com/results/agent/" +:+ AGENT_ID env +:+ "/".

Definition normalize_start_url (env : option string) (url : string) : string :=
  if Str.contains "/agents/" url then RESULTS_URL env else url.

Definition to_number (txt : option string) : result (option Z) :=
  match txt with
  | None => Ok None
  | Some t =>
      if negb (Str.truthy t) then Ok None
      else
        let n := sub (Cls (not_in Chr.is_digit)) EmptyString t in
        if Str.truthy n then Some <$> Str.int n else Ok None
  end.

Definition url_parts (url : string) : list string :=
  split (plus FetchStock.is_slash)
    (Str.strip FetchStock.is_slash
       (sub (seq [Bos; lit "http"; opt (chr "s"); lit "://";
                  plus (not_in FetchStock.is_slash)])
            EmptyString url)).

(** No operation of the [try] block raises. *)
Definition area_from_url (url : string) : option ustring :=
  let parts := url_parts url in
  match FetchStock.sale_index parts with
  | None => None
  | Some i =>
      let area_slug :=
        if (i + 2 <? length parts)%nat then parts !! (i + 2)%nat
        else if (i + 1 <? length parts)%nat then parts !! (i + 1)%nat
        else None in
      match area_slug with
      | Some slug =>
          if Str.truthy slug
          then Some (Str.title (Str.replace "-" " " slug))
          else None
      | None => None
      end
  end.

(** An [<a>] element with an [href]: the attribute, the [title] attribute,
    and the texts [get_text(strip=True)] and [get_text(' ', strip=True)]. *)
Record anchor : Type := Anchor {
  a_href : string;
  a_title : option string;
  a_text_packed : string;
  a_text : string
}.

(** A card: [card.find('a', href=True)] and
    [card.get_text(' ', strip=True)]. *)
Record card : Type := Card {
  card_anchor : option anchor;
  card_text : string
}.

(** A results page, as the answers to the queries of the script:
    - [candidates]: the elements selected by the card classes;
    - [res_anchors]: the anchors whose [href] contains
      [/results/residential/], each with the element two levels up. *)
Record soup : Type := Soup {
  candidates : list card;
  res_anchors : list (anchor * card)
}.

(** An item of the catalog of this script. *)
Record item : Type := Item {
  ref : option ustring;
  title : string;
  url : string;
  price : option Z;
  beds : option Z;
  area : option ustring
}.

Definition money_class := FetchStock.money_class.

(** [(R\s*[...]+)] and [Price:\s*(R\s*[...]+)], [re.I]. *)
Definition PRICE_RE : regex :=
  Grp 1 (seq [chr_i "R"; star Chr.is_space; plus money_class]).
Definition PRICE_LABEL_RE : regex :=
  seq [lit_i "Price:"; star Chr.is_space; PRICE_RE].

(** [(\d+)\s*bed(?:room)?s?], [re.I]. *)
Definition BEDS_RE : regex :=
  seq [Grp 1 (plus Chr.is_digit); star Chr.is_space; lit_i "bed";
       opt (lit_i "room"); opt (chr_i "s")].

(** [\b(RL\d{3,})\b], [re.I]. *)
Definition RL_RE : regex :=
  seq [WordB; Grp 1 (Seq (lit_i "RL") (at_least 3 Chr.is_digit)); WordB].

(** [\bWeb\s*Ref[:\s]*([A-Z]{1,3}\d{3,}|\d{5,})\b], [re.I]. *)
Definition WEB_REF_RE : regex :=
  seq [WordB; lit_i "Web"; star Chr.is_space; lit_i "Ref";
       star (fun c => Ascii.eqb c ":" || Chr.is_space c);
       Grp 1 (Alt (Seq (Rep Chr.is_alpha 1 (Some 3%nat)) (at_least 3 Chr.is_digit))
                  (at_least 5 Chr.is_digit));
       WordB].

(** The same text as [find_next_link] of [fetch_stock.py]. *)
Definition find_next_link : string -> option string := FetchStock.find_next_link.

Definition abs_href (href : string) : string :=
  if Str.startswith "/" href then "https://www.huizemark.com" +:+ href else href.

Definition extract_from_card (c : card) : result (option item) :=
  let a := card_anchor c in
  let url :=
    match a with
    | Some a =>
        if bool_decide (is_Some (search FetchStock.RESIDENTIAL_HREF_RE (a_href a)))
        then Some (abs_href (a_href a)) else None
    | None => None
    end in
  (* Title *)
  let title :=
    match a with
    | Some a =>
        match a_title a with
        | Some t => if Str.truthy t then Some (Str.strip Chr.is_space t) else None
        | None => None
        end
    | None => None
    end in
  let title :=
    if negb (FetchStock.truthy_str title) then
      match a with
      | Some a => if Str.truthy (a_text_packed a) then Some (a_text a) else title
      | None => title
      end
    else title in
  let block_text := card_text c in
  (* Price *)
  let m_price :=
    FetchStock.or_match (search PRICE_RE block_text)
                        (search PRICE_LABEL_RE block_text) in
  price ← match m_price with
          | Some m => to_number (Some (group 1 m))
          | None => Ok None
          end;
  (* Beds *)
  beds ← match search BEDS_RE block_text with
         | Some m => Some <$> Str.int (group 1 m)
         | None => Ok None
         end;
  (* WebRef *)
  let ref :=
    match search RL_RE block_text with
    | Some m => Some (Str.upper (group 1 m))
    | None =>
        match search WEB_REF_RE block_text with
        | Some m2 => Some (Str.upper (group 1 m2))
        | None => None
        end
    end in
  let area :=
    match url with
    | Some u => if Str.truthy u then area_from_url u else None
    | None => None
    end in
  Ok (match url, title with
      | Some u, Some t =>
          if Str.truthy u && Str.truthy t
          then Some (Item ref t u price beds area) else None
      | _, _ => None
      end).

(** The item built from the anchor alone, the "last resort". *)
Definition item_of_anchor (a : anchor) : item :=
  let url := abs_href (a_href a) in
  let title :=
    match a_title a with
    | Some t => if Str.truthy t then t
                else if Str.truthy (a_text a) then a_text a
                else "Huizemark Property"
    | None => if Str.truthy (a_text a) then a_text a else "Huizemark Property"
    end in
  Item None title url None None (area_from_url url).

(** "De-dupe by URL"; every item has a [url], and the test [it.get('url')]
    is its truthiness. *)
Fixpoint dedup (seen : gset string) (items : list item) : list item :=
  match items with
  | [] => []
  | it :: items' =>
      if Str.truthy (url it) && bool_decide (url it ∉ seen)
      then it :: dedup ({[url it]} ∪ seen) items'
      else dedup seen items'
  end.

(** The loop over the candidates: the items of the cards that give one. *)
Fixpoint cards_of (cs : list card) : result (list item) :=
  match cs with
  | [] => Ok []
  | c :: cs' =>
      o ← extract_from_card c;
      l ← cards_of cs';
      Ok (match o with Some it => it :: l | None => l end)
  end.

(** The loop over the anchors: the item of the element two levels up or,
    the "last resort", the item of the anchor alone. *)
Fixpoint cards_of_anchors (aps : list (anchor * card)) : result (list item) :=
  match aps with
  | [] => Ok []
  | ap :: aps' =>
      o ← extract_from_card ap.2;
      l ← cards_of_anchors aps';
      Ok (default (item_of_anchor ap.1) o :: l)
  end.

Definition extract_listings_from_html (sp : soup) : result (list item) :=
  cards ← cards_of (candidates sp);
  cards ← match cards with
          | [] => cards_of_anchors (res_anchors sp)
          | _ => Ok cards
          end;
  Ok (dedup ∅ cards).

(** "Sort by price desc if available": the key is [price or 0]. *)
Definition sort_key (x : item) : Z :=
  match price x with
  | Some p => if p =? 0 then 0 else p
  | None => 0
  end.

Definition finalize (all_items : list item) : list item :=
  FetchStock.sort_desc sort_key Z.ltb (dedup ∅ all_items).

Definition next_url (nxt : string) : string :=
  if Str.startswith "/" nxt then "https://www.huizemark.com" +:+ nxt
  else if Str.startswith "http" nxt then nxt
  else "https://www.huizemark.com" +:+ ("/" +:+ Str.lstrip FetchStock.is_slash nxt).

Section Crawl.

(** [env] is the value of [HUIZEMARK_AGENT_ID] in the environment.
    [parse html] is [BeautifulSoup(html, 'lxml')].  [fetch n url] is the
    body of the response to the request number [n]; [None] stands for the
    exception of [session.get] or [raise_for_status]. *)
Variable env : option string.
Variable parse : string -> soup.
Variable fetch : nat -> string -> option string.

Fixpoint pages_loop (left : nat) (n : nat) (url : option string)
    (all_items : list item) : result (list item) :=
  match left, url with
  | S left', Some u =>
      if negb (Str.truthy u) then Ok all_items
      else
        match fetch n u with
        | None => Exc "RequestException"
        | Some html =>
            items ← extract_listings_from_html (parse html);
            let all_items' := all_items ++ items in
            match find_next_link html with
            | Some nxt =>
                if Str.truthy nxt
                then pages_loop left' (S n) (Some (next_url nxt)) all_items'
                else pages_loop left' (S n) None all_items'
            | None => pages_loop left' (S n) None all_items'
            end
        end
  | _, _ => Ok all_items
  end.

(** The run: the content of [listings.json], or the exception. *)
Definition main : result (list item) :=
  all_items ← pages_loop MAX_PAGES 0
                 (Some (normalize_start_url env (RESULTS_URL env))) [];
  Ok (finalize all_items).

End Crawl.

End FetchStock1.

(** * Specification *)

(** ** Vocabulary *)

Module Spec.

Import Re FetchStock.

(** *** Texts *)

(** The number of leading characters of a class. *)
Fixpoint span (p : ascii -> bool) (s : string) : nat :=
  match s with
  | String c s' => if p c then S (span p s') else O
  | EmptyString => O
  end.

(** What [re.sub] does with the pattern [p+]: every maximal run of [p] is
    replaced; [in_run] tells that the run has begun. *)
Fixpoint collapse (p : ascii -> bool) (repl : string) (in_run : bool)
    (s : string) : string :=
  match s with
  | EmptyString => EmptyString
  | String c s' =>
      if p c then
        if in_run then collapse p repl true s'
        else repl +:+ collapse p repl true s'
      else String c (collapse p repl false s')
  end.

(** Shapes of a text with respect to a class of characters: it starts with
    one, it ends with one, it has two of them side by side. *)
Definition starts_with (p : ascii -> bool) (t : string) : bool :=
  match t with String c _ => p c | EmptyString => false end.

Fixpoint ends_with (p : ascii -> bool) (t : string) : bool :=
  match t with
  | EmptyString => false
  | String c EmptyString => p c
  | String _ t' => ends_with p t'
  end.

Fixpoint adjacent (p : ascii -> bool) (t : string) : bool :=
  match t with
  | EmptyString => false
  | String c t' => (p c && starts_with p t') || adjacent p t'
  end.

(** Every whitespace character is the space. *)
Definition only_spaces (t : string) : bool :=
  Str.forallb (fun c => negb (Chr.is_space c) || Ascii.eqb c " ") t.

(** The normal form of [norm_space]. *)
Definition normal (t : string) : Prop :=
  starts_with Chr.is_space t = false /\
  ends_with Chr.is_space t = false /\
  adjacent Chr.is_space t = false.

(** *** Matches *)

(** Group [n] is captured only by repetitions of characters of [p]. *)
Fixpoint captures_class (n : nat) (p : ascii -> bool) (r : regex) : Prop :=
  match r with
  | Seq r1 r2 | Alt r1 r2 => captures_class n p r1 /\ captures_class n p r2
  | Grp m r' =>
      if Nat.eqb m n then
        match r' with
        | Rep q _ _ => forall c, q c = true -> p c = true
        | _ => False
        end
      else captures_class n p r'
  | _ => True
  end.

Definition cap_in (n : nat) (p : ascii -> bool) (st : mstate) : Prop :=
  Str.forallb p (cap n (ms_caps st)) = true.

(** A match of [r] begins at one of the first [n] positions of [s]. *)
Fixpoint begins_within (r : regex) (n : nat) (prev : option ascii)
    (s : string) : bool :=
  match n with
  | O => false
  | S n' =>
      bool_decide (is_Some (match_at r prev s))
      || match s with
         | EmptyString => false
         | String c s' => begins_within r n' (Some c) s'
         end
  end.

(** Where a labelled reference begins: at the word "ref", or at the word
    "web" followed, after whitespace, by the word "ref". *)
Definition begins_label (s : string) : Prop :=
  Str.startswith "ref" (Str.lower s) = true \/
  exists w1 ws t,
    s = w1 +:+ ws +:+ t /\ String.length w1 = 3%nat /\
    Str.startswith "web" (Str.lower s) = true /\
    Str.forallb Chr.is_space ws = true /\
    Str.startswith "ref" (Str.lower t) = true.

(** The labelled reference of the specification's example. *)
Definition LABEL : string := "Web Ref: AB12345".

(** *** Function bodies *)

(** Whatever the body returns satisfies [P]. *)
Definition returns {E A} (P : A -> Prop) (f : flow E A) : Prop :=
  match f with
  | Return a => P a
  | _ => True
  end.

Definition nonneg (o : option Z) : Prop := forall z, o = Some z -> 0 <= z.

(** *** The area of a URL *)

(** A word in title case: its first character in its title-case form, the
    others in their lower-case form. *)
Definition capitalize (w : string) : ustring :=
  match w with
  | EmptyString => []
  | String c w' => Chr.title c ++ Ustr.of_string (Str.lower w')
  end.

(** A text in title case, word by word.  The words of the text are its
    maximal runs of cased characters; every word is capitalised, and the
    characters between the words are kept.  [cur] is the word being read,
    reversed. *)
Fixpoint title_words (cur : string) (s : string) : ustring :=
  match s with
  | EmptyString => capitalize (String.rev cur)
  | String c s' =>
      if Chr.cased c then title_words (String c cur) s'
      else capitalize (String.rev cur) ++ Chr.code c :: title_words EmptyString s'
  end.

Definition title_cased (s : string) : ustring := title_words EmptyString s.

(** A text with its hyphens replaced by spaces. *)
Fixpoint spaced (s : string) : string :=
  match s with
  | EmptyString => EmptyString
  | String c s' => String (if Ascii.eqb c "-" then " "%char else c) (spaced s')
  end.

(** The name made from a slug: hyphens become spaces, words are
    capitalised. *)
Definition area_name (slug : string) : ustring := title_cased (spaced slug).

(** A segment of a path, or a host name: a non-empty text without slash. *)
Definition segment (s : string) : Prop :=
  Str.truthy s = true /\ Str.forallb (not_in is_slash) s = true.

(** The segments joined by slashes. *)
Fixpoint join_path (segs : list string) : string :=
  match segs with
  | [] => EmptyString
  | [s] => s
  | s :: segs' => s +:+ "/" +:+ join_path segs'
  end.

Definition scheme (secure : bool) : string :=
  if secure then "https://" else "http://".

(** The URL of a host and a path, with or without a final slash. *)
Definition http_url (secure : bool) (host : string) (segs : list string)
    (trailing : bool) : string :=
  scheme secure +:+ host +:+
  String "/" (join_path segs +:+ (if trailing then "/" else EmptyString)).

(** The marker segment of a path is its first ["for-sale"] segment or, when
    no segment is ["for-sale"], its first ["to-let"] segment; [pre] are the
    segments before the marker and [rest] the segments after it. *)
Definition marker_at (parts pre rest : list string) : Prop :=
  (parts = pre ++ "for-sale" :: rest /\ ("for-sale" ∉ pre)) \/
  (parts = pre ++ "to-let" :: rest /\ ("to-let" ∉ pre) /\ ("for-sale" ∉ parts)).

Definition no_marker (parts : list string) : Prop :=
  ("for-sale" ∉ parts) /\ ("to-let" ∉ parts).

(** The area as the specification gives it: the segment two positions
    after the marker, and nothing else. *)
Inductive location_of (parts : list string) : option ustring -> Prop :=
| loc_area pre city slug rest :
    marker_at parts pre (city :: slug :: rest) ->
    location_of parts (Some (area_name slug))
| loc_short pre rest :
    marker_at parts pre rest -> (length rest < 2)%nat ->
    location_of parts None
| loc_none :
    no_marker parts -> location_of parts None.

(** The area as [fetch_stock1.py] gives it: when there is no segment two
    positions after the marker, the segment after the marker is taken. *)
Inductive location1_of (parts : list string) : option ustring -> Prop :=
| loc1_area pre city slug rest :
    marker_at parts pre (city :: slug :: rest) ->
    location1_of parts (Some (area_name slug))
| loc1_city pre city :
    marker_at parts pre [city] ->
    location1_of parts (Some (area_name city))
| loc1_last pre :
    marker_at parts pre [] -> location1_of parts None
| loc1_none :
    no_marker parts -> location1_of parts None.

(** *** The item validator *)

(** The checks of the validator, in the order of the source. *)
Inductive check : Type :=
| Ownership | Area | Title | Price | Beds | Ref.

Definition checks : list check := [Ownership; Area; Title; Price; Beds; Ref].

Definition reason_of (c : check) : string :=
  match c with
  | Ownership => "not_owned_by_agent_75570"
  | Area => "missing_area"
  | Title => "missing_title"
  | Price => "missing_price"
  | Beds => "missing_beds_required_for_residential"
  | Ref => "missing_ref"
  end.

(** The reasons of the records of [debug_skipped.json]. *)
Definition reasons : list string :=
  (reason_of <$> checks) ++ ["detail_fetch_failed"].

(** The reasons as the specification lists them. *)
Definition listed_reasons : list string :=
  ["not_owned_by_agent"; "missing_area"; "missing_title"; "missing_price";
   "missing_beds_required_for_residential"; "missing_ref";
   "detail_fetch_failed"].

Definition has_reason (rs : list string) (log : gmap string string) : Prop :=
  exists r, log !! "reason" = Some r /\ r ∈ rs.

(** The property type handed to [extract_beds]. *)
Definition ptype_of (url : string) : string :=
  Str.lower (default EmptyString (property_type_from_url url)).

(** [not x] fails of an optional text. *)
Definition truthy_ustr (o : option ustring) : bool :=
  match o with
  | Some u => Ustr.truthy u
  | None => false
  end.

(** The check [c] succeeds on the page [sp] of address [url]. *)
Definition passes (sp : soup) (url : string) (c : check) : bool :=
  match c with
  | Ownership => verify_agent_ownership sp (page_text sp)
  | Area => truthy_ustr (parse_location_from_url url)
  | Title => truthy_str (extract_title sp)
  | Price =>
      match extract_price sp (page_text sp) with
      | Ok (Some _) => true
      | _ => false
      end
  | Beds =>
      match extract_beds sp (page_text sp) (ptype_of url) with
      | Ok (Some _) => true
      | _ => false
      end
  | Ref => truthy_ustr (extract_ref sp (page_text sp) url)
  end.

Definition first_failing (sp : soup) (url : string) : option check :=
  find (fun c => negb (passes sp url c)) checks.

(** Every field of the item is the value its extractor gives on the page:
    no field is filled in otherwise. *)
Definition resolved (sp : soup) (u : string) (it : listing) : Prop :=
  url it = u /\
  verify_agent_ownership sp (page_text sp) = true /\
  parse_location_from_url u = Some (area it) /\
  extract_title sp = Some (title it) /\
  extract_price sp (page_text sp) = Ok (Some (price it)) /\
  extract_beds sp (page_text sp) (ptype_of u) = Ok (Some (beds it)) /\
  extract_ref sp (page_text sp) u = Some (ref it) /\
  Ustr.truthy (area it) = true /\
  Str.truthy (title it) = true /\
  Ustr.truthy (ref it) = true.

(** The four strings are not empty and the two numbers are not negative. *)
Definition complete (it : listing) : Prop :=
  Ustr.truthy (ref it) = true /\ Str.truthy (title it) = true /\
  Str.truthy (url it) = true /\ Ustr.truthy (area it) = true /\
  0 <= price it /\ 0 <= beds it.

(** *** Where the fields of an item are read *)

(** The texts of a page: its visible text, the text and the [content] of
    an element that answers a selector, the text of its title element, and
    the texts of its JSON-LD nodes. *)
Inductive page_source (sp : soup) : string -> Prop :=
| src_text : page_source sp (page_text sp)
| src_element sel n :
    select_one sp sel = Some n -> page_source sp (el_text n)
| src_content sel n c :
    select_one sp sel = Some n -> el_content n = Some c -> page_source sp c
| src_title n :
    title_tag sp = Some n -> page_source sp (el_text n)
| src_json node key s :
    node ∈ jsonld_nodes sp -> get key node = JStr s -> page_source sp s.

(** [raw] is written in [src]: it is not empty, and it is a part of [src]
    as it stands or with its whitespace normalised. *)
Definition written (raw src : string) : Prop :=
  Str.truthy raw = true /\
  (Str.contains raw src = true \/ Str.contains raw (norm_space src) = true).

(** The number that the digits of a text write. *)
Definition number_of (raw : string) : result Z :=
  Str.int (Str.filter Chr.is_digit raw).

(** The title is a text of the page, normalised. *)
Definition title_found (sp : soup) (t : string) : Prop :=
  exists src, page_source sp src /\ t = norm_space src.

(** The price is a number written in a text of the page. *)
Definition price_found (sp : soup) (p : Z) : Prop :=
  exists src raw, page_source sp src /\ written raw src /\ number_of raw = Ok p.

(** The reference is a code written in a text of the page or in the
    address, in upper case. *)
Definition ref_found (sp : soup) (u : string) (r : ustring) : Prop :=
  exists src raw,
    (page_source sp src \/ src = u) /\ written raw src /\ r = Str.upper raw.

(** The area is the name made from the segment two positions after the
    marker of the address. *)
Definition area_found (u : string) (a : ustring) : Prop :=
  exists pre city slug rest,
    marker_at (url_parts u) pre (city :: slug :: rest) /\ a = area_name slug.

(** The number of bedrooms is a number written in a text of the page, or a
    number of a JSON-LD node under one of the two keys. *)
Definition beds_found (sp : soup) (b : Z) : Prop :=
  (exists src raw,
     page_source sp src /\ written raw src /\ number_of raw = Ok b) \/
  (exists node key,
     node ∈ jsonld_nodes sp /\ key ∈ ["numberOfBedrooms"; "numberOfRooms"] /\
     int_of_number (get key node) = Some (Return b)).

(** The default of the types without bedrooms: the page tells no number
    of bedrooms, the type is one of them, and the number is 0. *)
Definition beds_by_rule (sp : soup) (u : string) (b : Z) : Prop :=
  beds_cascade sp (page_text sp) = Continue /\
  ptype_of u ∈ TYPES_NO_BEDS /\ b = 0.

(** No field of the item is a default, but [beds] under the rule of the
    types without bedrooms. *)
Definition sourced (sp : soup) (u : string) (it : listing) : Prop :=
  url it = u /\
  area_found u (area it) /\
  title_found sp (title it) /\
  price_found sp (price it) /\
  (beds_found sp (beds it) \/ beds_by_rule sp u (beds it)) /\
  ref_found sp u (ref it).

(** The item comes from the page fetched at its URL. *)
Definition from_page (parse : string -> soup)
    (fetch : nat -> string -> option string) (it : listing) : Prop :=
  exists n html, fetch n (url it) = Some html /\ resolved (parse html) (url it) it.

(** The item is read from the page fetched at its URL, field by field. *)
Definition read_from_page (parse : string -> soup)
    (fetch : nat -> string -> option string) (it : listing) : Prop :=
  exists n html,
    fetch n (url it) = Some html /\
    resolved (parse html) (url it) it /\ sourced (parse html) (url it) it.

(** The record of a failed fetch. *)
Definition fetch_failed (u : string) : gmap string string :=
  {["url" := u; "reason" := "detail_fetch_failed"]}.

(** *** The candidate URLs *)

Definition detail_url (u : string) : Prop :=
  Str.startswith "http" u = true /\
  Str.contains "/results/residential/" u = true.

(** An absolute URL of the web: it begins with its scheme. *)
Definition absolute (u : string) : bool :=
  Str.startswith "http://" u || Str.startswith "https://" u.

(** *** The order of the catalog *)

(** [x] may stand before [y] in a list sorted into descending order of
    the keys. *)
Definition before {A K} (key : A -> K) (lt : K -> K -> bool) (x y : A) : Prop :=
  lt (key x) (key y) = false.

(** Descending price; among equal prices, descending title. *)
Definition price_then_title (x y : listing) : Prop :=
  price y < price x \/
  (price x = price y /\ Str.compare (title x) (title y) <> Lt).

(** The same on the records of [fetch_stock1.py], with the titles in
    descending or in ascending order. *)
Definition price1 (x : FetchStock1.item) : Z := FetchStock1.sort_key x.

Definition price_then_title_desc (x y : FetchStock1.item) : Prop :=
  price1 y < price1 x \/
  (price1 x = price1 y /\
   Str.compare (FetchStock1.title x) (FetchStock1.title y) <> Lt).

Definition price_then_title_asc (x y : FetchStock1.item) : Prop :=
  price1 y < price1 x \/
  (price1 x = price1 y /\
   Str.compare (FetchStock1.title x) (FetchStock1.title y) <> Gt).

(** Descending price alone. *)
Definition price_desc (x y : FetchStock1.item) : Prop := price1 y <= price1 x.

(** What a record of [fetch_stock1.py] is sure to have. *)
Definition named (it : FetchStock1.item) : Prop :=
  Str.truthy (FetchStock1.url it) = true /\
  Str.truthy (FetchStock1.title it) = true.

End Spec.

(** ** Example pages *)

Module Examples.

Import FetchStock.

Definition base : string :=
  "https://www.huizemark.com/results/residential/for-sale/johannesburg/sandton-central/".

Definition house_url : string := base +:+ "house/123456/".
Definition land_url : string := base +:+ "vacant-land/123457/".
Definition flat_url : string := base +:+ "flat/123458/".
Definition plot_url : string := base +:+ "plot/123459/".
Definition gone_url : string := base +:+ "house/123460/".

(** A page with a link to the agent, a heading and a text. *)
Definition page (agent_href heading text : string) : soup :=
  Soup [agent_href] []
    (fun sel => if String.eqb sel "h1"
                then Some (Element "h1" None heading) else None)
    None text.

Definition agent_href : string := "/agents/blessing-nsibande/75570/".

(** A house with every field. *)
Definition house_page : soup :=
  page agent_href "3 Bedroom House in Sandton Central"
    "Blessing Nsibande 3 Bedroom House in Sandton Central R 2 500 000 Web Ref: AB12345 Erf 654321 Bedrooms: 3".

Definition house : listing :=
  Listing (Ustr.of_string "AB12345") "3 Bedroom House in Sandton Central"
          house_url 2500000 3 (Ustr.of_string "Sandton Central").

(** Vacant land: nothing on the page tells a number of bedrooms. *)
Definition land_page : soup :=
  page agent_href "Vacant Land in Sandton Central"
    "Blessing Nsibande Vacant Land in Sandton Central R 950 000 Web Ref: AB12346".

Definition land : listing :=
  Listing (Ustr.of_string "AB12346") "Vacant Land in Sandton Central"
          land_url 950000 0 (Ustr.of_string "Sandton Central").

(** A flat whose page tells no number of bedrooms. *)
Definition flat_page : soup :=
  page agent_href "Flat in Sandton Central"
    "Blessing Nsibande Flat in Sandton Central R 1 200 000 Web Ref: AB12347".

(** A plot whose only price is zero. *)
Definition plot_page : soup :=
  page agent_href "Plot in Sandton Central"
    "Blessing Nsibande Plot in Sandton Central R 0 Web Ref: AB12348".

(** A plot whose only price is the zero of the price metadata. *)
Definition plot_page_meta : soup :=
  Soup [agent_href] []
    (fun sel => if String.eqb sel "h1"
                then Some (Element "h1" None "Plot in Sandton Central")
                else if String.eqb sel "meta[itemprop='price']"
                then Some (Element "meta" (Some "0") EmptyString)
                else None)
    None
    "Blessing Nsibande Plot in Sandton Central Web Ref: AB12348".

(** A number of 4301 digits. *)
Fixpoint ones (n : nat) : string :=
  match n with
  | O => EmptyString
  | S n' => String "1" (ones n')
  end.

Definition long_number : string := ones 4301.

(** A flat whose page tells no number of bedrooms, and whose price
    metadata is a number of 4301 digits. *)
Definition long_price_page : soup :=
  Soup [agent_href] []
    (fun sel => if String.eqb sel "h1"
                then Some (Element "h1" None "Flat in Sandton Central")
                else if String.eqb sel "meta[itemprop='price']"
                then Some (Element "meta" (Some long_number) EmptyString)
                else None)
    None
    "Blessing Nsibande Flat in Sandton Central Web Ref: AB12347".

(** A text with a number after the word "preference", before the labelled
    reference. *)
Definition preference_text : string :=
  "Buyer preference 654321. Web Ref: AB12345".

(** A profile page with a link whose address is relative and begins with
    the letters "http". *)
Definition docs_href : string :=
  "httpdocs/results/residential/for-sale/johannesburg/sandton-central/house/123456/".

Definition docs_parse (html : string) : soup :=
  if String.eqb html "profile" then
    Soup [docs_href] [] (fun _ => None) None EmptyString
  else Soup [] [] (fun _ => None) None EmptyString.

Definition docs_fetch (n : nat) (u : string) : option string :=
  if String.eqb u PROFILE_URL then Some "profile" else None.

(** A complete page of another agent. *)
Definition foreign_page : soup :=
  page "/agents/someone-else/11111/" "3 Bedroom House in Sandton Central"
    "Someone Else 3 Bedroom House in Sandton Central R 2 500 000 Web Ref: AB12349 Bedrooms: 3".

(** A site: the profile page links to the house, the results page to the
    house, the land, the flat and a page that is gone. *)
Definition site_parse (html : string) : soup :=
  if String.eqb html "profile" then
    Soup ["/results/residential/for-sale/johannesburg/sandton-central/house/123456/"]
         [] (fun _ => None) None EmptyString
  else if String.eqb html "results" then
    Soup [house_url; land_url; flat_url; gone_url; "/contact/"]
         [] (fun _ => None) None EmptyString
  else if String.eqb html "house" then house_page
  else if String.eqb html "land" then land_page
  else if String.eqb html "flat" then flat_page
  else Soup [] [] (fun _ => None) None EmptyString.

Definition site_fetch (n : nat) (u : string) : option string :=
  if String.eqb u PROFILE_URL then Some "profile"
  else if String.eqb u RESULTS_URL then Some "results"
  else if String.eqb u house_url then Some "house"
  else if String.eqb u land_url then Some "land"
  else if String.eqb u flat_url then Some "flat"
  else None.

(** A results page for [fetch_stock1.py]: one card with every field and one
    card with a link and a title only. *)
Definition full_card : FetchStock1.card :=
  FetchStock1.Card
    (Some (FetchStock1.Anchor
             "/results/residential/for-sale/johannesburg/sandton-central/house/123456/"
             (Some "3 Bedroom House") "3 Bedroom House" "3 Bedroom House"))
    "3 Bedroom House R 2 500 000 Web Ref RL12345".

Definition bare_card : FetchStock1.card :=
  FetchStock1.Card
    (Some (FetchStock1.Anchor
             "/results/residential/for-sale/johannesburg/sandton-central/vacant-land/123457/"
             (Some "Vacant Land") "Vacant Land" "Vacant Land"))
    "Vacant Land".

Definition bare_item : FetchStock1.item :=
  FetchStock1.Item None "Vacant Land" land_url None None
    (Some (Ustr.of_string "Sandton Central")).

Definition cards_parse (html : string) : FetchStock1.soup :=
  FetchStock1.Soup [full_card; bare_card] [].

Definition cards_fetch (n : nat) (u : string) : option string :=
  if String.eqb u (FetchStock1.RESULTS_URL None) then Some "results" else None.

(** A results page without cards: one link to a listing, which has neither
    a [title] attribute nor a text, inside an element without text. *)
Definition nameless_anchor : FetchStock1.anchor :=
  FetchStock1.Anchor "/results/residential/for-sale/johannesburg/sandton-central/house/123456/"
    None EmptyString EmptyString.

Definition links_parse (html : string) : FetchStock1.soup :=
  FetchStock1.Soup [] [(nameless_anchor, FetchStock1.Card None EmptyString)].

(** Two records of one price. *)
Definition item_a : FetchStock1.item :=
  FetchStock1.Item None "A" "https://www.huizemark.com/a" (Some 100) None None.
Definition item_b : FetchStock1.item :=
  FetchStock1.Item None "B" "https://www.huizemark.com/b" (Some 100) None None.

(** A results page with a link to the next page, and the last page. *)
Definition quoted (s : string) : string :=
  String dq s +:+ String dq EmptyString.

Definition page_one_html : string :=
  "<a href=" +:+ quoted "/results/residential/for-sale/johannesburg/sandton-central/house/123456/"
  +:+ ">House</a> <a rel=" +:+ quoted "next" +:+ " href="
  +:+ quoted "/results/agent/75570/?page=2" +:+ ">Next</a>".

Definition page_two_html : string :=
  "<a href=" +:+ quoted "/results/residential/for-sale/johannesburg/sandton-central/vacant-land/123457/"
  +:+ ">Land</a>".

Definition paged_parse (html : string) : soup :=
  if String.eqb html page_one_html then
    Soup ["/results/residential/for-sale/johannesburg/sandton-central/house/123456/";
          "/results/agent/75570/?page=2"] [] (fun _ => None) None "House Next"
  else if String.eqb html page_two_html then
    Soup ["/results/residential/for-sale/johannesburg/sandton-central/vacant-land/123457/"]
         [] (fun _ => None) None "Land"
  else if String.eqb html "house" then house_page
  else if String.eqb html "land" then foreign_page
  else Soup [] [] (fun _ => None) None EmptyString.

Definition paged_fetch (n : nat) (u : string) : option string :=
  if String.eqb u RESULTS_URL then Some page_one_html
  else if String.eqb u "https://www.huizemark.com/results/agent/75570/?page=2"
  then Some page_two_html
  else if String.eqb u house_url then Some "house"
  else if String.eqb u land_url then Some "land"
  else None.

End Examples.

(** ** The words of a pattern *)

Module Lang.

Import Re.

(** The words a pattern matches, whatever stands around them: the
    assertions [\b], [^] and [$] match the empty word. *)
Fixpoint den (r : regex) (w : string) : Prop :=
  match r with
  | Eps | WordB | Bos | Eos => w = EmptyString
  | Cls p => exists c, w = String c EmptyString /\ p c = true
  | Seq r1 r2 => exists w1 w2, w = w1 +:+ w2 /\ den r1 w1 /\ den r2 w2
  | Alt r1 r2 => den r1 w \/ den r2 w
  | Rep p lo hi =>
      Str.forallb p w = true /\ (lo <= String.length w)%nat /\
      forall h, hi = Some h -> (String.length w <= h)%nat
  | Grp _ r' => den r' w
  end.

(** The groups of a pattern, each with the pattern it encloses. *)
Fixpoint groups (r : regex) : list (nat * regex) :=
  match r with
  | Seq r1 r2 | Alt r1 r2 => groups r1 ++ groups r2
  | Grp n r' => (n, r') :: groups r'
  | _ => []
  end.

(** Group [n] takes part in every match of the pattern. *)
Fixpoint binds (n : nat) (r : regex) : bool :=
  match r with
  | Seq r1 r2 => binds n r1 || binds n r2
  | Alt r1 r2 => binds n r1 && binds n r2
  | Grp m r' => Nat.eqb m n || binds n r'
  | _ => false
  end.

(** Every captured text is a word of a group of that number. *)
Definition caps_of (G : list (nat * regex)) (caps : list (nat * string)) : Prop :=
  Forall (fun nv => exists g, (nv.1, g) ∈ G /\ den g nv.2) caps.

(** The least length of a word of the pattern. *)
Fixpoint min_len (r : regex) : nat :=
  match r with
  | Cls _ => 1
  | Seq r1 r2 => min_len r1 + min_len r2
  | Alt r1 r2 => Nat.min (min_len r1) (min_len r2)
  | Rep _ lo _ => lo
  | Grp _ r' => min_len r'
  | _ => 0
  end.

(** The characters 0..255. *)
Definition all_chars : list ascii := ascii_of_nat <$> List.seq 0%nat 256%nat.

(** Every character of the class [p] is of the class [q]. *)
Definition sub_class (p q : ascii -> bool) : bool :=
  forallb (fun c => implb (p c) (q c)) all_chars.

(** Every character the pattern reads is of the class [q]. *)
Fixpoint within (q : ascii -> bool) (r : regex) : bool :=
  match r with
  | Cls p | Rep p _ _ => sub_class p q
  | Seq r1 r2 | Alt r1 r2 => within q r1 && within q r2
  | Grp _ r' => within q r'
  | _ => true
  end.

(** Group [n] of the pattern is always there, of characters of [q], and
    of at least [l] characters. *)
Definition group_is (n : nat) (q : ascii -> bool) (l : nat) (r : regex) : bool :=
  binds n r &&
  forallb (fun ng : nat * regex =>
             negb (Nat.eqb ng.1 n) || (within q ng.2 && (l <=? min_len ng.2)%nat))
          (groups r).

(** A text of at least [l] characters, all of the class [q]. *)
Definition shaped (q : ascii -> bool) (l : nat) (v : string) : Prop :=
  Str.forallb q v = true /\ (l <= String.length v)%nat.

(** The letters and digits of ASCII. *)
Definition alnum (c : ascii) : bool := Chr.is_alpha c || Chr.is_digit c.

(** A piece of a split by runs of [p]: not empty, and without [p]. *)
Definition piece_ok (p : ascii -> bool) (v : string) : Prop :=
  Str.truthy v = true /\ Str.forallb (not_in p) v = true.

(** The first maximal run of characters of [p] in a text. *)
Definition first_run (p : ascii -> bool) (s : string) : string :=
  let t := Str.lstrip (not_in p) s in Str.take (Spec.span p t) t.

(** The words of a text, as [str.split()] gives them: the maximal runs of
    characters that are not of [p]; [cur] is the word being read,
    reversed. *)
Definition flush (cur : string) : list string :=
  if Str.truthy cur then [String.rev cur] else [].

Fixpoint words_go (p : ascii -> bool) (cur : string) (s : string)
    : list string :=
  match s with
  | EmptyString => flush cur
  | String c s' =>
      if p c then flush cur ++ words_go p EmptyString s'
      else words_go p (String c cur) s'
  end.

Definition words (p : ascii -> bool) (s : string) : list string :=
  words_go p EmptyString s.

End Lang.

(** ** Runs *)

Module Notions.

Import FetchStock.

(** The address a record of the skip log is about. *)
Definition log_url (log : gmap string string) : option string := log !! "url".

(** A float on which [int] does not raise. *)
Definition finite (f : spec_float) : bool :=
  match f with
  | S754_zero _ | S754_finite _ _ _ => true
  | _ => false
  end.

(** No JSON-LD node of the page gives a non-finite number of bedrooms or
    of rooms. *)
Definition finite_beds (sp : soup) : Prop :=
  forall node key f,
    node ∈ jsonld_nodes sp -> key ∈ ["numberOfBedrooms"; "numberOfRooms"] ->
    get key node = JFloat f -> finite f = true.

(** The body raises nothing. *)
Definition quiet {E A} (f : flow E A) : Prop :=
  match f with
  | Raised _ => False
  | _ => True
  end.

(** Whatever the body raises satisfies [P]. *)
Definition raising {E A} (P : E -> Prop) (f : flow E A) : Prop :=
  match f with
  | Raised e => P e
  | _ => True
  end.

(** A mapping of a JSON tree: the tree itself, or a mapping of a value of
    it, or of an item of it. *)
Inductive subdict (d : dict) : json -> Prop :=
| sub_here : subdict d (JDict d)
| sub_value kv k v : (k, v) ∈ kv -> subdict d v -> subdict d (JDict kv)
| sub_item l v : v ∈ l -> subdict d v -> subdict d (JList l).

(** What [fetch_stock1.py] is sure of in the optional fields of a record:
    a price and a number of bedrooms are not negative, a reference has at
    least four characters. *)
Definition sound_fields (it : FetchStock1.item) : Prop :=
  Spec.nonneg (FetchStock1.price it) /\ Spec.nonneg (FetchStock1.beds it) /\
  forall r, FetchStock1.ref it = Some r -> (4 <= length r)%nat.

(** The links of a page to residential listings: the [href] values that
    contain the path of the listings. *)
Definition residential (hrefs : list string) : list string :=
  filter (fun h => Str.contains "/results/residential/" h = true) hrefs.

(** The addresses the profile harvest reads from the JSON-LD nodes: the
    [url], or else the [@id], of a node, when it is a text that contains
    the path of the listings. *)
Definition jsonld_links (sp : soup) : list string :=
  omap (fun node =>
    match or_ (get "url" node) (get "@id" node) with
    | JStr url =>
        if Str.contains "/results/residential/" url
        then Some (make_abs url) else None
    | _ => None
    end) (jsonld_nodes sp).

(** A text without hyphen. *)
Definition no_hyphen (u : ustring) : bool :=
  forallb (fun n => negb (n =? 45)%N) u.

(** Every text of the page has at most [MAX_STR_DIGITS] characters, so
    that no number written in it is beyond the limit of [int]. *)
Definition short_texts (sp : soup) : Prop :=
  forall src,
    Spec.page_source sp src -> (String.length src <= Str.MAX_STR_DIGITS)%nat.

End Notions.

(** ** More example pages *)

Module Cases.

Import FetchStock Examples.

(** A page of the agent whose JSON-LD gives [NaN] for the number of
    bedrooms; [json.loads] reads the constant [NaN]. *)
Definition nan_page : soup :=
  Soup [agent_href]
    [Some (JDict [("@type", JStr "House");
                  ("numberOfBedrooms", JFloat S754_nan)])]
    (fun sel => if String.eqb sel "h1"
                then Some (Element "h1" None "House in Sandton Central")
                else None)
    None
    "Blessing Nsibande House in Sandton Central R 2 500 000 Web Ref: AB12350".

(** A transport on which every request fails. *)
Definition no_network (n : nat) (u : string) : option string := None.

End Cases.

(** * Facts *)

Import Spec Examples Re FetchStock.

Lemma span_le p s : (span p s <= String.length s)%nat.
Proof. induction s as [|c s IH]; simpl; [lia|]. destruct (p c); simpl; lia. Qed.

(** A greedy repetition without upper bound, followed by nothing, takes the
    whole run. *)
Lemma rep_greedy p lo caps prev pos s :
  (lo <= span p s)%nat ->
  exists prev',
    rep p lo None caps prev pos s Some
    = Some (MState prev' (pos + span p s) (Str.lstrip p s) caps).
Proof.
  revert lo prev pos. induction s as [|c s IH]; intros lo prev pos Hlo; simpl in *.
  - assert (lo = O) as -> by lia. rewrite Nat.add_0_r. eauto.
  - destruct (p c) eqn:Hp; simpl.
    + destruct (IH (Nat.pred lo) (Some c) (S pos)) as [q Hq]; [lia|].
      rewrite Hq. rewrite <- Nat.add_succ_comm. eauto.
    + assert (lo = O) as -> by lia. rewrite Nat.add_0_r. eauto.
Qed.

Lemma rep_short p lo hi caps prev pos s k :
  (span p s < lo)%nat -> rep p lo hi caps prev pos s k = None.
Proof.
  revert lo hi prev pos.
  induction s as [|c s IH]; intros lo hi prev pos Hlo; simpl in *.
  - destruct lo; [lia|done].
  - destruct (p c) eqn:Hp; simpl.
    + destruct lo as [|lo]; [lia|]. destruct (more hi); [|done].
      rewrite IH; [done | simpl; lia].
    + destruct lo; [lia|done].
Qed.

Lemma match_at_plus p prev s :
  match_at (plus p) prev s =
  match span p s with
  | O => None
  | S n => Some (RMatch (Str.take (S n) s) [] (S n))
  end.
Proof.
  unfold match_at, plus. simpl.
  destruct (span p s) as [|n] eqn:Hn.
  - rewrite rep_short; [done | lia].
  - destruct (rep_greedy p 1 [] prev 0 s) as [q Hq]; [lia|].
    rewrite Hq, Hn. done.
Qed.

Lemma sub_go_plus p repl prev s :
  sub_go (plus p) repl O prev s = collapse p repl false s /\
  sub_go (plus p) repl (span p s) prev s = collapse p repl true s.
Proof.
  revert prev. induction s as [|c s IH]; intros prev; [done|].
  assert (Hz : sub_go (plus p) repl 0 prev (String c s)
               = collapse p repl false (String c s)).
  { cbn [sub_go collapse]. rewrite match_at_plus. cbn [span].
    destruct (p c) eqn:Hp.
    - by rewrite (proj2 (IH (Some c))).
    - by rewrite (proj1 (IH (Some c))). }
  split; [exact Hz|].
  cbn [span]. destruct (p c) eqn:Hp.
  - cbn [sub_go collapse]. rewrite Hp. apply IH.
  - rewrite Hz. cbn [collapse]. by rewrite Hp.
Qed.

Lemma sub_plus p repl s : sub (plus p) repl s = collapse p repl false s.
Proof. apply sub_go_plus. Qed.

Section Strip.
Variable p : ascii -> bool.

Lemma lstrip_starts t : starts_with p (Str.lstrip p t) = false.
Proof.
  induction t as [|c t IH]; simpl; [done|].
  destruct (p c) eqn:Hp; [exact IH | simpl; exact Hp].
Qed.

Lemma lstrip_id t : starts_with p t = false -> Str.lstrip p t = t.
Proof. destruct t as [|c t]; simpl; [done|]. by intros ->. Qed.

Lemma rstrip_ends t : ends_with p (Str.rstrip p t) = false.
Proof.
  induction t as [|c t IH]; simpl; [done|].
  destruct (Str.rstrip p t) as [|d r] eqn:Hr.
  - destruct (p c) eqn:Hp; simpl; [done | exact Hp].
  - exact IH.
Qed.

Lemma rstrip_id t : ends_with p t = false -> Str.rstrip p t = t.
Proof.
  induction t as [|c t IH]; simpl; [done|].
  destruct t as [|d t].
  - simpl. by intros ->.
  - intros H. by rewrite (IH H).
Qed.

Lemma rstrip_starts t :
  starts_with p t = false -> starts_with p (Str.rstrip p t) = false.
Proof.
  destruct t as [|c t]; simpl; [done|]. intros Hc.
  destruct (Str.rstrip p t); simpl; [by rewrite Hc | done].
Qed.

Lemma strip_id t :
  starts_with p t = false -> ends_with p t = false -> Str.strip p t = t.
Proof.
  intros H1 H2. unfold Str.strip. rewrite (lstrip_id _ H1). by apply rstrip_id.
Qed.

Variable q : ascii -> bool.

Lemma lstrip_forallb t :
  Str.forallb q t = true -> Str.forallb q (Str.lstrip p t) = true.
Proof.
  induction t as [|c t IH]; simpl; [done|].
  intros [Hc Ht]%andb_prop. destruct (p c); [by apply IH|].
  simpl. by rewrite Hc, Ht.
Qed.

Lemma rstrip_forallb t :
  Str.forallb q t = true -> Str.forallb q (Str.rstrip p t) = true.
Proof.
  induction t as [|c t IH]; simpl; [done|].
  intros [Hc Ht]%andb_prop. specialize (IH Ht).
  destruct (Str.rstrip p t) as [|d r].
  - destruct (p c); simpl; [done | by rewrite Hc].
  - change (q c && Str.forallb q (String d r) = true). by rewrite Hc, IH.
Qed.

Lemma lstrip_adjacent t :
  adjacent q t = false -> adjacent q (Str.lstrip p t) = false.
Proof.
  induction t as [|c t IH]; simpl; [done|].
  intros [H1 H2]%orb_false_elim. destruct (p c); [by apply IH|].
  simpl. by rewrite H1, H2.
Qed.

Lemma rstrip_starts_with t :
  starts_with q t = false -> starts_with q (Str.rstrip p t) = false.
Proof.
  destruct t as [|c t]; simpl; [done|]. intros Hc.
  destruct (Str.rstrip p t); [destruct (p c)|]; simpl; by rewrite ?Hc.
Qed.

Lemma rstrip_adjacent t :
  adjacent q t = false -> adjacent q (Str.rstrip p t) = false.
Proof.
  induction t as [|c t IH]; simpl; [done|].
  intros [H1 H2]%orb_false_elim. specialize (IH H2).
  assert (Hs : q c && starts_with q (Str.rstrip p t) = false).
  { destruct (q c); [|done]. simpl in *. by apply rstrip_starts_with. }
  destruct (Str.rstrip p t) as [|d r] eqn:Hr.
  - destruct (p c); simpl; [done | by rewrite andb_false_r].
  - change ((q c && starts_with q (String d r)) || adjacent q (String d r) = false).
    by rewrite Hs, IH.
Qed.

End Strip.

Section Collapse.
Variable p : ascii -> bool.
Variable sp : ascii.
Hypothesis p_sp : p sp = true.

Let repl := String sp EmptyString.

Lemma collapse_run_starts s : starts_with p (collapse p repl true s) = false.
Proof.
  induction s as [|c s IH]; simpl; [done|].
  destruct (p c) eqn:Hp; [exact IH | simpl; exact Hp].
Qed.

Lemma collapse_adjacent b s : adjacent p (collapse p repl b s) = false.
Proof.
  revert b. induction s as [|c s IH]; intros b; simpl; [done|].
  destruct (p c) eqn:Hp.
  - destruct b; [apply IH|].
    change (adjacent p (String sp (collapse p repl true s)) = false).
    cbn [adjacent]. by rewrite collapse_run_starts, IH, andb_false_r.
  - cbn [adjacent]. rewrite IH, orb_false_r. by rewrite Hp.
Qed.

Lemma collapse_forallb (q : ascii -> bool) b s :
  q sp = true -> (forall c, p c = false -> q c = true) ->
  Str.forallb q (collapse p repl b s) = true.
Proof.
  intros Hsp Hq. revert b. induction s as [|c s IH]; intros b; simpl; [done|].
  destruct (p c) eqn:Hp.
  - destruct b; [apply IH|].
    change (q sp && Str.forallb q (collapse p repl true s) = true).
    by rewrite Hsp, IH.
  - change (q c && Str.forallb q (collapse p repl false s) = true).
    by rewrite (Hq _ Hp), IH.
Qed.

Lemma collapse_skip s :
  starts_with p s = false -> collapse p repl true s = collapse p repl false s.
Proof. destruct s as [|c s]; simpl; [done|]. by intros ->. Qed.

Lemma collapse_id s :
  Str.forallb (fun c => negb (p c) || Ascii.eqb c sp) s = true ->
  adjacent p s = false ->
  collapse p repl false s = s.
Proof.
  induction s as [|c s IH]; simpl; [done|].
  intros [Hc Hs]%andb_prop [H1 H2]%orb_false_elim.
  destruct (p c) eqn:Hp; simpl in *.
  - apply Ascii.eqb_eq in Hc as ->.
    rewrite collapse_skip by done. by rewrite IH.
  - by rewrite IH.
Qed.

End Collapse.

Lemma norm_space_collapse s :
  norm_space s = Str.strip Chr.is_space (collapse Chr.is_space " " false s).
Proof. unfold norm_space. by rewrite sub_plus. Qed.

Lemma norm_space_shape s :
  starts_with Chr.is_space (norm_space s) = false /\
  ends_with Chr.is_space (norm_space s) = false /\
  adjacent Chr.is_space (norm_space s) = false /\
  only_spaces (norm_space s) = true.
Proof.
  rewrite norm_space_collapse. unfold Str.strip. repeat split.
  - apply rstrip_starts, lstrip_starts.
  - apply rstrip_ends.
  - apply rstrip_adjacent, lstrip_adjacent. by apply collapse_adjacent.
  - apply rstrip_forallb, lstrip_forallb.
    apply (collapse_forallb Chr.is_space " "); [done|].
    by intros c ->.
Qed.

Lemma norm_space_fixed t :
  starts_with Chr.is_space t = false -> ends_with Chr.is_space t = false ->
  adjacent Chr.is_space t = false -> only_spaces t = true ->
  norm_space t = t.
Proof.
  intros H1 H2 H3 H4. rewrite norm_space_collapse.
  rewrite (collapse_id Chr.is_space " ") by done.
  by apply strip_id.
Qed.

Lemma norm_space_idem s : norm_space (norm_space s) = norm_space s.
Proof.
  destruct (norm_space_shape s) as (H1 & H2 & H3 & H4).
  by apply norm_space_fixed.
Qed.
(** Facts on strings *)

Lemma startswith_app p s : Str.startswith p (p +:+ s) = true.
Proof.
  induction p as [|c p IH]; simpl; [by destruct s|].
  by rewrite Ascii.eqb_refl, IH.
Qed.

Lemma contains_here p s : Str.startswith p s = true -> Str.contains p s = true.
Proof. destruct s; simpl; by intros ->. Qed.

Lemma contains_cons p c s :
  Str.contains p s = true -> Str.contains p (String c s) = true.
Proof. intros H. cbn [Str.contains]. rewrite H. apply orb_true_r. Qed.

Lemma contains_app_r p pre s :
  Str.contains p s = true -> Str.contains p (pre +:+ s) = true.
Proof.
  intros H. induction pre as [|c pre IH]; simpl; [done|].
  fold (Str.contains p (pre +:+ s)). rewrite IH. apply orb_true_r.
Qed.

Lemma truthy_startswith p s :
  Str.truthy p = true -> Str.startswith p s = true -> Str.truthy s = true.
Proof. destruct p, s; simpl; done. Qed.

(** Matching a literal, one character at a time. *)
Lemma run_lit_cons c p st k :
  run (lit (String c p)) st k =
  match ms_rest st with
  | String x s =>
      if Ascii.eqb c x then run (lit p) (MState (Some x) (S (ms_pos st)) s (ms_caps st)) k
      else None
  | EmptyString => None
  end.
Proof. by destruct p. Qed.

Lemma run_lit_i_cons c p st k :
  run (lit_i (String c p)) st k =
  match ms_rest st with
  | String x s =>
      if Chr.eqb_ci c x then run (lit_i p) (MState (Some x) (S (ms_pos st)) s (ms_caps st)) k
      else None
  | EmptyString => None
  end.
Proof. by destruct p. Qed.

(** A match of a literal begins with the literal. *)
Lemma run_lit p st k r :
  run (lit p) st k = Some r -> Str.startswith p (ms_rest st) = true.
Proof.
  revert st k. induction p as [|c p IH]; intros st k; [done|].
  rewrite run_lit_cons. destruct (ms_rest st) as [|x s]; [done|].
  cbn [Str.startswith]. destruct (Ascii.eqb c x); [|done].
  intros H. by apply IH in H.
Qed.

Lemma search_from_lit p prev s :
  is_Some (search_from (lit p) prev s) -> Str.contains p s = true.
Proof.
  revert prev. induction s as [|c s IH]; intros prev; cbn [search_from].
  - unfold match_at. destruct (run _ _ _) eqn:E; [|by intros [? ?]].
    intros _. apply run_lit in E. by apply contains_here.
  - unfold match_at. destruct (run _ _ _) eqn:E.
    + intros _. apply run_lit in E. by apply contains_here.
    + intros H. apply contains_cons. by eapply IH.
Qed.

(** The loop that keeps the first occurrences *)

Lemma uniq_elem seen l u : u ∈ uniq seen l -> u ∈ l ∧ u ∉ seen.
Proof.
  revert seen. induction l as [|x l IH]; intros seen; simpl.
  - by intros ?%elem_of_nil.
  - destruct (decide (x ∈ seen)).
    + intros Hu. destruct (IH _ Hu) as [? ?]. split; [by right | done].
    + intros Hu. apply elem_of_cons in Hu as [->|Hu]; [split; [by left | done]|].
      destruct (IH _ Hu) as [? Hn]. split; [by right|].
      intros Hs. apply Hn, elem_of_union. by right.
Qed.

Lemma uniq_NoDup seen l : NoDup (uniq seen l).
Proof.
  revert seen. induction l as [|x l IH]; intros seen; simpl; [constructor|].
  destruct (decide (x ∈ seen)); [apply IH|].
  constructor; [|apply IH].
  intros [_ Hx]%uniq_elem. apply Hx, elem_of_union. left. by apply elem_of_singleton.
Qed.

(** A list without repetition, none of whose elements has been seen, is
    left as it is. *)
Lemma uniq_id seen l :
  NoDup l -> (forall u, u ∈ l -> u ∉ seen) -> uniq seen l = l.
Proof.
  revert seen. induction l as [|x l IH]; intros seen Hnd Hs; simpl; [done|].
  apply NoDup_cons in Hnd as [Hx Hnd].
  destruct (decide (x ∈ seen)) as [Hin|_].
  - exfalso. by apply (Hs x); [left|].
  - f_equal. apply IH; [done|].
    intros u Hu Hin. apply elem_of_union in Hin as [Hin|Hin].
    + apply elem_of_singleton in Hin as ->. done.
    + by apply (Hs u); [right|].
Qed.

(** The candidate URLs *)

Lemma make_abs_http u : Str.startswith "http" (make_abs u) = true.
Proof.
  unfold make_abs. destruct (Str.startswith "http" u) eqn:E; [done|].
  by destruct (Str.startswith "/" u).
Qed.

Lemma make_abs_contains p u :
  Str.contains p u = true -> Str.contains p (make_abs u) = true.
Proof.
  intros H. unfold make_abs.
  destruct (Str.startswith "http" u); [done|].
  destruct (Str.startswith "/" u); by apply contains_app_r.
Qed.

Lemma residential_anchor_contains sp href :
  href ∈ residential_anchors sp ->
  Str.contains "/results/residential/" href = true.
Proof.
  unfold residential_anchors. intros [H _]%list_elem_of_filter.
  by apply search_from_lit in H.
Qed.

Section Crawl.
Variable parse : string -> soup.
Variable fetch : nat -> string -> option string.

Lemma results_page_urls html :
  Forall detail_url (parse_results_for_detail_urls parse html).
Proof.
  apply Forall_forall. intros u [Hu _]%uniq_elem.
  apply list_elem_of_omap in Hu as (href & Hin & Hu).
  destruct (negb (Str.truthy href)); [done|]. cbv zeta in Hu.
  destruct (Str.contains _ (make_abs href)) eqn:E; [|done].
  injection Hu as <-. split; [apply make_abs_http | done].
Qed.

Lemma profile_page_urls html :
  Forall detail_url (parse_profile_for_detail_urls parse html).
Proof.
  apply Forall_forall. intros u [Hu _]%uniq_elem.
  apply elem_of_app in Hu as [Hu|Hu];
    apply list_elem_of_omap in Hu as (x & Hin & Hu).
  - destruct (negb (Str.truthy x)); [done|]. injection Hu as <-.
    split; [apply make_abs_http|].
    by apply make_abs_contains, (residential_anchor_contains (parse html)).
  - destruct (or_ _ _) as [| | | |url| |]; try done.
    destruct (Str.contains _ url) eqn:E; [|done]. injection Hu as <-.
    split; [apply make_abs_http | by apply make_abs_contains].
Qed.

Lemma extend_new_Forall (P : string -> Prop) collected urls :
  Forall P collected -> Forall P urls -> Forall P (extend_new collected urls).
Proof.
  revert collected. induction urls as [|u urls IH]; intros collected Hc Hu; simpl.
  - done.
  - apply Forall_cons in Hu as [Hu Hus].
    destruct (bool_decide _); apply IH; try done.
    apply Forall_app. split; [done | by constructor].
Qed.

Lemma results_loop_urls left n url collected :
  Forall detail_url collected ->
  Forall detail_url (results_loop parse fetch left n url collected).1.
Proof.
  revert n url collected.
  induction left as [|left IH]; intros n url collected Hc; simpl; [done|].
  destruct url as [u|]; [|done].
  destruct (negb (Str.truthy u)); [done|].
  destruct (fetch n u) as [html|]; [|done].
  destruct (negb (Str.truthy html)); [done|].
  assert (Forall detail_url
            (extend_new collected (parse_results_for_detail_urls parse html)))
    by (apply extend_new_Forall; [done | apply results_page_urls]).
  destruct (find_next_link html) as [nxt|]; [destruct (Str.truthy nxt)|];
    by apply IH.
Qed.

Lemma collect_from_results_urls n :
  Forall detail_url (collect_from_results parse fetch n).1.
Proof. unfold collect_from_results. by apply results_loop_urls. Qed.

Lemma collect_from_profile_urls n :
  Forall detail_url (collect_from_profile parse fetch n).1.
Proof.
  unfold collect_from_profile.
  destruct (fetch n PROFILE_URL) as [html|]; [|done].
  destruct (negb (Str.truthy html)); [done|]. apply profile_page_urls.
Qed.

Lemma candidate_urls_detail :
  Forall detail_url (candidate_urls parse fetch).1.
Proof.
  unfold candidate_urls.
  pose proof (collect_from_profile_urls 0) as Hp.
  destruct (collect_from_profile parse fetch 0) as [urls_profile n1].
  pose proof (collect_from_results_urls n1) as Hr.
  destruct (collect_from_results parse fetch n1) as [urls_results n2].
  simpl in *.
  apply Forall_forall. intros u [Hu _]%uniq_elem.
  apply elem_of_app in Hu as [Hu|Hu];
    [eapply (proj1 (Forall_forall _ _) Hp) | eapply (proj1 (Forall_forall _ _) Hr)];
    done.
Qed.

End Crawl.
(** Facts on the matcher *)

Lemma take_app_length w s : Str.take (String.length w) (w +:+ s) = w.
Proof. induction w as [|c w IH]; simpl; [by destruct s | by rewrite IH]. Qed.

Lemma str_length_app w s :
  String.length (w +:+ s) = (String.length w + String.length s)%nat.
Proof. induction w as [|c w IH]; simpl; [done | by rewrite IH]. Qed.

(** A repetition hands to its continuation the text left after some
    characters of the class. *)
Lemma rep_sound p lo hi caps prev pos s k res :
  rep p lo hi caps prev pos s k = Some res ->
  exists w s' prev',
    s = w +:+ s' /\ Str.forallb p w = true /\ (lo <= String.length w)%nat /\
    k (MState prev' (pos + String.length w) s' caps) = Some res.
Proof.
  revert lo hi prev pos. induction s as [|c s IH]; intros lo hi prev pos; simpl.
  - destruct lo; [|done]. intros H. exists EmptyString, EmptyString, prev.
    simpl. by rewrite Nat.add_0_r.
  - assert (Hstop : match lo with
                    | O => k (MState prev pos (String c s) caps)
                    | S _ => None
                    end = Some res ->
            exists w s' prev',
              String c s = w +:+ s' /\ Str.forallb p w = true /\
              (lo <= String.length w)%nat /\
              k (MState prev' (pos + String.length w) s' caps) = Some res).
    { destruct lo; [|done]. intros H.
      exists EmptyString, (String c s), prev. simpl. by rewrite Nat.add_0_r. }
    destruct (p c && more hi) eqn:E; [|exact Hstop].
    destruct (rep p (Nat.pred lo) (Nat.pred <$> hi) caps (Some c) (S pos) s k)
      eqn:R; [|exact Hstop].
    intros [= ->]. apply IH in R as (w & s' & prev' & -> & Hw & Hlo & Hk).
    apply andb_prop in E as [Hc _].
    exists (String c w), s', prev'. simpl. rewrite Hc, Hw.
    rewrite <- Nat.add_succ_comm.
    split_and!; [done | done | lia | done].
Qed.

Lemma forallb_impl (p q : ascii -> bool) w :
  (forall c, p c = true -> q c = true) ->
  Str.forallb p w = true -> Str.forallb q w = true.
Proof.
  intros H. induction w as [|c w IH]; simpl; [done|].
  intros [Hc Hw]%andb_prop. by rewrite (H _ Hc), IH.
Qed.

Lemma run_captures n p r :
  captures_class n p r ->
  forall st k res,
    run r st k = Some res -> cap_in n p st ->
    exists st', cap_in n p st' /\ k st' = Some res.
Proof.
  induction r as [|q|r1 IH1 r2 IH2|r1 IH1 r2 IH2|q lo hi|m r IH| | |];
    intros Hc st k res; cbn [run].
  - intros H Hst. by exists st.
  - destruct (ms_rest st) as [|c s]; [done|]. destruct (q c); [|done].
    intros H Hst. eexists. split; [|exact H]. done.
  - destruct Hc as [H1 H2]. intros H Hst.
    destruct (IH1 H1 _ _ _ H Hst) as (st1 & Hst1 & Hk).
    exact (IH2 H2 _ _ _ Hk Hst1).
  - destruct Hc as [H1 H2].
    destruct (run r1 st k) eqn:E; [intros [= ->]; by eapply IH1|].
    by apply IH2.
  - intros H Hst. apply rep_sound in H as (w & s' & prev' & _ & _ & _ & Hk).
    eexists. split; [|exact Hk]. done.
  - cbn [captures_class] in Hc. destruct (Nat.eqb m n) eqn:E.
    + destruct r as [|q|r1 r2|r1 r2|q lo hi|m' r'| | |]; try done.
      cbn [run]. intros H Hst.
      apply rep_sound in H as (w & s' & prev' & Hs & Hw & _ & Hk).
      eexists. split; [|exact Hk].
      unfold cap_in, consumed. cbn [ms_caps ms_rest ms_pos cap].
      rewrite E, Hs.
      replace (ms_pos st + String.length w - ms_pos st)%nat
        with (String.length w) by lia.
      rewrite take_app_length. by eapply forallb_impl.
    + intros H Hst. destruct (IH Hc _ _ _ H Hst) as (st' & Hst' & Hk).
      eexists. split; [|exact Hk].
      unfold cap_in in *. cbn [ms_caps cap]. by rewrite E.
  - destruct (at_boundary st); [|done]. intros H Hst. by exists st.
  - destruct (ms_prev st); [done|]. intros H Hst. by exists st.
  - destruct (at_end (ms_rest st)); [|done]. intros H Hst. by exists st.
Qed.

Lemma search_from_captures n p r prev s m :
  captures_class n p r ->
  search_from r prev s = Some m -> Str.forallb p (cap n (m_caps m)) = true.
Proof.
  intros Hc. revert prev. induction s as [|c s IH]; intros prev;
    cbn [search_from]; unfold match_at.
  - destruct (run _ _ _) eqn:E; [|done]. intros [= <-].
    apply (run_captures n p r Hc) in E as (st' & Hst' & [= <-]); done.
  - destruct (run _ _ _) eqn:E; [|apply IH]. intros [= <-].
    apply (run_captures n p r Hc) in E as (st' & Hst' & [= <-]); done.
Qed.

(** The whole match of [p+] is made of characters of [p]. *)
Lemma take_span_forallb p s : Str.forallb p (Str.take (span p s) s) = true.
Proof.
  induction s as [|c s IH]; simpl; [done|].
  destruct (p c) eqn:E; simpl; [by rewrite E, IH | done].
Qed.

Lemma search_from_plus_whole p prev s m :
  search_from (plus p) prev s = Some m -> Str.forallb p (m_whole m) = true.
Proof.
  revert prev. induction s as [|c s IH]; intros prev; cbn [search_from];
    rewrite match_at_plus.
  - done.
  - pose proof (take_span_forallb p (String c s)) as Hf.
    destruct (span p (String c s)) as [|n]; [apply IH|].
    intros [= <-]. exact Hf.
Qed.

(** Numbers read from digits *)

Lemma int_acc_nonneg acc s :
  0 <= acc -> Str.forallb Chr.is_digit s = true -> 0 <= Str.int_acc acc s.
Proof.
  revert acc. induction s as [|c s IH]; intros acc Hacc; simpl; [done|].
  intros [Hc Hs]%andb_prop. apply IH; [|done].
  unfold Chr.is_digit, Chr.in_range in Hc.
  apply andb_prop in Hc as [H1 H2].
  apply N.leb_le in H1, H2. lia.
Qed.

Lemma int_nonneg s z :
  Str.forallb Chr.is_digit s = true -> Str.int s = Ok z -> 0 <= z.
Proof.
  intros H. unfold Str.int. destruct (_ || _); [done|].
  intros [= <-]. by apply int_acc_nonneg.
Qed.

(** Within the limit, [int] reads the digits; beyond it, it raises. *)
Lemma int_short s :
  Str.truthy s = true -> (String.length s <= Str.MAX_STR_DIGITS)%nat ->
  Str.int s = Ok (Str.int_acc 0 s).
Proof.
  intros Ht Hl. unfold Str.int. rewrite Ht. cbn [negb orb].
  by destruct (Nat.ltb_spec Str.MAX_STR_DIGITS (String.length s)); [lia|].
Qed.

Lemma int_long s :
  (Str.MAX_STR_DIGITS < String.length s)%nat -> Str.int s = Exc "ValueError".
Proof.
  intros Hl. unfold Str.int.
  destruct (Nat.ltb_spec Str.MAX_STR_DIGITS (String.length s)); [|lia].
  by rewrite orb_true_r.
Qed.

Lemma int_raises s e : Str.int s = Exc e -> e = "ValueError".
Proof. unfold Str.int. destruct (_ || _); [|done]. by intros [= <-]. Qed.

Lemma bind_ok {A B} (r : result A) (k : A -> result B) b :
  r ≫= k = Ok b -> exists a, r = Ok a /\ k a = Ok b.
Proof. destruct r as [a|e]; [|done]. intros H. by exists a. Qed.

Lemma fmap_Some_ok {A} (r : result A) o :
  Some <$> r = Ok o -> exists a, r = Ok a /\ o = Some a.
Proof. destruct r as [a|e]; [|done]. intros [= <-]. eauto. Qed.

(** Deleting what is not of a class keeps what is. *)
Lemma sub_go_cls p prev s :
  sub_go (Cls (not_in p)) EmptyString O prev s = Str.filter p s.
Proof.
  revert prev. induction s as [|c s IH]; intros prev; [done|].
  cbn [sub_go Str.filter]. unfold match_at. cbn [run ms_rest ms_caps].
  unfold not_in at 1. destruct (p c); cbn [negb].
  - by rewrite IH.
  - apply IH.
Qed.

Lemma filter_forallb p s : Str.forallb p (Str.filter p s) = true.
Proof.
  induction s as [|c s IH]; simpl; [done|].
  destruct (p c) eqn:E; simpl; [by rewrite E, IH | done].
Qed.

Lemma to_int_money_nonneg txt z : to_int_money txt = Ok (Some z) -> 0 <= z.
Proof.
  unfold to_int_money. destruct txt as [t|]; [|done].
  destruct (negb (Str.truthy t)); [done|].
  unfold sub. rewrite sub_go_cls.
  destruct (Str.truthy _); [|done].
  intros (a & Ha & [= <-])%fmap_Some_ok.
  eapply int_nonneg; [apply filter_forallb | done].
Qed.

Lemma to_int_nonneg txt z : to_int txt = Ok (Some z) -> 0 <= z.
Proof.
  unfold to_int. destruct txt as [t|]; [|done].
  destruct (negb (Str.truthy t)); [done|].
  destruct (search _ t) as [m|] eqn:E; [|done].
  intros (a & Ha & [= <-])%fmap_Some_ok.
  eapply int_nonneg; [|done]. by apply search_from_plus_whole in E.
Qed.

(** What a body may return *)

Lemma returns_then {E A} (P : A -> Prop) (a b : flow E A) :
  returns P a -> returns P b -> returns P (a ;; b).
Proof. by destruct a. Qed.

Lemma returns_for_each {E A B} (P : B -> Prop) (xs : list A)
    (body : A -> flow E B) :
  (forall x, returns P (body x)) -> returns P (for_each xs body).
Proof.
  intros H. induction xs as [|x xs IH]; simpl; [done|].
  by apply returns_then.
Qed.

Lemma returns_when {E A} (P : A -> Prop) c (b : flow E A) :
  returns P b -> returns P (when c b).
Proof. by destruct c. Qed.

Lemma returns_call {A B} (P : B -> Prop) (r : result A)
    (k : A -> flow string B) :
  (forall a, r = Ok a -> returns P (k a)) -> returns P (call r k).
Proof. destruct r as [a|e]; simpl; [|done]. intros H. by apply H. Qed.

Lemma fn_returns {A} (P : option A -> Prop) (body : flow string (option A)) o :
  returns P body -> P None -> fn body = Ok o -> P o.
Proof. destruct body as [x| |e]; simpl; [| |done]; by intros ? ? [= <-]. Qed.

Lemma extract_price_nonneg sp text p :
  extract_price sp text = Ok (Some p) -> 0 <= p.
Proof.
  unfold extract_price. intros H.
  eapply (fn_returns nonneg) in H; [by apply H| |done].
  apply returns_then; [|apply returns_then; [|apply returns_then]].
  - destruct (select_one sp _) as [n|]; [|done].
    destruct (content_of n) as [c|]; [|done].
    apply returns_call. intros o Ho.
    apply returns_when. intros z ->. by apply to_int_money_nonneg in Ho.
  - apply returns_for_each. intros sel.
    destruct (select_one sp sel) as [n|]; [|done].
    apply returns_call. intros o Ho.
    apply returns_when. intros z ->. by apply to_int_money_nonneg in Ho.
  - destruct (search MONEY_RE text) as [m|]; [|done].
    apply returns_call. intros o Ho z ->. by apply to_int_money_nonneg in Ho.
  - done.
Qed.

Lemma beds_label_captures : captures_class 2 Chr.is_digit BEDS_LABEL_RE.
Proof. cbv. tauto. Qed.

Lemma beds_word_captures : captures_class 1 Chr.is_digit BEDS_WORD_RE.
Proof. cbv. tauto. Qed.

Lemma beds_cascade_nonneg sp text : returns nonneg (beds_cascade sp text).
Proof.
  unfold beds_cascade.
  apply returns_then; [|apply returns_then; [|apply returns_then]].
  - unfold beds_jsonld. repeat (apply returns_for_each; intros ?).
    apply returns_then.
    + destruct (int_of_number _) as [[z| |e]|]; try done.
      unfold when. destruct (Z.leb_spec 0 z); [|done].
      intros ? [= <-]. done.
    + destruct (get _ _); try done.
      apply returns_when. apply returns_call. intros o Ho z ->.
      by apply to_int_nonneg in Ho.
  - unfold beds_label.
    destruct (search BEDS_LABEL_RE text) as [m|] eqn:E; [|done].
    apply returns_call. intros a Ha z [= <-].
    eapply int_nonneg; [|done].
    exact (search_from_captures _ _ _ _ _ _ beds_label_captures E).
  - unfold beds_blocks. apply returns_for_each. intros sel.
    destruct (select_one sp sel) as [n|]; [|done].
    apply returns_call. intros [v|] Hv; [|done].
    intros z [= <-]. by apply to_int_nonneg in Hv.
  - unfold beds_word.
    destruct (search BEDS_WORD_RE text) as [m|] eqn:E; [|done].
    apply returns_call. intros a Ha z [= <-].
    eapply int_nonneg; [|done].
    exact (search_from_captures _ _ _ _ _ _ beds_word_captures E).
Qed.

Lemma extract_beds_nonneg sp text ptype b :
  extract_beds sp text ptype = Ok (Some b) -> 0 <= b.
Proof.
  unfold extract_beds. intros H.
  eapply (fn_returns nonneg) in H; [by apply H| |done].
  apply returns_then; [|apply returns_then].
  - apply beds_cascade_nonneg.
  - apply returns_when. intros ? [= <-]. done.
  - done.
Qed.
(** The order of strings *)

Lemma code_inj a b : Chr.code a = Chr.code b -> a = b.
Proof.
  unfold Chr.code. intros H.
  rewrite <- (ascii_N_embedding a), <- (ascii_N_embedding b). by rewrite H.
Qed.

Lemma compare_eq a b : Str.compare a b = Eq -> a = b.
Proof.
  revert b. induction a as [|x a IH]; intros [|y b]; simpl; try done.
  destruct (N.compare_spec (Chr.code x) (Chr.code y)) as [E| |]; try done.
  intros H. apply code_inj in E as ->. by rewrite (IH _ H).
Qed.

Lemma compare_refl a : Str.compare a a = Eq.
Proof. induction a as [|x a IH]; simpl; [done|]. by rewrite N.compare_refl. Qed.

Lemma compare_antisym a b : Str.compare b a = CompOpp (Str.compare a b).
Proof.
  revert b. induction a as [|x a IH]; intros [|y b]; simpl; try done.
  rewrite (N.compare_antisym (Chr.code x) (Chr.code y)).
  destruct (Chr.code x ?= Chr.code y)%N; simpl; [apply IH | done | done].
Qed.

Lemma compare_lt_trans a b c :
  Str.compare a b = Lt -> Str.compare b c = Lt -> Str.compare a c = Lt.
Proof.
  revert b c. induction a as [|x a IH]; intros [|y b] [|z c]; simpl; try done.
  destruct (N.compare_spec (Chr.code x) (Chr.code y)) as [E|L|G]; try done;
  destruct (N.compare_spec (Chr.code y) (Chr.code z)) as [E'|L'|G']; try done;
  intros H1 H2.
  - rewrite E, E', N.compare_refl. by eapply IH.
  - rewrite E. by apply N.compare_lt_iff in L' as ->.
  - rewrite <- E'. by apply N.compare_lt_iff in L as ->.
  - assert (Chr.code x < Chr.code z)%N as ->%N.compare_lt_iff by lia. done.
Qed.

Lemma compare_ge_trans a b c :
  Str.compare a b <> Lt -> Str.compare b c <> Lt -> Str.compare a c <> Lt.
Proof.
  intros H1 H2 H3. destruct (Str.compare a b) eqn:E; [| done |].
  - apply compare_eq in E as ->. done.
  - apply H2. apply (compare_lt_trans b a c); [|done].
    rewrite compare_antisym, E. done.
Qed.

(** The order of the sort keys *)

Lemma key_lt_false a b :
  key_lt a b = false <->
  b.1 < a.1 \/ (a.1 = b.1 /\ Str.compare a.2 b.2 <> Lt).
Proof.
  unfold key_lt. destruct a as [a1 a2], b as [b1 b2]; simpl.
  destruct (Z.ltb_spec a1 b1), (Z.eqb_spec a1 b1); simpl.
  - lia.
  - split; [done | lia].
  - destruct (Str.compare a2 b2); split; try done.
    + intros _. right. done.
    + intros [?|[_ ?]]; [lia | done].
    + intros _. right. done.
  - split; [intros _; left; lia | done].
Qed.

Lemma key_lt_asym a b : key_lt a b = true -> key_lt b a = false.
Proof.
  intros H. apply key_lt_false.
  unfold key_lt in H. destruct a as [a1 a2], b as [b1 b2]; simpl in *.
  destruct (Z.ltb_spec a1 b1), (Z.eqb_spec a1 b1); simpl in *.
  - lia.
  - left. lia.
  - right. split; [done|]. rewrite compare_antisym.
    by destruct (Str.compare a2 b2).
  - done.
Qed.

Lemma key_ge_trans a b c :
  key_lt a b = false -> key_lt b c = false -> key_lt a c = false.
Proof.
  rewrite !key_lt_false. intros [H1|[H1 H1']] [H2|[H2 H2']].
  - left; lia.
  - left; lia.
  - left; lia.
  - right. split; [congruence|]. by eapply compare_ge_trans.
Qed.

(** The stable sort into descending order *)

Section Sort.
Context {A K : Type} (key : A -> K) (lt : K -> K -> bool).

Hypothesis lt_asym : forall a b, lt a b = true -> lt b a = false.
Hypothesis ge_trans :
  forall a b c, lt a b = false -> lt b c = false -> lt a c = false.

Lemma insert_desc_perm x l : insert_desc key lt x l ≡ₚ x :: l.
Proof.
  induction l as [|y l IH]; simpl; [done|].
  destruct (lt (key x) (key y)); [|done].
  rewrite IH. apply Permutation_swap.
Qed.

Lemma sort_desc_perm l : sort_desc key lt l ≡ₚ l.
Proof.
  induction l as [|x l IH]; simpl; [done|].
  by rewrite insert_desc_perm, IH.
Qed.

Lemma insert_desc_sorted x l :
  StronglySorted (before key lt) l -> StronglySorted (before key lt) (insert_desc key lt x l).
Proof.
  induction 1 as [|y l Hs IH Hy]; simpl.
  - repeat constructor.
  - destruct (lt (key x) (key y)) eqn:E.
    + constructor; [done|].
      rewrite insert_desc_perm. constructor; [|done].
      by apply lt_asym.
    + constructor; [by constructor|].
      constructor; [done|].
      eapply Forall_impl; [exact Hy|]. intros z Hz. by eapply ge_trans.
Qed.

Lemma sort_desc_sorted l : StronglySorted (before key lt) (sort_desc key lt l).
Proof.
  induction l as [|x l IH]; simpl; [constructor|].
  by apply insert_desc_sorted.
Qed.

(** A list already in descending order is left as it is. *)
Lemma sort_desc_id l : StronglySorted (before key lt) l -> sort_desc key lt l = l.
Proof.
  induction 1 as [|x l Hs IH Hx]; simpl; [done|].
  rewrite IH. destruct l as [|y l]; simpl; [done|].
  apply Forall_cons in Hx as [Hxy _]. unfold before in Hxy. by rewrite Hxy.
Qed.

Lemma sort_desc_idem l :
  sort_desc key lt (sort_desc key lt l) = sort_desc key lt l.
Proof. apply sort_desc_id, sort_desc_sorted. Qed.

(** Stability: the elements of one key keep their order. *)
Context `{EqDecision K}.

Lemma insert_desc_stable k x l :
  filter (fun y => key y = k) (insert_desc key lt x l) =
  filter (fun y => key y = k) (x :: l).
Proof.
  induction l as [|y l IH]; simpl; [done|].
  destruct (lt (key x) (key y)) eqn:E; [|done].
  assert (key x <> key y) as Hne.
  { intros Heq. rewrite Heq in E. by rewrite (lt_asym _ _ E) in E. }
  rewrite !filter_cons, IH, !filter_cons.
  destruct (decide (key x = k)), (decide (key y = k)); congruence.
Qed.

Lemma sort_desc_stable k l :
  filter (fun y => key y = k) (sort_desc key lt l) =
  filter (fun y => key y = k) l.
Proof.
  induction l as [|x l IH]; simpl; [done|].
  by rewrite insert_desc_stable, !filter_cons, IH.
Qed.

End Sort.

(** De-duplication of the items *)

Lemma dedup_items_elem seen l it :
  it ∈ dedup_items seen l -> it ∈ l /\ url it ∉ seen.
Proof.
  revert seen. induction l as [|x l IH]; intros seen; simpl.
  - by intros ?%elem_of_nil.
  - destruct (decide (url x ∈ seen)).
    + intros Hi. destruct (IH _ Hi) as [? ?]. split; [by right | done].
    + intros Hi. apply elem_of_cons in Hi as [->|Hi]; [split; [by left | done]|].
      destruct (IH _ Hi) as [? Hn]. split; [by right|].
      intros Hs. apply Hn, elem_of_union. by right.
Qed.

Lemma dedup_items_NoDup seen l : NoDup (url <$> dedup_items seen l).
Proof.
  revert seen. induction l as [|x l IH]; intros seen; simpl; [constructor|].
  destruct (decide (url x ∈ seen)); [apply IH|].
  rewrite fmap_cons. constructor; [|apply IH].
  intros (it & Hu & [_ Hx]%dedup_items_elem)%list_elem_of_fmap.
  apply Hx, elem_of_union. left. by apply elem_of_singleton.
Qed.

Lemma dedup_items_id seen l :
  NoDup (url <$> l) -> (forall it, it ∈ l -> url it ∉ seen) ->
  dedup_items seen l = l.
Proof.
  revert seen. induction l as [|x l IH]; intros seen Hnd Hs; simpl; [done|].
  rewrite fmap_cons in Hnd. apply NoDup_cons in Hnd as [Hx Hnd].
  destruct (decide (url x ∈ seen)) as [Hin|_].
  - exfalso. by apply (Hs x); [left|].
  - f_equal. apply IH; [done|].
    intros it Hit Hin. apply elem_of_union in Hin as [Hin|Hin].
    + apply elem_of_singleton in Hin. apply Hx.
      apply list_elem_of_fmap. by exists it.
    + by apply (Hs it); [right|].
Qed.

Lemma finalize_sorted items :
  StronglySorted (before sort_key key_lt) (finalize items).
Proof. apply sort_desc_sorted; [apply key_lt_asym | apply key_ge_trans]. Qed.

Lemma finalize_NoDup items : NoDup (url <$> finalize items).
Proof.
  unfold finalize. rewrite sort_desc_perm. apply dedup_items_NoDup.
Qed.

Lemma finalize_idem items : finalize (finalize items) = finalize items.
Proof.
  unfold finalize at 1.
  rewrite dedup_items_id.
  - apply sort_desc_id, finalize_sorted.
  - apply finalize_NoDup.
  - intros it _. apply not_elem_of_empty.
Qed.
(** The item validator *)

Lemma validator_item sp u log it log' :
  extract_complete_item_from_detail sp u log = Ok (Some it, log') ->
  resolved sp u it /\ log' = log.
Proof.
  unfold extract_complete_item_from_detail, resolved. fold (ptype_of u).
  destruct (verify_agent_ownership sp (page_text sp)); simpl; [|done].
  destruct (parse_location_from_url u) as [a|]; [|done].
  destruct (Ustr.truthy a) eqn:Ha; simpl; [|done].
  destruct (extract_title sp) as [t|]; [|done].
  destruct (Str.truthy t) eqn:Ht; simpl; [|done].
  destruct (extract_price sp (page_text sp)) as [[p|]|]; [|done|done].
  destruct (extract_beds sp (page_text sp) (ptype_of u)) as [[b|]|]; [|done|done].
  destruct (extract_ref sp (page_text sp) u) as [r|]; [|done].
  destruct (Ustr.truthy r) eqn:Hr; simpl; [|done].
  intros [= <- <-]. done.
Qed.

(** A rejection: the item is absent, the reason is written, the other keys
    of the skip log are left. *)
Local Ltac rejected :=
  intros [= <-]; cbn; split_and!;
  [ done
  | first [ by rewrite lookup_insert_eq
          | by rewrite lookup_insert_ne, lookup_insert_eq ]
  | by intros; rewrite !lookup_insert_ne ].

(** The outcome of the validator, when it does not raise, is decided by
    the first failing check. *)
Lemma validator_first_failing sp u log out :
  extract_complete_item_from_detail sp u log = Ok out ->
  match first_failing sp u with
  | None => exists it, out = (Some it, log) /\ resolved sp u it
  | Some c =>
      out.1 = None /\ out.2 !! "reason" = Some (reason_of c) /\
      forall k, k <> "reason" -> k <> "property_type" -> out.2 !! k = log !! k
  end.
Proof.
  unfold extract_complete_item_from_detail, first_failing, checks, resolved.
  fold (ptype_of u). cbn [find passes].
  destruct (verify_agent_ownership sp (page_text sp)); cbn [negb]; [|rejected].
  destruct (parse_location_from_url u) as [a|]; cbn [truthy_ustr negb];
    [|rejected].
  destruct (Ustr.truthy a) eqn:Ha; cbn [negb]; [|rejected].
  destruct (extract_title sp) as [t|]; cbn [truthy_str negb]; [|rejected].
  destruct (Str.truthy t) eqn:Ht; cbn [negb]; [|rejected].
  destruct (extract_price sp (page_text sp)) as [[p|]|]; cbn [negb];
    [|rejected|done].
  destruct (extract_beds sp (page_text sp) (ptype_of u)) as [[b|]|]; cbn [negb];
    [|rejected|done].
  destruct (extract_ref sp (page_text sp) u) as [r|]; cbn [truthy_ustr negb];
    [|rejected].
  destruct (Ustr.truthy r) eqn:Hr; cbn [negb]; [|rejected].
  intros [= <-]. eexists. split; [done|]. cbn. done.
Qed.
(** The detail loop and the run *)

Section Run.
Variable parse : string -> soup.
Variable fetch : nat -> string -> option string.

(** What the loop appends to [items] and to [skipped]. *)
Lemma detail_loop_Forall (P : listing -> Prop) (Q : gmap string string -> Prop)
    merged :
  (forall k u html it log,
     u ∈ merged -> fetch k u = Some html ->
     extract_complete_item_from_detail (parse html) u {["url" := u]}
       = Ok (Some it, log) -> P it) ->
  (forall k u html log,
     u ∈ merged -> fetch k u = Some html -> Str.truthy html = true ->
     extract_complete_item_from_detail (parse html) u {["url" := u]}
       = Ok (None, log) -> Q log) ->
  (forall u, u ∈ merged -> Q (fetch_failed u)) ->
  forall l n items0 sk0 items sk,
    l ⊆ merged -> Forall P items0 -> Forall Q sk0 ->
    detail_loop parse fetch n l items0 sk0 = Ok (items, sk) ->
    Forall P items /\ Forall Q sk.
Proof.
  intros HP HQ HF. induction l as [|u l IH]; intros n items0 sk0 items sk Hl Hi Hs;
    cbn [detail_loop].
  - by intros [= <- <-].
  - assert (u ∈ merged) as Hu by (apply Hl; left).
    assert (l ⊆ merged) as Hl' by (intros x Hx; apply Hl; by right).
    assert (Forall Q (sk0 ++ [fetch_failed u])) as Hfail.
    { apply Forall_app. split; [done|]. constructor; [by apply HF | done]. }
    destruct (fetch n u) as [html|] eqn:Ef; [|by apply IH].
    destruct (Str.truthy html) eqn:Et; cbn [negb]; [|by apply IH].
    destruct (extract_complete_item_from_detail _ _ _) as [[[it|] log]|e] eqn:Ev;
      [| |done].
    + apply IH; [done| |done]. apply Forall_app. split; [done|].
      constructor; [|done]. by eapply HP.
    + apply IH; [done|done|]. apply Forall_app. split; [done|].
      constructor; [|done]. by eapply HQ.
Qed.

(** Every URL gives one record. *)
Lemma detail_loop_length l n items0 sk0 items sk :
  detail_loop parse fetch n l items0 sk0 = Ok (items, sk) ->
  (length items + length sk = length l + length items0 + length sk0)%nat.
Proof.
  revert n items0 sk0. induction l as [|u l IH]; intros n items0 sk0;
    cbn [detail_loop].
  - intros [= <- <-]. simpl. lia.
  - destruct (fetch n u) as [html|].
    2:{ intros H%IH. rewrite length_app in H. simpl in *. lia. }
    destruct (negb (Str.truthy html)).
    { intros H%IH. rewrite length_app in H. simpl in *. lia. }
    destruct (extract_complete_item_from_detail _ _ _) as [[[it|] log]|e];
      [| |done]; intros H%IH; rewrite length_app in H; simpl in *; lia.
Qed.

Lemma resolved_complete sp it :
  Str.startswith "http" (url it) = true -> resolved sp (url it) it -> complete it.
Proof.
  intros Hu (_ & _ & _ & _ & Hp & Hb & _ & Ha & Ht & Hr).
  unfold complete. split_and!; try done.
  - by destruct (url it).
  - by eapply extract_price_nonneg.
  - by eapply extract_beds_nonneg.
Qed.

Lemma finalize_elem items it : it ∈ finalize items -> it ∈ items.
Proof.
  unfold finalize. rewrite sort_desc_perm. by intros [? _]%dedup_items_elem.
Qed.

Lemma main_catalog catalog skipped it :
  main parse fetch = Ok (catalog, skipped) -> it ∈ catalog ->
  complete it /\ from_page parse fetch it.
Proof.
  unfold main.
  pose proof (candidate_urls_detail parse fetch) as Hurls.
  destruct (candidate_urls parse fetch) as [merged n]. simpl in Hurls.
  destruct (detail_loop parse fetch n merged [] []) as [[items sk]|e] eqn:El;
    [|done].
  intros [= <- <-] Hit%finalize_elem.
  eapply (detail_loop_Forall
            (fun it => Str.startswith "http" (url it) = true /\ from_page parse fetch it)
            (fun _ => True) merged) in El as [Hitems _]; try done.
  - apply (proj1 (Forall_forall _ _) Hitems) in Hit as [Hh Hp].
    split; [|done]. destruct Hp as (k & html & _ & Hres).
    by eapply resolved_complete.
  - intros k u html it' log Hu Hf Hv.
    apply validator_item in Hv as [Hres _].
    assert (url it' = u) as Hurl by apply Hres. split.
    + rewrite Hurl. by apply (proj1 (Forall_forall _ _) Hurls).
    + exists k, html. by rewrite Hurl.
Qed.

End Run.

(** The area of a URL *)

Lemma index_None x parts : index x parts = None -> x ∉ parts.
Proof.
  induction parts as [|p parts IH]; simpl; [intros _; apply not_elem_of_nil|].
  destruct (String.eqb_spec p x) as [->|Hne]; [done|].
  destruct (index x parts); [done|]. intros _.
  apply not_elem_of_cons. split; [done | by apply IH].
Qed.

Lemma index_Some x parts i :
  index x parts = Some i ->
  exists pre rest,
    parts = pre ++ x :: rest /\ (x ∉ pre) /\ length pre = i.
Proof.
  revert i. induction parts as [|p parts IH]; intros i; simpl; [done|].
  destruct (String.eqb_spec p x) as [->|Hne].
  - intros [= <-]. exists [], parts. split_and!; [done| apply not_elem_of_nil |done].
  - destruct (index x parts) as [j|]; [|done]. intros [= <-].
    destruct (IH j eq_refl) as (pre & rest & -> & Hpre & Hlen).
    exists (p :: pre), rest. split_and!; [done| | by simpl; rewrite Hlen].
    apply not_elem_of_cons. split; [done|done].
Qed.

Lemma sale_index_Some parts i :
  sale_index parts = Some i ->
  exists pre rest, marker_at parts pre rest /\ length pre = i /\
                   parts = pre ++ (default "to-let" (parts !! i)) :: rest.
Proof.
  unfold sale_index, marker_at.
  destruct (index "for-sale" parts) as [j|] eqn:E.
  - intros [= <-]. apply index_Some in E as (pre & rest & -> & Hpre & Hlen).
    exists pre, rest. split_and!; [by left | done |].
    by rewrite <- Hlen, list_lookup_middle.
  - intros E'. apply index_None in E.
    apply index_Some in E' as (pre & rest & -> & Hpre & Hlen).
    exists pre, rest. split_and!; [by right | done |].
    by rewrite <- Hlen, list_lookup_middle.
Qed.

Lemma sale_index_None parts : sale_index parts = None -> no_marker parts.
Proof.
  unfold sale_index, no_marker.
  destruct (index "for-sale" parts) eqn:E; [done|].
  intros E'. split; by apply index_None.
Qed.

Lemma marker_parts parts pre rest :
  marker_at parts pre rest ->
  length parts = S (length pre + length rest) /\
  forall j, parts !! (length pre + S j)%nat = rest !! j.
Proof.
  intros [[-> _]|(-> & _ & _)]; (split;
    [rewrite length_app; simpl; lia
    |intros j; rewrite lookup_app_r by lia;
     by replace (length pre + S j - length pre)%nat with (S j) by lia]).
Qed.

(** Title case: the scan of [str.title] capitalises word by word. *)

Lemma cons_app_str c a b : String c a +:+ b = String c (a +:+ b).
Proof. done. Qed.

Lemma uncased_fixed c :
  Chr.cased c = false -> Chr.title c = [Chr.code c] /\ Chr.lower c = c.
Proof.
  destruct c as [[] [] [] [] [] [] [] []]; vm_compute; intros H;
    (discriminate H || (split; reflexivity)).
Qed.

Lemma of_string_lower_cons c w :
  Ustr.of_string (Str.lower (String c w))
  = Chr.code (Chr.lower c) :: Ustr.of_string (Str.lower w).
Proof. done. Qed.

Lemma title_from_word w s :
  Str.forallb Chr.cased w = true ->
  Str.title_from true (w +:+ s)
  = Ustr.of_string (Str.lower w) ++ Str.title_from true s.
Proof.
  induction w as [|c w IH]; [done|]. cbn [Str.forallb].
  intros [Hc Hw]%andb_prop. rewrite cons_app_str, of_string_lower_cons.
  cbn [Str.title_from]. rewrite Hc, (IH Hw). done.
Qed.

Lemma title_from_capitalize w s :
  Str.forallb Chr.cased w = true ->
  Str.title_from false (w +:+ s)
  = capitalize w ++ Str.title_from (Str.truthy w) s.
Proof.
  destruct w as [|c w]; [done|]. cbn [Str.forallb].
  intros [Hc Hw]%andb_prop. rewrite cons_app_str.
  cbn [Str.title_from capitalize Str.truthy]. rewrite Hc, (title_from_word _ _ Hw).
  apply app_assoc.
Qed.

Lemma rev_app_append a b s :
  String.rev_app a b +:+ s = String.rev_app a (b +:+ s).
Proof.
  revert b. induction a as [|x a IH]; intros b; simpl; [done|]. by rewrite IH.
Qed.

Lemma rev_cons_app c cur s :
  String.rev (String c cur) +:+ s = String.rev cur +:+ String c s.
Proof. unfold String.rev. cbn [String.rev_app]. by rewrite !rev_app_append. Qed.

Lemma rev_app_forallb q a b :
  Str.forallb q (String.rev_app a b) = Str.forallb q a && Str.forallb q b.
Proof.
  revert b. induction a as [|c a IH]; intros b; simpl; [done|].
  rewrite IH. simpl. destruct (q c), (Str.forallb q a); simpl; try done;
    by rewrite ?andb_false_r.
Qed.

Lemma rev_forallb p cur :
  Str.forallb p cur = true -> Str.forallb p (String.rev cur) = true.
Proof. intros H. unfold String.rev. by rewrite rev_app_forallb, H. Qed.

Lemma title_words_from cur s :
  Str.forallb Chr.cased cur = true ->
  title_words cur s = Str.title_from false (String.rev cur +:+ s).
Proof.
  revert cur. induction s as [|c s IH]; intros cur Hcur; cbn [title_words].
  - rewrite (title_from_capitalize _ _ (rev_forallb _ _ Hcur)).
    cbn [Str.title_from]. by rewrite app_nil_r.
  - destruct (Chr.cased c) eqn:Hc.
    + rewrite IH by (cbn [Str.forallb]; by rewrite Hc). apply f_equal, rev_cons_app.
    + rewrite (title_from_capitalize _ _ (rev_forallb _ _ Hcur)).
      f_equal. rewrite (IH EmptyString eq_refl).
      destruct (uncased_fixed c Hc) as [Ht Hl].
      cbn [Str.title_from String.rev]. rewrite Hc, Ht, Hl.
      by destruct (Str.truthy (String.rev cur)).
Qed.

(** [str.title] gives the text in title case. *)
Lemma title_spec s : Str.title s = title_cased s.
Proof. unfold title_cased. by rewrite title_words_from. Qed.

Lemma replace_spaced s : Str.replace "-" " " s = spaced s.
Proof. induction s as [|c s IH]; [done|]. cbn. by rewrite <- IH. Qed.

Lemma area_name_code slug :
  Str.title (Str.replace "-" " " slug) = area_name slug.
Proof. unfold area_name. by rewrite title_spec, replace_spaced. Qed.

Lemma parse_location_from_parts url :
  location_of (url_parts url) (parse_location_from_url url).
Proof.
  unfold parse_location_from_url.
  destruct (sale_index (url_parts url)) as [i|] eqn:E.
  - apply sale_index_Some in E as (pre & rest & Hm & <- & _).
    destruct (marker_parts _ _ _ Hm) as [Hlen Hnth].
    destruct (Nat.ltb_spec (length pre + 2) (length (url_parts url))) as [Hlt|Hge].
    + destruct rest as [|city [|slug rest]]; simpl in *; try lia.
      replace (length pre + 2)%nat with (length pre + 1 + 1)%nat by lia.
      rewrite <- Nat.add_assoc. simpl. rewrite (Hnth 1%nat). simpl.
      rewrite area_name_code. by eapply loc_area.
    + eapply loc_short; [done|]. lia.
  - apply loc_none. by apply sale_index_None.
Qed.

(** The marker of a path is unique, so the specification gives one answer. *)
Lemma marker_at_unique parts pre rest pre' rest' :
  marker_at parts pre rest -> marker_at parts pre' rest' ->
  pre = pre' /\ rest = rest'.
Proof.
  assert (forall (x : string) (a b c d : list string),
            a ++ x :: b = c ++ x :: d -> x ∉ a -> x ∉ c -> a = c /\ b = d) as Hsplit.
  { intros x a. induction a as [|y a IH]; intros b [|z c] d; simpl.
    - by intros [= ->].
    - intros [= <- _] _ Hc. exfalso. apply Hc. by left.
    - intros [= -> _] Ha. exfalso. apply Ha. by left.
    - intros [= -> H] Ha Hc.
      apply not_elem_of_cons in Ha as [_ Ha], Hc as [_ Hc].
      destruct (IH _ _ _ H Ha Hc) as [-> ->]. done. }
  intros [[E1 H1]|(E1 & H1 & N1)] [[E2 H2]|(E2 & H2 & N2)].
  - rewrite E1 in E2. by eapply Hsplit.
  - exfalso. apply N2. rewrite E1. apply elem_of_app. right. by left.
  - exfalso. apply N1. rewrite E2. apply elem_of_app. right. by left.
  - rewrite E1 in E2. by eapply Hsplit.
Qed.

Lemma marker_not_none parts pre rest :
  marker_at parts pre rest -> no_marker parts -> False.
Proof.
  intros [[-> _]|(-> & _ & _)] [H1 H2]; [apply H1 | apply H2];
    apply elem_of_app; right; by left.
Qed.

Lemma location_of_unique parts a b :
  location_of parts a -> location_of parts b -> a = b.
Proof.
  intros Ha Hb. destruct Ha as [pre city slug rest Hm|pre rest Hm Hl|Hn];
    destruct Hb as [pre' city' slug' rest' Hm'|pre' rest' Hm' Hl'|Hn'];
    try done;
    try (exfalso; by eapply marker_not_none);
    destruct (marker_at_unique _ _ _ _ _ Hm Hm') as [_ E];
    try (injection E as -> -> ->; done);
    subst; simpl in *; lia.
Qed.
(** The labelled reference *)

Lemma app_cons_str c a b : String c a +:+ b = String c (a +:+ b).
Proof. done. Qed.

Lemma app_nil_str b : EmptyString +:+ b = b.
Proof. done. Qed.

Lemma startswith_cons a p b s :
  Str.startswith (String a p) (String b s) = Ascii.eqb a b && Str.startswith p s.
Proof. done. Qed.

Lemma lower_cons c s : Str.lower (String c s) = String (Chr.lower c) (Str.lower s).
Proof. done. Qed.

(** A match of a literal under [re.I] begins with the literal, up to
    case. *)
Lemma run_lit_i_sound p st k res :
  run (lit_i p) st k = Some res ->
  Str.startswith (Str.lower p) (Str.lower (ms_rest st)) = true /\
  exists w s' prev',
    ms_rest st = w +:+ s' /\ String.length w = String.length p /\
    k (MState prev' (ms_pos st + String.length p) s' (ms_caps st)) = Some res.
Proof.
  revert st. induction p as [|c p IH]; intros st.
  - destruct st as [prev pos s caps]. cbn. intros H. split; [done|].
    exists EmptyString, s, prev. by rewrite Nat.add_0_r.
  - rewrite run_lit_i_cons. destruct (ms_rest st) as [|x s] eqn:Es; [done|].
    destruct (Chr.eqb_ci c x) eqn:E; [|done].
    intros H. apply IH in H as (Hp & w & s' & prev' & Hs & Hl & Hk).
    cbn [ms_rest ms_pos ms_caps] in *.
    rewrite !lower_cons, startswith_cons. unfold Chr.eqb_ci in E.
    rewrite E, Hp. split; [done|].
    exists (String x w), s', prev'.
    change (String x w +:+ s') with (String x (w +:+ s')).
    rewrite <- Hs. cbn [String.length]. rewrite Hl.
    split_and!; [done | done |].
    replace (ms_pos st + S (String.length p))%nat
      with (S (ms_pos st) + String.length p)%nat by lia.
    exact Hk.
Qed.

Lemma labelled_begins sep prev s m :
  match_at (labelled sep) prev s = Some m -> begins_label s.
Proof.
  unfold match_at. destruct (run _ _ _) as [st|] eqn:E; [|done]. intros _.
  unfold labelled, ref_label in E. cbn [seq run] in E.
  match type of E with
  | match ?a with Some _ => _ | None => _ end = _ => destruct a eqn:EA
  end.
  - clear E. apply run_lit_i_sound in EA as (Hweb & w1 & s1 & prev1 & Hs1 & Hl1 & EA).
    cbn [run star ms_rest ms_pos ms_caps ms_prev] in *.
    apply rep_sound in EA as (ws & t & prev2 & Hs2 & Hws & _ & EA).
    apply run_lit_i_sound in EA as (Href & _).
    cbn [ms_rest] in Href. subst s1.
    right. by exists w1, ws, t.
  - apply run_lit_i_sound in E as (Href & _). by left.
Qed.

(** No labelled reference begins inside a text that does not contain the
    word "ref" and is followed by the letter W. *)
Lemma ref_not_across q R :
  q <> EmptyString ->
  Str.contains "ref" (Str.lower q) = false ->
  Str.startswith "ref" (Str.lower (q +:+ String "W" R)) = false.
Proof.
  intros Hq Hc.
  destruct q as [|c1 [|c2 [|c3 q]]]; [done| | |].
  - rewrite !app_cons_str, app_nil_str, !lower_cons, !startswith_cons.
    change (Ascii.eqb "e" (Chr.lower "W")) with false.
    by rewrite andb_false_r.
  - rewrite !app_cons_str, app_nil_str, !lower_cons, !startswith_cons.
    change (Ascii.eqb "f" (Chr.lower "W")) with false.
    by rewrite !andb_false_r.
  - rewrite !app_cons_str. cbn [Str.contains] in Hc.
    apply orb_false_elim in Hc as [Hc _].
    rewrite !lower_cons, !startswith_cons in *.
    destruct (Str.lower (q +:+ String "W" R)), (Str.lower q); exact Hc.
Qed.

Lemma contains_tail p c s :
  Str.contains p (String c s) = false -> Str.contains p s = false.
Proof. cbn [Str.contains]. by intros [_ ?]%orb_false_elim. Qed.

Lemma ref_not_after_spaces ws : forall q t R,
  Str.contains "ref" (Str.lower q) = false ->
  q +:+ String "W" R = ws +:+ t ->
  Str.forallb Chr.is_space ws = true ->
  Str.startswith "ref" (Str.lower t) = false.
Proof.
  induction ws as [|c ws IH]; intros q t R Hc Heq Hws.
  - rewrite app_nil_str in Heq. subst t. destruct q as [|c1 q].
    + done.
    + by apply ref_not_across.
  - simpl in Hws. apply andb_prop in Hws as [Hsp Hws].
    rewrite app_cons_str in Heq. destruct q as [|c1 q].
    + rewrite app_nil_str in Heq. injection Heq as <- _.
      vm_compute in Hsp. discriminate Hsp.
    + rewrite app_cons_str in Heq. injection Heq as <- Heq.
      rewrite lower_cons in Hc. apply contains_tail in Hc. by eapply IH.
Qed.

Lemma web_not_across q R :
  q <> EmptyString ->
  Str.startswith "web" (Str.lower (q +:+ String "W" R)) = true ->
  exists c1 c2 c3 q', q = String c1 (String c2 (String c3 q')).
Proof.
  intros Hq.
  destruct q as [|c1 [|c2 [|c3 q]]]; [done| | |by eauto].
  - rewrite !app_cons_str, app_nil_str, !lower_cons, !startswith_cons.
    change (Ascii.eqb "e" (Chr.lower "W")) with false.
    by rewrite andb_false_r.
  - rewrite !app_cons_str, app_nil_str, !lower_cons, !startswith_cons.
    change (Ascii.eqb "b" (Chr.lower "W")) with false.
    by rewrite !andb_false_r.
Qed.

Lemma no_label_before sep q R prev :
  q <> EmptyString ->
  Str.contains "ref" (Str.lower q) = false ->
  match_at (labelled sep) prev (q +:+ String "W" R) = None.
Proof.
  intros Hq Hc.
  destruct (match_at _ _ _) as [m|] eqn:E; [|done]. exfalso.
  apply labelled_begins in E as [Href|(w1 & ws & t & Heq & Hl & Hweb & Hws & Href)].
  - by rewrite ref_not_across in Href.
  - destruct (web_not_across _ _ Hq Hweb) as (c1 & c2 & c3 & q' & ->).
    destruct w1 as [|a1 [|a2 [|a3 [|]]]]; try done.
    rewrite !app_cons_str, app_nil_str in Heq. injection Heq as _ _ _ Heq.
    rewrite !lower_cons in Hc. do 3 apply contains_tail in Hc.
    by rewrite (ref_not_after_spaces ws q' t R Hc Heq Hws) in Href.
Qed.

Lemma labelled_here prev post :
  starts_with Chr.is_digit post = false ->
  match_at REF_LABELLED_RE prev (LABEL +:+ post)
  = Some (RMatch LABEL [(1%nat, "AB12345")] 16).
Proof.
  intros Hpost.
  destruct post as [|c post].
  - vm_compute. reflexivity.
  - simpl in Hpost.
    destruct c as [[] [] [] [] [] [] [] []];
      first [ discriminate Hpost | vm_compute; reflexivity ].
Qed.

(** The search passes over a beginning of the text in which no match
    begins. *)
Lemma search_from_after r pre R prev :
  begins_within r (String.length pre) prev (pre +:+ R) = false ->
  exists prev', search_from r prev (pre +:+ R) = search_from r prev' R.
Proof.
  revert prev. induction pre as [|c pre IH]; intros prev.
  - intros _. by exists prev.
  - rewrite app_cons_str. cbn [String.length begins_within].
    intros [Hm Hb]%orb_false_elim. cbn [search_from].
    destruct (match_at r prev _) as [m|].
    + by rewrite bool_decide_eq_true_2 in Hm by eauto.
    + by apply IH.
Qed.

(** A text without the word "ref", in any case, has no beginning of a
    labelled reference. *)
Lemma no_ref_word_before pre post prev :
  Str.contains "ref" (Str.lower pre) = false ->
  begins_within REF_LABELLED_RE (String.length pre) prev
    (pre +:+ LABEL +:+ post) = false.
Proof.
  revert prev. induction pre as [|c pre IH]; intros prev Hc; [done|].
  rewrite app_cons_str. cbn [String.length begins_within].
  apply orb_false_intro.
  - apply bool_decide_eq_false_2. intros [m Hm]. rewrite <- app_cons_str in Hm.
    change (LABEL +:+ post) with (String "W" ("eb Ref: AB12345" +:+ post)) in Hm.
    unfold REF_LABELLED_RE in Hm. by rewrite no_label_before in Hm.
  - apply IH. rewrite lower_cons in Hc. by apply contains_tail in Hc.
Qed.

Lemma search_label pre post :
  begins_within REF_LABELLED_RE (String.length pre) None
    (pre +:+ LABEL +:+ post) = false ->
  starts_with Chr.is_digit post = false ->
  search REF_LABELLED_RE (pre +:+ LABEL +:+ post)
  = Some (RMatch LABEL [(1%nat, "AB12345")] 16).
Proof.
  intros Hb Hpost. unfold search.
  destruct (search_from_after _ _ _ _ Hb) as [prev' ->].
  assert (search_from REF_LABELLED_RE prev' (LABEL +:+ post)
          = match match_at REF_LABELLED_RE prev' (LABEL +:+ post) with
            | Some m => Some m
            | None => search_from REF_LABELLED_RE (Some "W"%char)
                        ("eb Ref: AB12345" +:+ post)
            end) as -> by done.
  by rewrite labelled_here.
Qed.

(** The path of a URL *)

Lemma span_app_stop p w s :
  Str.forallb p w = true -> starts_with p s = false ->
  span p (w +:+ s) = String.length w /\ Str.lstrip p (w +:+ s) = s.
Proof.
  intros Hw Hs. induction w as [|c w IH].
  - rewrite app_nil_str. destruct s as [|d s]; [done|]. simpl in *. by rewrite Hs.
  - rewrite app_cons_str. simpl in *. apply andb_prop in Hw as [Hc Hw].
    rewrite Hc. destruct (IH Hw) as [-> ->]. done.
Qed.

Lemma match_host secure host rest :
  segment host ->
  exists m,
    match_at URL_HOST_RE None (scheme secure +:+ host +:+ String "/" rest)
    = Some m /\
    m_len m = (String.length (scheme secure) + String.length host)%nat.
Proof.
  intros [Ht Hh].
  destruct (span_app_stop (not_in is_slash) host (String "/" rest) Hh eq_refl)
    as [Hspan Hstrip].
  assert (1 <= span (not_in is_slash) (host +:+ String "/" rest))%nat as Hlo.
  { rewrite Hspan. destruct host; [done | simpl; lia]. }
  unfold match_at, URL_HOST_RE.
  destruct secure; unfold scheme.
  - destruct (rep_greedy (not_in is_slash) 1 [] (Some "/"%char) 8
                (host +:+ String "/" rest) Hlo) as [q Hq].
    rewrite !app_cons_str, app_nil_str.
    cbn [seq run lit opt chr plus ms_prev ms_rest ms_pos ms_caps].
    cbn [Ascii.eqb Bool.eqb]. cbn [run ms_rest ms_pos ms_caps ms_prev].
    rewrite Hq, Hspan. eexists. split; [done|]. done.
  - destruct (rep_greedy (not_in is_slash) 1 [] (Some "/"%char) 7
                (host +:+ String "/" rest) Hlo) as [q Hq].
    rewrite !app_cons_str, app_nil_str.
    cbn [seq run lit opt chr plus ms_prev ms_rest ms_pos ms_caps].
    cbn [Ascii.eqb Bool.eqb]. cbn [run ms_rest ms_pos ms_caps ms_prev].
    rewrite Hq, Hspan. eexists. split; [done|]. done.
Qed.

(** Passing over the characters of a match. *)
Lemma sub_go_skip r repl w : forall prev s,
  w <> EmptyString ->
  exists c,
    sub_go r repl (String.length w) prev (w +:+ s) = sub_go r repl O (Some c) s.
Proof.
  induction w as [|x w IH]; intros prev s Hw; [done|].
  rewrite app_cons_str. cbn [String.length sub_go].
  destruct w as [|y w].
  - rewrite app_nil_str. by exists x.
  - by apply IH.
Qed.

(** A pattern anchored at the beginning matches nowhere else. *)
Lemma sub_go_bos r repl c s : sub_go (Seq Bos r) repl O (Some c) s = s.
Proof.
  revert c. induction s as [|x s IH]; intros c; [done|].
  cbn [sub_go]. unfold match_at. cbn [run ms_prev]. by rewrite IH.
Qed.

Lemma url_host_removed secure host rest :
  segment host ->
  sub URL_HOST_RE EmptyString (scheme secure +:+ host +:+ String "/" rest)
  = String "/" rest.
Proof.
  intros Hhost. destruct (match_host secure host rest Hhost) as (m & Hm & Hlen).
  unfold sub.
  assert (exists x w, scheme secure +:+ host = String x w) as (x & w & Hxw).
  { destruct secure; unfold scheme; rewrite app_cons_str; eauto. }
  assert (scheme secure +:+ host +:+ String "/" rest
          = String x (w +:+ String "/" rest)) as Heq.
  { transitivity ((scheme secure +:+ host) +:+ String "/" rest).
    - clear. induction (scheme secure) as [|c t IH]; [done|].
      rewrite !app_cons_str. by rewrite IH.
    - by rewrite Hxw. }
  rewrite Heq in *. cbn [sub_go]. rewrite Hm.
  destruct m as [whole caps len]. cbn [m_len] in Hlen.
  assert (len = S (String.length w)) as ->.
  { rewrite Hlen. rewrite <- str_length_app, Hxw. done. }
  destruct w as [|y w].
  - rewrite app_nil_str. unfold URL_HOST_RE. cbn [seq].
    change (EmptyString +:+ ?t) with t. cbn [String.length sub_go].
    unfold match_at. cbn [run ms_prev]. f_equal. apply sub_go_bos.
  - destruct (sub_go_skip URL_HOST_RE EmptyString (String y w) (Some x)
                (String "/" rest)) as [c ->]; [done|].
    rewrite app_nil_str. apply sub_go_bos.
Qed.

(** Stripping *)

Lemma rstrip_all p w : Str.forallb p w = true -> Str.rstrip p w = EmptyString.
Proof.
  induction w as [|c w IH]; simpl; [done|].
  intros [Hc Hw]%andb_prop. by rewrite (IH Hw), Hc.
Qed.

Lemma rstrip_app_class p t w :
  Str.forallb p w = true -> Str.rstrip p (t +:+ w) = Str.rstrip p t.
Proof.
  intros Hw. induction t as [|c t IH].
  - rewrite app_nil_str. by apply rstrip_all.
  - rewrite app_cons_str. cbn [Str.rstrip]. by rewrite IH.
Qed.

Lemma ends_with_app p a b :
  b <> EmptyString -> ends_with p (a +:+ b) = ends_with p b.
Proof.
  intros Hb. induction a as [|c a IH]; [done|].
  rewrite app_cons_str. cbn [ends_with]. rewrite IH.
  destruct (a +:+ b) eqn:E; [|done].
  destruct a; [|done]. rewrite app_nil_str in E. done.
Qed.

Lemma segment_ends s : segment s -> ends_with is_slash s = false.
Proof.
  intros [Ht Hs]. induction s as [|c s IH]; [done|].
  simpl in Hs. apply andb_prop in Hs as [Hc Hs].
  destruct s as [|d s].
  - simpl. unfold not_in in Hc. by destruct (is_slash c).
  - by apply IH.
Qed.

Lemma segment_starts s rest : segment s -> starts_with is_slash (s +:+ rest) = false.
Proof.
  intros [Ht Hs]. destruct s as [|c s]; [done|].
  rewrite app_cons_str. simpl in *. apply andb_prop in Hs as [Hc _].
  unfold not_in in Hc. by destruct (is_slash c).
Qed.

Lemma join_path_cons s segs :
  segs <> [] -> join_path (s :: segs) = s +:+ String "/" (join_path segs).
Proof. by destruct segs. Qed.

Lemma join_path_ends segs :
  segs <> [] -> Forall segment segs -> ends_with is_slash (join_path segs) = false.
Proof.
  induction segs as [|s segs IH]; [done|]. intros _ Hs.
  apply Forall_cons in Hs as [Hs Hsegs].
  destruct segs as [|s2 segs]; [by apply segment_ends|].
  rewrite join_path_cons by done.
  rewrite ends_with_app by done. cbn [ends_with].
  assert (join_path (s2 :: segs) <> EmptyString) as Hne.
  { apply Forall_cons in Hsegs as [[Ht _] _].
    destruct s2; [done|]. destruct segs; [done|].
    rewrite join_path_cons by done. by rewrite app_cons_str. }
  specialize (IH ltac:(done) Hsegs).
  destruct (join_path (s2 :: segs)) eqn:E; [done | exact IH].
Qed.

Lemma join_path_starts segs rest :
  segs <> [] -> Forall segment segs ->
  starts_with is_slash (join_path segs +:+ rest) = false.
Proof.
  destruct segs as [|s segs]; [done|]. intros _ Hs.
  apply Forall_cons in Hs as [Hs _].
  destruct segs as [|s2 segs]; [by apply segment_starts|].
  rewrite join_path_cons by done.
  destruct Hs as [Ht Hs]. destruct s as [|c s]; [done|].
  rewrite !app_cons_str. simpl in *. apply andb_prop in Hs as [Hc _].
  unfold not_in in Hc. by destruct (is_slash c).
Qed.

(** Splitting *)

Lemma rev_app_app a b c :
  String.rev_app (String.rev_app a b) c = String.rev_app b (a +:+ c).
Proof.
  revert b c. induction a as [|x a IH]; intros b c; simpl; [done|].
  by rewrite IH.
Qed.

Lemma rev_rev_app a : String.rev (String.rev_app a EmptyString) = a.
Proof.
  unfold String.rev. rewrite rev_app_app. simpl.
  induction a as [|x a IH]; [done|]. rewrite app_cons_str. by rewrite IH.
Qed.

(** A segment is read into the current piece. *)
Lemma split_go_segment p seg : forall prev cur rest,
  Str.forallb (not_in p) seg = true ->
  exists prev',
    split_go (plus p) O prev cur (seg +:+ rest)
    = split_go (plus p) O prev' (String.rev_app seg cur) rest.
Proof.
  induction seg as [|c seg IH]; intros prev cur rest Hs.
  - rewrite app_nil_str. by exists prev.
  - simpl in Hs. apply andb_prop in Hs as [Hc Hs].
    rewrite app_cons_str. cbn [split_go]. rewrite match_at_plus. cbn [span].
    unfold not_in in Hc. destruct (p c); [done|].
    cbn [String.rev_app]. by apply IH.
Qed.

Lemma split_join segs : forall prev,
  segs <> [] -> Forall segment segs ->
  split_go (plus is_slash) O prev EmptyString (join_path segs) = segs.
Proof.
  induction segs as [|s segs IH]; intros prev Hne Hs; [done|].
  apply Forall_cons in Hs as [[Ht Hs] Hsegs].
  destruct segs as [|s2 segs].
  - cbn [join_path].
    destruct (split_go_segment is_slash s prev EmptyString EmptyString Hs)
      as [prev' Hsplit].
    assert (s +:+ EmptyString = s) as Happ.
    { clear. induction s as [|c s IH]; [done|]. by rewrite app_cons_str, IH. }
    rewrite Happ in Hsplit. rewrite Hsplit. cbn [split_go].
    by rewrite rev_rev_app.
  - rewrite join_path_cons by done.
    destruct (split_go_segment is_slash s prev EmptyString
                (String "/" (join_path (s2 :: segs))) Hs) as [prev' ->].
    cbn [split_go]. rewrite match_at_plus. cbn [span].
    change (is_slash "/") with true. cbv iota.
    pose proof (join_path_starts (s2 :: segs) EmptyString) as Hst.
    assert (span is_slash (join_path (s2 :: segs)) = O) as ->.
    { specialize (Hst ltac:(done) Hsegs).
      destruct (join_path (s2 :: segs)) as [|c t] eqn:E; [done|].
      rewrite app_cons_str in Hst. simpl in *. by rewrite Hst. }
    rewrite rev_rev_app. f_equal. by apply IH.
Qed.

Lemma url_parts_of_path secure host segs (trailing : bool) :
  segment host -> segs <> [] -> Forall segment segs ->
  url_parts (http_url secure host segs trailing) = segs.
Proof.
  intros Hhost Hne Hsegs. unfold url_parts, url_path, http_url.
  rewrite url_host_removed by done.
  unfold Str.strip. cbn [Str.lstrip]. change (is_slash "/") with true. cbv iota.
  rewrite lstrip_id by (by apply join_path_starts).
  rewrite rstrip_app_class by (by destruct trailing).
  rewrite rstrip_id by (by apply join_path_ends).
  by apply split_join.
Qed.
(** The bedroom rule *)

Lemma extract_beds_no_signal sp text ptype :
  beds_cascade sp text = Continue ->
  extract_beds sp text ptype =
  Ok (if bool_decide (ptype ∈ TYPES_NO_BEDS) then Some 0 else None).
Proof.
  unfold extract_beds. intros ->. simpl. by destruct (bool_decide _).
Qed.

(** The validator raises only when [extract_price] or [extract_beds]
    does. *)
Lemma validator_returns sp u log p o :
  extract_price sp (page_text sp) = Ok p ->
  extract_beds sp (page_text sp) (ptype_of u) = Ok o ->
  exists out, extract_complete_item_from_detail sp u log = Ok out.
Proof.
  intros Hp Hb. unfold extract_complete_item_from_detail. fold (ptype_of u).
  rewrite Hp, Hb.
  repeat match goal with
         | |- context [if ?b then _ else _] => destruct b
         | |- context [match ?x with Some _ => _ | None => _ end] => destruct x
         | |- exists out, Ok ?a = Ok out => by exists a
         end.
Qed.

Lemma validator_exception sp u log e :
  extract_complete_item_from_detail sp u log = Exc e ->
  extract_price sp (page_text sp) = Exc e \/
  (exists p, extract_price sp (page_text sp) = Ok (Some p)) /\
  extract_beds sp (page_text sp) (ptype_of u) = Exc e.
Proof.
  unfold extract_complete_item_from_detail. fold (ptype_of u).
  destruct (negb (verify_agent_ownership sp (page_text sp))); [done|].
  destruct (parse_location_from_url u) as [a|]; [|done].
  destruct (negb (Ustr.truthy a)); [done|].
  destruct (extract_title sp) as [t|]; [|done].
  destruct (negb (Str.truthy t)); [done|].
  destruct (extract_price sp (page_text sp)) as [[p|]|e']; [|done|].
  - destruct (extract_beds sp (page_text sp) (ptype_of u)) as [[b|]|e'].
    + destruct (extract_ref sp (page_text sp) u) as [r|]; [|done].
      by destruct (negb (Ustr.truthy r)).
    + done.
    + intros [= <-]. right. eauto.
  - intros [= <-]. by left.
Qed.

Lemma reason_of_inj c c' : reason_of c = reason_of c' -> c = c'.
Proof. by destruct c, c'. Qed.
(** The catalog of [fetch_stock1.py] *)

Module Stock1Facts.
Import FetchStock1.

Lemma stock1_dedup_elem seen l it :
  it ∈ dedup seen l ->
  it ∈ l /\ Str.truthy (url it) = true /\ (url it ∉ seen).
Proof.
  revert seen. induction l as [|x l IH]; intros seen; simpl.
  - by intros ?%elem_of_nil.
  - destruct (Str.truthy (url x)) eqn:Et; simpl.
    + destruct (bool_decide_reflect (url x ∉ seen)) as [Hx|Hx].
      * intros Hi. apply elem_of_cons in Hi as [->|Hi];
          [split_and!; [by left | done | done]|].
        destruct (IH _ Hi) as (? & ? & Hn). split_and!; [by right | done |].
        intros Hs. apply Hn, elem_of_union. by right.
      * intros Hi. destruct (IH _ Hi) as (? & ? & ?).
        split_and!; [by right | done | done].
    + intros Hi. destruct (IH _ Hi) as (? & ? & ?).
      split_and!; [by right | done | done].
Qed.

Lemma stock1_dedup_NoDup seen l : NoDup (url <$> dedup seen l).
Proof.
  revert seen. induction l as [|x l IH]; intros seen; simpl; [constructor|].
  destruct (Str.truthy (url x)); simpl; [|apply IH].
  destruct (bool_decide_reflect (url x ∉ seen)); [|apply IH].
  rewrite fmap_cons. constructor; [|apply IH].
  intros (it & Hu & (_ & _ & Hx)%stock1_dedup_elem)%list_elem_of_fmap.
  apply Hx, elem_of_union. left. by apply elem_of_singleton.
Qed.

Lemma stock1_dedup_id seen l :
  NoDup (url <$> l) ->
  (forall it, it ∈ l -> Str.truthy (url it) = true /\ (url it ∉ seen)) ->
  dedup seen l = l.
Proof.
  revert seen. induction l as [|x l IH]; intros seen Hnd Hs; simpl; [done|].
  rewrite fmap_cons in Hnd. apply NoDup_cons in Hnd as [Hx Hnd].
  destruct (Hs x) as [Ht Hn]; [by left|].
  rewrite Ht, bool_decide_eq_true_2 by done. simpl.
  f_equal. apply IH; [done|].
  intros it Hit. destruct (Hs it) as [Hti Hni]; [by right|].
  split; [done|]. intros Hin. apply elem_of_union in Hin as [Hin|Hin]; [|done].
  apply elem_of_singleton in Hin. apply Hx.
  apply list_elem_of_fmap. by exists it.
Qed.

Lemma stock1_ltb_asym a b : (a <? b) = true -> (b <? a) = false.
Proof. lia. Qed.

Lemma stock1_geb_trans a b c :
  (a <? b) = false -> (b <? c) = false -> (a <? c) = false.
Proof. lia. Qed.

Lemma stock1_finalize_sorted all_items :
  StronglySorted (before sort_key Z.ltb) (finalize all_items).
Proof. apply sort_desc_sorted; [apply stock1_ltb_asym | apply stock1_geb_trans]. Qed.

Lemma stock1_finalize_NoDup all_items : NoDup (url <$> finalize all_items).
Proof.
  unfold finalize. rewrite sort_desc_perm. apply stock1_dedup_NoDup.
Qed.

Lemma stock1_finalize_elem all_items it :
  it ∈ finalize all_items -> it ∈ all_items /\ Str.truthy (url it) = true.
Proof.
  unfold finalize. rewrite sort_desc_perm.
  intros (? & ? & _)%stock1_dedup_elem. done.
Qed.

(** Records of one price keep the order in which they were found. *)
Lemma stock1_finalize_stable all_items k :
  filter (fun it => sort_key it = k) (finalize all_items) =
  filter (fun it => sort_key it = k) (dedup ∅ all_items).
Proof. apply sort_desc_stable, stock1_ltb_asym. Qed.

Lemma stock1_finalize_idem all_items :
  finalize (finalize all_items) = finalize all_items.
Proof.
  unfold finalize at 1. rewrite stock1_dedup_id.
  - apply sort_desc_id, stock1_finalize_sorted.
  - apply stock1_finalize_NoDup.
  - intros it [_ Ht]%stock1_finalize_elem. split; [done | apply not_elem_of_empty].
Qed.

Lemma stock1_extract_from_card_named c it :
  extract_from_card c = Ok (Some it) -> named it.
Proof.
  unfold extract_from_card.
  intros (price & _ & (beds & _ & H)%bind_ok)%bind_ok. revert H.
  intros [= H]. revert H.
  repeat match goal with
         | |- context [match ?x with Some _ => _ | None => _ end = Some it] =>
             destruct x
         end; try done;
  match goal with
  | |- (if ?a && ?b then _ else _) = _ -> _ =>
      destruct a eqn:Ha; destruct b eqn:Hb; try done
  end; by intros [= <-].
Qed.

Lemma stock1_item_of_anchor_title a : Str.truthy (title (item_of_anchor a)) = true.
Proof.
  unfold item_of_anchor. simpl.
  destruct (a_title a) as [t|]; [destruct (Str.truthy t) eqn:E; [done|]|];
    by destruct (Str.truthy (a_text a)) eqn:E'.
Qed.

(** What holds of the item of every card and of every anchor holds of the
    items of a page. *)
Lemma stock1_cards_of_Forall (P : item -> Prop) cs l :
  (forall c it, extract_from_card c = Ok (Some it) -> P it) ->
  cards_of cs = Ok l -> Forall P l.
Proof.
  intros HP. revert l. induction cs as [|c cs IH]; intros l; cbn [cards_of].
  - by intros [= <-].
  - intros (o & Ho & (l' & Hl & [= <-])%bind_ok)%bind_ok.
    specialize (IH _ Hl). destruct o as [it|]; [|done].
    constructor; [by eapply HP | done].
Qed.

Lemma stock1_cards_of_anchors_Forall (P : item -> Prop) aps l :
  (forall c it, extract_from_card c = Ok (Some it) -> P it) ->
  (forall a, P (item_of_anchor a)) ->
  cards_of_anchors aps = Ok l -> Forall P l.
Proof.
  intros HP HA. revert l. induction aps as [|ap aps IH]; intros l;
    cbn [cards_of_anchors].
  - by intros [= <-].
  - intros (o & Ho & (l' & Hl & [= <-])%bind_ok)%bind_ok.
    specialize (IH _ Hl). constructor; [|done].
    destruct o as [it|]; [by eapply HP | apply HA].
Qed.

Lemma stock1_listings_Forall (P : item -> Prop) sp l :
  (forall c it, extract_from_card c = Ok (Some it) -> P it) ->
  (forall a, P (item_of_anchor a)) ->
  extract_listings_from_html sp = Ok l ->
  Forall (fun it => P it /\ Str.truthy (url it) = true) l.
Proof.
  intros HP HA. unfold extract_listings_from_html.
  intros (cards & Hc & (cards' & Hc' & [= <-])%bind_ok)%bind_ok.
  apply Forall_forall. intros it (Hin & Hu & _)%stock1_dedup_elem.
  split; [|done].
  assert (Forall P cards') as Hall.
  { apply (stock1_cards_of_Forall P) in Hc; [|done].
    destruct cards as [|x cards]; [|by injection Hc' as <-].
    by eapply stock1_cards_of_anchors_Forall. }
  by apply (proj1 (Forall_forall _ _) Hall).
Qed.

Section Run.
Variable env : option string.
Variable parse : string -> soup.
Variable fetch : nat -> string -> option string.

Lemma stock1_pages_loop_Forall (P : item -> Prop) left n url all_items out :
  (forall c it, extract_from_card c = Ok (Some it) -> P it) ->
  (forall a, P (item_of_anchor a)) ->
  Forall P all_items ->
  pages_loop parse fetch left n url all_items = Ok out -> Forall P out.
Proof.
  intros HP HA.
  revert n url all_items. induction left as [|left IH]; intros n url all_items Ha;
    simpl.
  - by intros [= <-].
  - destruct url as [u|]; [|by intros [= <-]].
    destruct (negb (Str.truthy u)); [by intros [= <-]|].
    destruct (fetch n u) as [html|]; [|done].
    intros (items & Hi & H)%bind_ok. revert H.
    assert (Forall P (all_items ++ items)).
    { apply Forall_app. split; [done|].
      apply (stock1_listings_Forall P) in Hi; [|done..].
      eapply Forall_impl; [exact Hi|]. by intros it [? _]. }
    destruct (find_next_link html) as [nxt|]; [destruct (Str.truthy nxt)|];
      by apply IH.
Qed.

Lemma stock1_main_Forall (P : item -> Prop) catalog :
  (forall c it, extract_from_card c = Ok (Some it) -> P it) ->
  (forall a, P (item_of_anchor a)) ->
  main env parse fetch = Ok catalog ->
  Forall (fun it => P it /\ Str.truthy (url it) = true) catalog.
Proof.
  intros HP HA. unfold main.
  intros (all_items & E & [= <-])%bind_ok.
  apply (stock1_pages_loop_Forall P) in E; [|done..|constructor].
  apply Forall_forall. intros it [Hin Hu]%stock1_finalize_elem.
  split; [|done]. by apply (proj1 (Forall_forall _ _) E).
Qed.

Lemma stock1_main_named catalog it :
  main env parse fetch = Ok catalog -> it ∈ catalog -> named it.
Proof.
  intros H Hin.
  apply (stock1_main_Forall (fun it => Str.truthy (title it) = true)) in H.
  - apply (proj1 (Forall_forall _ _) H) in Hin as [? ?]. by split.
  - intros c x Hx. by apply stock1_extract_from_card_named in Hx as [_ ?].
  - apply stock1_item_of_anchor_title.
Qed.

End Run.

End Stock1Facts.


(** The records of the skipped pages *)

Lemma validator_reason sp u log log' :
  extract_complete_item_from_detail sp u log = Ok (None, log') ->
  has_reason reasons log'.
Proof.
  intros H. apply validator_first_failing in H.
  destruct (first_failing sp u) as [c|].
  - destruct H as (_ & Hr & _). exists (reason_of c). split; [done|].
    unfold reasons. apply elem_of_app. left.
    apply list_elem_of_fmap. exists c. split; [done|].
    destruct c; unfold checks; set_solver.
  - by destruct H as (it & [= ] & _).
Qed.

Lemma main_skipped parse fetch catalog skipped :
  main parse fetch = Ok (catalog, skipped) ->
  Forall (has_reason reasons) skipped.
Proof.
  unfold main. destruct (candidate_urls parse fetch) as [merged n].
  destruct (detail_loop parse fetch n merged [] []) as [[items sk]|e] eqn:El;
    [|done].
  intros [= <- <-].
  eapply (detail_loop_Forall parse fetch (fun _ => True) (has_reason reasons)
            merged) in El as [_ Hsk]; try done.
  - intros k u html log _ _ _. apply validator_reason.
  - intros u _. exists "detail_fetch_failed". split; [done|].
    unfold reasons. apply elem_of_app. right. by apply list_elem_of_singleton.
Qed.

(** The title of an item *)

Lemma title_loop_norm sp sels o t :
  title_loop sp sels o = Some t ->
  o = Some t \/ exists raw, t = norm_space raw.
Proof.
  revert o. induction sels as [|sel sels IH]; intros o; simpl; [by left|].
  destruct (select_one sp sel) as [n|]; [|apply IH].
  destruct (Str.truthy _) eqn:E.
  - intros [= <-]. right. eauto.
  - intros H. destruct (IH _ H) as [[= <-]|Hr]; right; [eauto | done].
Qed.

Lemma extract_title_norm sp t :
  extract_title sp = Some t -> exists raw, t = norm_space raw.
Proof.
  unfold extract_title.
  destruct (title_loop sp TITLE_SELECTORS None) as [t0|] eqn:E.
  - apply title_loop_norm in E as [[=]|[raw ->]].
    destruct (negb _); [destruct (title_tag sp)|]; intros [= <-]; eauto.
  - simpl. destruct (title_tag sp); [|done]. intros [= <-]. eauto.
Qed.

(** The order of the catalog, in terms of prices and titles *)

Lemma sort_key_pair x : sort_key x = (price x, title x).
Proof.
  unfold sort_key. f_equal.
  - by destruct (Z.eqb_spec (price x) 0) as [->|].
  - by destruct (title x).
Qed.

Lemma before_price_then_title x y :
  before sort_key key_lt x y <-> price_then_title x y.
Proof.
  unfold before, price_then_title. rewrite key_lt_false, !sort_key_pair. done.
Qed.

Lemma before_price_desc (x y : FetchStock1.item) :
  before FetchStock1.sort_key Z.ltb x y <-> price_desc x y.
Proof. unfold before, price_desc, price1. lia. Qed.

Lemma StronglySorted_iff {A} (R S : A -> A -> Prop) l :
  (forall x y, R x y <-> S x y) -> StronglySorted R l -> StronglySorted S l.
Proof.
  intros H. induction 1 as [|x l Hs IH Hx]; constructor; [done|].
  eapply Forall_impl; [exact Hx|]. intros y. apply H.
Qed.

(** Every URL of the items is kept once. *)
Lemma dedup_items_cover seen l u :
  u ∈ url <$> l -> u ∈ seen \/ u ∈ url <$> dedup_items seen l.
Proof.
  revert seen. induction l as [|x l IH]; intros seen; cbn [dedup_items].
  - rewrite fmap_nil. by intros ?%elem_of_nil.
  - rewrite fmap_cons. intros Hu.
    destruct (decide (url x ∈ seen)) as [Hx|Hx].
    + apply elem_of_cons in Hu as [->|Hu]; [by left | by apply IH].
    + rewrite fmap_cons.
      apply elem_of_cons in Hu as [->|Hu]; [right; by left|].
      destruct (IH ({[url x]} ∪ seen) Hu) as [Hs|Hd]; [|right; by right].
      apply elem_of_union in Hs as [Hs|Hs]; [|by left].
      apply elem_of_singleton in Hs as ->. right. by left.
Qed.

(** * Further facts *)

Import Lang Notions Cases.

(** Words of patterns *)

Lemma str_app_assoc a b c : (a +:+ b) +:+ c = a +:+ (b +:+ c).
Proof. induction a as [|x a IH]; [done|]. by rewrite !app_cons_str, IH. Qed.

Lemma rep_words p lo hi caps prev pos s k res :
  rep p lo hi caps prev pos s k = Some res ->
  exists w s' prev',
    s = w +:+ s' /\ den (Rep p lo hi) w /\
    k (MState prev' (pos + String.length w) s' caps) = Some res.
Proof.
  revert lo hi prev pos. induction s as [|c s IH]; intros lo hi prev pos; simpl.
  - destruct lo; [|done]. intros H. exists EmptyString, EmptyString, prev.
    simpl. rewrite Nat.add_0_r. split_and!; [done..|lia|done].
  - assert (Hstop : match lo with
                    | O => k (MState prev pos (String c s) caps)
                    | S _ => None
                    end = Some res ->
            exists w s' prev',
              String c s = w +:+ s' /\
              (Str.forallb p w = true /\ (lo <= String.length w)%nat /\
               forall h, hi = Some h -> (String.length w <= h)%nat) /\
              k (MState prev' (pos + String.length w) s' caps) = Some res).
    { destruct lo; [|done]. intros H.
      exists EmptyString, (String c s), prev. simpl. rewrite Nat.add_0_r.
      split_and!; [done..|lia|done]. }
    destruct (p c && more hi) eqn:E; [|exact Hstop].
    destruct (rep p (Nat.pred lo) (Nat.pred <$> hi) caps (Some c) (S pos) s k)
      eqn:R; [|exact Hstop].
    intros [= ->]. apply IH in R as (w & s' & prev' & -> & (Hw & Hlo & Hhi) & Hk).
    apply andb_prop in E as [Hc Hm].
    exists (String c w), s', prev'. simpl. rewrite Hc, Hw.
    rewrite <- Nat.add_succ_comm.
    split_and!; [done | done | lia | | done].
    intros h ->. destruct h as [|h]; [done|].
    specialize (Hhi h eq_refl). lia.
Qed.

Lemma caps_of_mono G G' caps :
  G ⊆ G' -> caps_of G caps -> caps_of G' caps.
Proof.
  intros HG H. eapply Forall_impl; [exact H|].
  intros nv (g & Hg & Hd). exists g. split; [|done]. by apply HG.
Qed.

(** The matcher is sound: the continuation is entered after a word of the
    pattern, the groups captured on the way hold words of the groups of the
    pattern, and every group that takes part in every match is among them. *)
Lemma run_words r : forall st k res,
  run r st k = Some res ->
  exists st' w new,
    k st' = Some res /\
    ms_rest st = w +:+ ms_rest st' /\
    ms_pos st' = (ms_pos st + String.length w)%nat /\
    den r w /\
    ms_caps st' = new ++ ms_caps st /\
    caps_of (groups r) new /\
    forall n, binds n r = true -> n ∈ new.*1.
Proof.
  induction r as [|q|r1 IH1 r2 IH2|r1 IH1 r2 IH2|q lo hi|m r IH| | |];
    intros st k res; cbn [run].
  - intros H. exists st, EmptyString, []. rewrite Nat.add_0_r.
    split_and!; try done. constructor.
  - destruct (ms_rest st) as [|c s] eqn:Es; [done|].
    destruct (q c) eqn:Ec; [|done]. intros H.
    eexists _, (String c EmptyString), []. split; [exact H|].
    cbn. split_and!; try done; [lia|by exists c|constructor].
  - intros H.
    apply IH1 in H as (st1 & w1 & new1 & H & Hr1 & Hp1 & Hd1 & Hc1 & Ho1 & Hb1).
    apply IH2 in H as (st2 & w2 & new2 & H & Hr2 & Hp2 & Hd2 & Hc2 & Ho2 & Hb2).
    exists st2, (w1 +:+ w2), (new2 ++ new1). split; [exact H|].
    split_and!.
    + by rewrite Hr1, Hr2, str_app_assoc.
    + rewrite Hp2, Hp1, str_length_app. lia.
    + by exists w1, w2.
    + by rewrite Hc2, Hc1, app_assoc.
    + apply Forall_app. split.
      * eapply caps_of_mono; [|exact Ho2]. cbn. set_solver.
      * eapply caps_of_mono; [|exact Ho1]. cbn. set_solver.
    + intros n. cbn [binds]. rewrite fmap_app, elem_of_app.
      intros [Hn|Hn]%orb_prop; [right; by apply Hb1 | left; by apply Hb2].
  - destruct (run r1 st k) eqn:E.
    + intros [= ->].
      apply IH1 in E as (st1 & w1 & new1 & H & Hr1 & Hp1 & Hd1 & Hc1 & Ho1 & Hb1).
      exists st1, w1, new1. split_and!; try done.
      * by left.
      * eapply caps_of_mono; [|exact Ho1]. cbn. set_solver.
      * intros n [Hn _]%andb_prop. by apply Hb1.
    + intros H.
      apply IH2 in H as (st2 & w2 & new2 & H & Hr2 & Hp2 & Hd2 & Hc2 & Ho2 & Hb2).
      exists st2, w2, new2. split_and!; try done.
      * by right.
      * eapply caps_of_mono; [|exact Ho2]. cbn. set_solver.
      * intros n [_ Hn]%andb_prop. by apply Hb2.
  - intros H. apply rep_words in H as (w & s' & prev' & Hs & Hd & Hk).
    eexists _, w, []. split; [exact Hk|]. cbn.
    split_and!; try done; try apply Hd. constructor.
  - intros H.
    apply IH in H as (st1 & w1 & new1 & H & Hr1 & Hp1 & Hd1 & Hc1 & Ho1 & Hb1).
    eexists _, w1, ((m, w1) :: new1). split; [exact H|]. cbn.
    split_and!; try done.
    + unfold consumed. rewrite Hp1, Hr1.
      replace (ms_pos st + String.length w1 - ms_pos st)%nat
        with (String.length w1) by lia.
      rewrite take_app_length. by rewrite Hc1.
    + constructor.
      * exists r. split; [left|done].
      * eapply caps_of_mono; [|exact Ho1]. set_solver.
    + intros n [Hn|Hn]%orb_prop.
      * apply Nat.eqb_eq in Hn as ->. left.
      * right. by apply Hb1.
  - destruct (at_boundary st); [|done]. intros H.
    exists st, EmptyString, []. rewrite Nat.add_0_r. split_and!; try done. constructor.
  - destruct (ms_prev st); [done|]. intros H.
    exists st, EmptyString, []. rewrite Nat.add_0_r. split_and!; try done. constructor.
  - destruct (at_end (ms_rest st)); [|done]. intros H.
    exists st, EmptyString, []. rewrite Nat.add_0_r. split_and!; try done. constructor.
Qed.

Lemma match_at_words r prev s m :
  match_at r prev s = Some m ->
  den r (m_whole m) /\ Str.startswith (m_whole m) s = true /\
  m_len m = String.length (m_whole m) /\
  caps_of (groups r) (m_caps m) /\
  forall n, binds n r = true -> n ∈ (m_caps m).*1.
Proof.
  unfold match_at. destruct (run _ _ _) as [st|] eqn:E; [|done]. intros [= <-].
  apply run_words in E as (st' & w & new & [= ->] & Hr & Hp & Hd & Hc & Ho & Hb).
  cbn in *. subst s. rewrite Hp, take_app_length, Hc, app_nil_r.
  split_and!; try done. apply startswith_app.
Qed.

Lemma search_from_at r prev s m :
  search_from r prev s = Some m ->
  exists prev' s', match_at r prev' s' = Some m.
Proof.
  revert prev. induction s as [|c s IH]; intros prev; cbn [search_from].
  - destruct (match_at r prev EmptyString) eqn:E; [|done]. intros [= <-]. eauto.
  - destruct (match_at r prev (String c s)) eqn:E; [|apply IH]. intros [= <-]. eauto.
Qed.

Lemma finditer_go_at r skip prev s m :
  m ∈ finditer_go r skip prev s ->
  exists prev' s', match_at r prev' s' = Some m.
Proof.
  revert skip prev. induction s as [|c s IH]; intros skip prev; cbn [finditer_go].
  - by intros ?%elem_of_nil.
  - destruct skip as [|n]; [|apply IH].
    destruct (match_at r prev (String c s)) as [m'|] eqn:E; [|apply IH].
    destruct (m_len m'); [apply IH|].
    intros [->|H]%elem_of_cons; [eauto | by eapply IH].
Qed.

Lemma search_from_suffix r prev s m :
  search_from r prev s = Some m ->
  exists pre prev' s', s = pre +:+ s' /\ match_at r prev' s' = Some m.
Proof.
  revert prev. induction s as [|c s IH]; intros prev; cbn [search_from].
  - destruct (match_at r prev EmptyString) eqn:E; [|done]. intros [= <-].
    by exists EmptyString, prev, EmptyString.
  - destruct (match_at r prev (String c s)) eqn:E.
    + intros [= <-]. by exists EmptyString, prev, (String c s).
    + intros (pre & prev' & s' & -> & H)%IH.
      by exists (String c pre), prev', s'.
Qed.

Lemma finditer_go_suffix r skip prev s m :
  m ∈ finditer_go r skip prev s ->
  exists pre prev' s', s = pre +:+ s' /\ match_at r prev' s' = Some m.
Proof.
  revert skip prev. induction s as [|c s IH]; intros skip prev; cbn [finditer_go].
  - by intros ?%elem_of_nil.
  - assert (Hrec : forall k, m ∈ finditer_go r k (Some c) s ->
              exists pre prev' s',
                String c s = pre +:+ s' /\ match_at r prev' s' = Some m).
    { intros k (pre & prev' & s' & -> & H)%IH. by exists (String c pre), prev', s'. }
    destruct skip as [|n]; [|apply Hrec].
    destruct (match_at r prev (String c s)) as [m'|] eqn:E; [|apply Hrec].
    destruct (m_len m'); [apply Hrec|].
    intros [->|H]%elem_of_cons; [|by eapply Hrec].
    by exists EmptyString, prev, (String c s).
Qed.

(** Parts of a text *)

Lemma startswith_app_l p a b :
  Str.startswith p a = true -> Str.startswith p (a +:+ b) = true.
Proof.
  revert a. induction p as [|c p IH]; intros a; [done|].
  destruct a as [|x a]; [done|]. rewrite app_cons_str. cbn [Str.startswith].
  intros [-> Hp]%andb_prop. by rewrite (IH _ Hp).
Qed.

Lemma contains_app_l p a b :
  Str.contains p a = true -> Str.contains p (a +:+ b) = true.
Proof.
  induction a as [|x a IH].
  - cbn [Str.contains]. rewrite orb_false_r. intros H.
    apply contains_here. by apply (startswith_app_l p EmptyString b).
  - rewrite app_cons_str. cbn [Str.contains].
    intros [H|H]%orb_prop.
    + pose proof (startswith_app_l p (String x a) b H) as H'.
      rewrite app_cons_str in H'. by rewrite H'.
    + rewrite (IH H). apply orb_true_r.
Qed.

Lemma startswith_refl s : Str.startswith s s = true.
Proof. induction s as [|c s IH]; [done|]. cbn. by rewrite Ascii.eqb_refl. Qed.

Lemma contains_refl s : Str.contains s s = true.
Proof. apply contains_here, startswith_refl. Qed.

Lemma contains_empty s : Str.contains EmptyString s = true.
Proof. by destruct s. Qed.

Lemma startswith_length p s :
  Str.startswith p s = true -> (String.length p <= String.length s)%nat.
Proof.
  revert s. induction p as [|c p IH]; intros s; [simpl; lia|].
  destruct s as [|x s]; [done|]. cbn [Str.startswith String.length].
  intros [_ H%IH]%andb_prop. lia.
Qed.

Lemma contains_length p s :
  Str.contains p s = true -> (String.length p <= String.length s)%nat.
Proof.
  induction s as [|c s IH]; cbn [Str.contains].
  - rewrite orb_false_r. apply startswith_length.
  - intros [H|H]%orb_prop; [by apply startswith_length|].
    specialize (IH H). simpl. lia.
Qed.

(** Every text captured on the way is a part of the word matched. *)
Lemma run_inside r : forall st k res,
  run r st k = Some res ->
  exists st' w new,
    k st' = Some res /\
    ms_rest st = w +:+ ms_rest st' /\
    ms_pos st' = (ms_pos st + String.length w)%nat /\
    ms_caps st' = new ++ ms_caps st /\
    Forall (fun nv : nat * string => Str.contains nv.2 w = true) new.
Proof.
  induction r as [|q|r1 IH1 r2 IH2|r1 IH1 r2 IH2|q lo hi|m r IH| | |];
    intros st k res; cbn [run].
  - intros H. exists st, EmptyString, []. rewrite Nat.add_0_r. by split_and!.
  - destruct (ms_rest st) as [|c s] eqn:Es; [done|].
    destruct (q c) eqn:Ec; [|done]. intros H.
    eexists _, (String c EmptyString), []. split; [exact H|].
    cbn. split_and!; try done. lia.
  - intros H.
    apply IH1 in H as (st1 & w1 & new1 & H & Hr1 & Hp1 & Hc1 & Hi1).
    apply IH2 in H as (st2 & w2 & new2 & H & Hr2 & Hp2 & Hc2 & Hi2).
    exists st2, (w1 +:+ w2), (new2 ++ new1). split; [exact H|].
    split_and!.
    + by rewrite Hr1, Hr2, str_app_assoc.
    + rewrite Hp2, Hp1, str_length_app. lia.
    + by rewrite Hc2, Hc1, app_assoc.
    + apply Forall_app. split.
      * eapply Forall_impl; [exact Hi2|]. intros nv. apply contains_app_r.
      * eapply Forall_impl; [exact Hi1|]. intros nv. apply contains_app_l.
  - destruct (run r1 st k) eqn:E.
    + intros [= ->]. by apply IH1 in E.
    + apply IH2.
  - intros H. apply rep_words in H as (w & s' & prev' & Hs & Hd & Hk).
    eexists _, w, []. split; [exact Hk|]. cbn. by split_and!.
  - intros H.
    apply IH in H as (st1 & w1 & new1 & H & Hr1 & Hp1 & Hc1 & Hi1).
    eexists _, w1, ((m, w1) :: new1). split; [exact H|]. cbn.
    split_and!; try done.
    + unfold consumed. rewrite Hp1, Hr1.
      replace (ms_pos st + String.length w1 - ms_pos st)%nat
        with (String.length w1) by lia.
      rewrite take_app_length. by rewrite Hc1.
    + constructor; [apply contains_refl | done].
  - destruct (at_boundary st); [|done]. intros H.
    exists st, EmptyString, []. rewrite Nat.add_0_r. by split_and!.
  - destruct (ms_prev st); [done|]. intros H.
    exists st, EmptyString, []. rewrite Nat.add_0_r. by split_and!.
  - destruct (at_end (ms_rest st)); [|done]. intros H.
    exists st, EmptyString, []. rewrite Nat.add_0_r. by split_and!.
Qed.

Lemma cap_inside n caps w :
  Forall (fun nv : nat * string => Str.contains nv.2 w = true) caps ->
  Str.contains (cap n caps) w = true.
Proof.
  induction 1 as [|[i v] caps Hv _ IH]; cbn [cap]; [apply contains_empty|].
  by destruct (Nat.eqb i n).
Qed.

Lemma match_at_inside r prev s m n :
  match_at r prev s = Some m -> Str.contains (group n m) s = true.
Proof.
  unfold match_at. destruct (run _ _ _) as [st|] eqn:E; [|done]. intros [= <-].
  apply run_inside in E as (st' & w & new & [= ->] & Hr & Hp & Hc & Hi).
  cbn in *. subst s. rewrite Hp, Hc, app_nil_r.
  destruct n as [|n]; cbn [group m_whole m_caps].
  - rewrite take_app_length. apply contains_app_l, contains_refl.
  - apply contains_app_l. by apply cap_inside.
Qed.

Lemma search_inside r s m n :
  search r s = Some m -> Str.contains (group n m) s = true.
Proof.
  intros (pre & prev & s' & -> & H)%search_from_suffix.
  apply contains_app_r. by eapply match_at_inside.
Qed.

Lemma finditer_inside r s m n :
  m ∈ finditer r s -> Str.contains (group n m) s = true.
Proof.
  intros (pre & prev & s' & -> & H)%finditer_go_suffix.
  apply contains_app_r. by eapply match_at_inside.
Qed.

Lemma all_chars_spec (P : ascii -> bool) :
  forallb P all_chars = true -> forall c, P c = true.
Proof.
  rewrite forallb_forall. intros H c. apply H.
  unfold all_chars. apply list_elem_of_In, list_elem_of_fmap.
  exists (nat_of_ascii c). split; [by rewrite ascii_nat_embedding|].
  apply elem_of_seq. pose proof (nat_ascii_bounded c). lia.
Qed.

Lemma sub_class_spec p q :
  sub_class p q = true -> forall c, p c = true -> q c = true.
Proof.
  intros H c Hc. apply all_chars_spec with (c := c) in H. by rewrite Hc in H.
Qed.

Lemma den_within q r w :
  within q r = true -> den r w -> Str.forallb q w = true.
Proof.
  revert w. induction r as [|p|r1 IH1 r2 IH2|r1 IH1 r2 IH2|p lo hi|m r IH| | |];
    intros w; cbn [within den]; try (by intros _ ->).
  - intros Hs (c & -> & Hc). simpl. by rewrite (sub_class_spec _ _ Hs c Hc).
  - intros [H1 H2]%andb_prop (w1 & w2 & -> & Hd1 & Hd2).
    specialize (IH1 _ H1 Hd1). specialize (IH2 _ H2 Hd2).
    clear -IH1 IH2. induction w1 as [|c w1 IH]; [done|].
    rewrite app_cons_str. simpl in *. apply andb_prop in IH1 as [-> ?]. by apply IH.
  - intros [H1 H2]%andb_prop [Hd|Hd]; [by apply IH1 | by apply IH2].
  - intros Hs (Hw & _). eapply forallb_impl; [|exact Hw]. by apply sub_class_spec.
  - apply IH.
Qed.

Lemma den_min_len r w : den r w -> (min_len r <= String.length w)%nat.
Proof.
  revert w. induction r as [|p|r1 IH1 r2 IH2|r1 IH1 r2 IH2|p lo hi|m r IH| | |];
    intros w; cbn [min_len den]; try (intros ->; simpl; lia).
  - intros (c & -> & _). simpl. lia.
  - intros (w1 & w2 & -> & Hd1 & Hd2). rewrite str_length_app.
    specialize (IH1 _ Hd1). specialize (IH2 _ Hd2). lia.
  - intros [Hd|Hd]; [specialize (IH1 _ Hd) | specialize (IH2 _ Hd)]; lia.
  - intros (_ & H & _). done.
  - apply IH.
Qed.

Lemma cap_elem n caps :
  n ∈ caps.*1 -> (n, cap n caps) ∈ caps.
Proof.
  induction caps as [|[i v] caps IH]; cbn [cap fmap list_fmap].
  - by intros ?%elem_of_nil.
  - destruct (Nat.eqb_spec i n) as [->|Hne].
    + intros _. left.
    + intros [?|H]%elem_of_cons; [done|]. right. by apply IH.
Qed.

(** The shape of a group read off the pattern. *)
Lemma match_at_group n q l r prev s m :
  group_is n q l r = true ->
  match_at r prev s = Some m -> shaped q l (cap n (m_caps m)).
Proof.
  unfold group_is. intros [Hb Hg]%andb_prop Hm.
  apply match_at_words in Hm as (_ & _ & _ & Ho & Hn).
  specialize (Hn n Hb). apply cap_elem in Hn.
  unfold caps_of in Ho. rewrite Forall_forall in Ho.
  destruct (Ho _ Hn) as (g & Hin & Hd). cbn in Hin, Hd.
  rewrite forallb_forall in Hg. apply list_elem_of_In, Hg in Hin. cbn in Hin.
  rewrite Nat.eqb_refl in Hin. cbn in Hin.
  apply andb_prop in Hin as [Hw Hl]. apply Nat.leb_le in Hl.
  split; [by eapply den_within|]. apply den_min_len in Hd. lia.
Qed.

Lemma search_group n q l r s m :
  group_is n q l r = true ->
  search r s = Some m -> shaped q l (cap n (m_caps m)).
Proof.
  intros Hg (prev & s' & H)%search_from_at. by eapply match_at_group.
Qed.

Lemma finditer_group n q l r s m :
  group_is n q l r = true ->
  m ∈ finditer r s -> shaped q l (cap n (m_caps m)).
Proof.
  intros Hg (prev & s' & H)%finditer_go_at. by eapply match_at_group.
Qed.

(** The shape of the reference codes *)

Lemma str_map_length f s : String.length (Str.map f s) = String.length s.
Proof. induction s as [|c s IH]; simpl; [done | by rewrite IH]. Qed.

Lemma str_map_forallb (p q : ascii -> bool) f s :
  (forall c, p c = true -> q (f c) = true) ->
  Str.forallb p s = true -> Str.forallb q (Str.map f s) = true.
Proof.
  intros H. induction s as [|c s IH]; simpl; [done|].
  intros [Hc Hs]%andb_prop. by rewrite (H _ Hc), IH.
Qed.

(** Upper case: no character is lost, and digits are kept. *)
Lemma upper_length s : (String.length s <= length (Str.upper s))%nat.
Proof.
  induction s as [|c s IH]; [done|]. cbn [Str.upper String.length].
  rewrite length_app.
  assert (1 <= length (Chr.upper c))%nat; [|lia].
  unfold Chr.upper. repeat (destruct (_ : bool)); simpl; lia.
Qed.

Lemma upper_digits s :
  Str.forallb Chr.is_digit s = true -> Str.upper s = Ustr.of_string s.
Proof.
  induction s as [|c s IH]; [done|]. cbn [Str.forallb Str.upper Ustr.of_string].
  intros [Hc Hs]%andb_prop. rewrite (IH Hs). f_equal.
  assert (H : forallb (fun c => implb (Chr.is_digit c)
                                  (bool_decide (Chr.upper c = [Chr.code c])))
                all_chars = true) by (vm_compute; reflexivity).
  apply all_chars_spec with (c := c) in H. rewrite Hc in H.
  by apply bool_decide_eq_true in H as ->.
Qed.

Lemma returns_for_each_in {E A B} (P : B -> Prop) (xs : list A)
    (body : A -> flow E B) :
  (forall x, x ∈ xs -> returns P (body x)) -> returns P (for_each xs body).
Proof.
  induction xs as [|x xs IH]; intros H; simpl; [done|].
  apply returns_then; [apply H; left|]. apply IH. intros y Hy. apply H. by right.
Qed.

Lemma last_numeric_shape url v :
  last_numeric_segment_from_url url = Some v -> shaped Chr.is_digit 5 v.
Proof.
  unfold last_numeric_segment_from_url.
  destruct (search _ url) as [m|] eqn:E; [|done]. intros [= <-].
  eapply search_group; [|exact E]. vm_compute. reflexivity.
Qed.

(** The pieces of a split *)

Lemma rev_app_truthy a b :
  Str.truthy (String.rev_app a b) = Str.truthy a || Str.truthy b.
Proof.
  revert b. induction a as [|c a IH]; intros b; simpl; [done|].
  rewrite IH. simpl. apply orb_true_r.
Qed.

Lemma rev_piece p cur :
  Str.truthy cur = true -> Str.forallb (not_in p) cur = true ->
  piece_ok p (String.rev cur).
Proof.
  intros Ht Hf. unfold String.rev. split.
  - by rewrite rev_app_truthy, Ht.
  - by rewrite rev_app_forallb, Hf.
Qed.

Lemma ends_with_cons p c s :
  ends_with p (String c s) = false ->
  ends_with p s = false /\ (s = EmptyString -> p c = false).
Proof. destruct s; simpl; [by intros -> | done]. Qed.

Lemma split_go_pieces p s : forall prev cur,
  ends_with p s = false ->
  (Str.forallb (not_in p) cur = true ->
   Str.truthy cur = true \/ (Str.truthy s = true /\ starts_with p s = false) ->
   Forall (piece_ok p) (split_go (plus p) O prev cur s)) /\
  (Str.truthy s = true ->
   Forall (piece_ok p) (split_go (plus p) (span p s) prev EmptyString s)).
Proof.
  induction s as [|c s IH]; intros prev cur He.
  - split; [|done]. intros Hf [Ht|[? _]]; [|done]. cbn [split_go].
    constructor; [|constructor]. by apply rev_piece.
  - apply ends_with_cons in He as [He Hlast].
    assert (Hz : forall prev cur,
      Str.forallb (not_in p) cur = true ->
      Str.truthy cur = true \/ (true = true /\ p c = false) ->
      Forall (piece_ok p) (split_go (plus p) 0 prev cur (String c s))).
    { intros prev0 cur0 Hf Hc. cbn [split_go]. rewrite match_at_plus. cbn [span].
      destruct (p c) eqn:Hp.
      - destruct Hc as [Ht|[_ ?]]; [|done].
        constructor; [by apply rev_piece|].
        apply (IH (Some c) EmptyString He).
        destruct s; [by specialize (Hlast eq_refl)|done].
      - apply (IH (Some c) (String c cur0) He).
        + simpl. unfold not_in at 1. by rewrite Hp, Hf.
        + by left. }
    split; [apply Hz|].
    intros _. cbn [span]. destruct (p c) eqn:Hp.
    + cbn [split_go]. apply (IH (Some c) EmptyString He).
      destruct s; [by specialize (Hlast eq_refl)|done].
    + apply Hz; [done | by right].
Qed.

Lemma split_plus_pieces p s :
  starts_with p s = false -> ends_with p s = false ->
  split (plus p) s = [EmptyString] \/ Forall (piece_ok p) (split (plus p) s).
Proof.
  intros Hs He. destruct s as [|c s]; [by left|]. right.
  apply split_go_pieces; [done..|]. by right.
Qed.

(** The segments of the path of a URL: when the path is empty the only
    segment is the empty text; otherwise no segment is empty and none
    holds a slash. *)
Lemma url_parts_segments url :
  url_parts url = [EmptyString] \/ Forall segment (url_parts url).
Proof.
  unfold url_parts, url_path, Str.strip.
  apply (split_plus_pieces is_slash).
  - apply rstrip_starts, lstrip_starts.
  - apply rstrip_ends.
Qed.

Lemma truthy_length s : Str.truthy s = true <-> (0 < String.length s)%nat.
Proof. destruct s; simpl; split; try done; lia. Qed.

(** The title case of a text that is not empty is not empty. *)
Lemma title_from_truthy b s :
  Str.truthy s = true -> Ustr.truthy (Str.title_from b s) = true.
Proof.
  destruct s as [|c s]; [done|]. intros _. cbn [Str.title_from].
  destruct b; [done|].
  by destruct c as [[] [] [] [] [] [] [] []].
Qed.

Lemma sale_index_not_empty i : sale_index [EmptyString] = Some i -> False.
Proof. by vm_compute. Qed.

(** A segment that is found at a position after a marker is not empty. *)
Lemma marked_segment url i j slug :
  sale_index (url_parts url) = Some i -> url_parts url !! j = Some slug ->
  Str.truthy slug = true.
Proof.
  intros E El. destruct (url_parts_segments url) as [H|H].
  - rewrite H in E. by apply sale_index_not_empty in E.
  - rewrite Forall_forall in H. destruct (H slug) as [Ht _]; [|done].
    by eapply list_elem_of_lookup_2.
Qed.

Lemma replace_truthy a b s : Str.truthy (Str.replace a b s) = Str.truthy s.
Proof. by destruct s. Qed.

Lemma parse_location_truthy url a :
  parse_location_from_url url = Some a -> Ustr.truthy a = true.
Proof.
  unfold parse_location_from_url.
  destruct (sale_index (url_parts url)) as [i|] eqn:E; [|done].
  destruct (_ <? _)%nat; [|done].
  destruct (url_parts url !! (i + 2)%nat) as [slug|] eqn:El; [|done].
  intros [= <-]. apply title_from_truthy. rewrite replace_truthy.
  by eapply marked_segment.
Qed.

Lemma area_agrees url a :
  parse_location_from_url url = Some a -> FetchStock1.area_from_url url = Some a.
Proof.
  unfold parse_location_from_url, FetchStock1.area_from_url.
  change (FetchStock1.url_parts url) with (url_parts url).
  destruct (sale_index (url_parts url)) as [i|] eqn:E; [|done].
  destruct (_ <? _)%nat; [|done].
  destruct (url_parts url !! (i + 2)%nat) as [slug|] eqn:El; [|done].
  intros [= <-]. by rewrite (marked_segment _ _ _ _ E El).
Qed.

(** The area of [fetch_stock1.py], in terms of the segments. *)
Lemma area_from_parts url :
  location1_of (FetchStock1.url_parts url) (FetchStock1.area_from_url url).
Proof.
  unfold FetchStock1.area_from_url.
  change (FetchStock1.url_parts url) with (url_parts url).
  destruct (sale_index (url_parts url)) as [i|] eqn:E.
  - assert (Hseg : forall j slug, url_parts url !! j = Some slug ->
                    Str.truthy slug = true).
    { intros j slug. by apply (marked_segment url i). }
    apply sale_index_Some in E as (pre & rest & Hm & <- & _).
    destruct (marker_parts _ _ _ Hm) as [Hlen Hnth].
    destruct (Nat.ltb_spec (length pre + 2) (length (url_parts url)))
      as [Hlt|Hge].
    + destruct rest as [|city [|slug rest]]; simpl in *; try lia.
      replace (length pre + 2)%nat with (length pre + 1 + 1)%nat in * by lia.
      rewrite <- Nat.add_assoc in *. simpl in *.
      pose proof (Hnth 1%nat) as H1. simpl in H1. rewrite H1.
      rewrite (Hseg _ _ H1), area_name_code. by eapply loc1_area.
    + destruct (Nat.ltb_spec (length pre + 1) (length (url_parts url)))
        as [Hlt|Hge'].
      * destruct rest as [|city [|slug rest]]; simpl in *; try lia.
        pose proof (Hnth 0%nat) as H0. simpl in H0. rewrite H0.
        rewrite (Hseg _ _ H0), area_name_code. by eapply loc1_city.
      * destruct rest as [|city rest]; simpl in *; try lia.
        by eapply loc1_last.
  - apply loc1_none. by apply sale_index_None.
Qed.

Lemma property_type_located url t :
  property_type_from_url url = Some t ->
  Str.truthy t = true /\ exists a, parse_location_from_url url = Some a.
Proof.
  unfold property_type_from_url, parse_location_from_url.
  destruct (sale_index (url_parts url)) as [i|] eqn:E; [|done].
  destruct (Nat.ltb_spec (i + 3) (length (url_parts url))) as [Hlt|]; [|done].
  destruct (url_parts url !! (i + 3)%nat) as [ty|] eqn:El; [|done].
  intros [= <-]. split.
  - destruct (url_parts_segments url) as [H|H].
    + rewrite H in E. by apply sale_index_not_empty in E.
    + rewrite Forall_forall in H. destruct (H ty) as [Ht _].
      { by eapply list_elem_of_lookup_2. }
      apply truthy_length. unfold Str.lower. rewrite str_map_length.
      by apply truthy_length.
  - destruct (Nat.ltb_spec (i + 2) (length (url_parts url))) as [_|]; [|lia].
    destruct (lookup_lt_is_Some_2 (url_parts url) (i + 2)%nat) as [slug ->]; [lia|].
    eauto.
Qed.

(** The lists of addresses *)

Local Ltac set_eq_tac :=
  apply set_eq; intros ?;
  rewrite ?elem_of_union, ?elem_of_list_to_set, ?elem_of_cons,
    ?elem_of_singleton, ?elem_of_empty, ?elem_of_nil;
  intuition (subst; auto).

Lemma uniq_app seen a b :
  uniq seen (a ++ b) = uniq seen a ++ uniq (seen ∪ list_to_set a) b.
Proof.
  revert seen. induction a as [|x a IH]; intros seen; simpl.
  - f_equal. set_eq_tac.
  - destruct (decide (x ∈ seen)) as [Hx|Hx].
    + rewrite IH. do 2 f_equal. set_eq_tac.
    + simpl. rewrite IH. do 3 f_equal. set_eq_tac.
Qed.

Lemma list_filter_ext_in {A} (P Q : A -> Prop) `{!forall x, Decision (P x)}
    `{!forall x, Decision (Q x)} (l : list A) :
  (forall x, x ∈ l -> P x <-> Q x) -> filter P l = filter Q l.
Proof.
  induction l as [|x l IH]; intros Hall; [done|].
  rewrite !filter_cons.
  assert (filter P l = filter Q l) as ->.
  { apply IH. intros y Hy. apply Hall. by right. }
  destruct (decide (P x)) as [Hp|Hp], (decide (Q x)) as [Hq|Hq]; try done.
  - destruct Hq. apply Hall; [left|done].
  - destruct Hp. apply Hall; [left|done].
Qed.

Lemma uniq_filter seen b :
  NoDup b -> uniq seen b = filter (fun u => u ∉ seen) b.
Proof.
  revert seen. induction b as [|x b IH]; intros seen Hb; simpl; [done|].
  apply NoDup_cons in Hb as [Hx Hb].
  rewrite filter_cons. destruct (decide (x ∈ seen)) as [Hs|Hs].
  - rewrite decide_False by (intros H; by apply H). by apply IH.
  - rewrite decide_True by done. f_equal. rewrite IH by done.
    apply list_filter_ext_in. intros u Hu.
    rewrite elem_of_union, elem_of_singleton. split.
    + intros Hn Hin. apply Hn. by right.
    + intros Hn [->|Hin]; done.
Qed.

Lemma merge_profile_first a b :
  NoDup a -> NoDup b -> merge a b = a ++ filter (fun u => u ∉ a) b.
Proof.
  intros Ha Hb. unfold merge. rewrite uniq_app.
  rewrite uniq_id by (done || intros; apply not_elem_of_empty). f_equal.
  rewrite uniq_filter by done. apply list_filter_ext_in. intros u _.
  rewrite elem_of_union, elem_of_list_to_set, elem_of_empty. tauto.
Qed.

Section Candidates.
Variable parse : string -> soup.
Variable fetch : nat -> string -> option string.

Lemma extend_new_NoDup collected urls :
  NoDup collected -> NoDup (extend_new collected urls).
Proof.
  revert collected. induction urls as [|u urls IH]; intros collected Hc; simpl;
    [done|].
  destruct (bool_decide_reflect (u ∈ collected)) as [Hu|Hu]; [by apply IH|].
  apply IH. apply NoDup_app. split_and!; [done| |apply NoDup_singleton].
  intros x Hx ->%list_elem_of_singleton. done.
Qed.

Lemma results_loop_NoDup left n url collected :
  NoDup collected -> NoDup (results_loop parse fetch left n url collected).1.
Proof.
  revert n url collected.
  induction left as [|left IH]; intros n url collected Hc; simpl; [done|].
  destruct url as [u|]; [|done].
  destruct (negb (Str.truthy u)); [done|].
  destruct (fetch n u) as [html|]; [|done].
  destruct (negb (Str.truthy html)); [done|].
  pose proof (extend_new_NoDup collected
                (parse_results_for_detail_urls parse html) Hc).
  destruct (find_next_link html) as [nxt|]; [destruct (Str.truthy nxt)|];
    by apply IH.
Qed.

(** Every turn of the loop makes at most one request. *)
Lemma results_loop_count left n url collected :
  (n <= (results_loop parse fetch left n url collected).2 <= n + left)%nat.
Proof.
  revert n url collected.
  induction left as [|left IH]; intros n url collected; simpl; [lia|].
  destruct url as [u|]; [|simpl; lia].
  destruct (negb (Str.truthy u)); [simpl; lia|].
  destruct (fetch n u) as [html|]; [|simpl; lia].
  destruct (negb (Str.truthy html)); [simpl; lia|].
  destruct (find_next_link html) as [nxt|]; [destruct (Str.truthy nxt)|];
    match goal with
    | |- context [results_loop parse fetch left (S n) ?u ?c] =>
        specialize (IH (S n) u c); lia
    end.
Qed.

Lemma results_loop_first left n u collected :
  Str.truthy u = true ->
  (n < (results_loop parse fetch (S left) n (Some u) collected).2)%nat.
Proof.
  intros Hu. cbn [results_loop]. rewrite Hu. cbn [negb].
  destruct (fetch n u) as [html|]; [|simpl; lia].
  destruct (negb (Str.truthy html)); [simpl; lia|].
  destruct (find_next_link html) as [nxt|]; [destruct (Str.truthy nxt)|];
    match goal with
    | |- context [results_loop parse fetch left (S n) ?u ?c] =>
        pose proof (results_loop_count left (S n) u c); lia
    end.
Qed.

Lemma collect_from_results_count n :
  (n < (collect_from_results parse fetch n).2 <= n + MAX_PAGES)%nat.
Proof.
  split; [|apply results_loop_count]. by apply results_loop_first.
Qed.

Lemma collect_from_profile_next n : (collect_from_profile parse fetch n).2 = S n.
Proof.
  unfold collect_from_profile. destruct (fetch n PROFILE_URL) as [html|]; [|done].
  by destruct (negb (Str.truthy html)).
Qed.

Lemma collect_from_profile_NoDup n : NoDup (collect_from_profile parse fetch n).1.
Proof.
  unfold collect_from_profile.
  destruct (fetch n PROFILE_URL) as [html|]; [|constructor].
  destruct (negb (Str.truthy html)); [constructor|]. apply uniq_NoDup.
Qed.

Lemma candidate_urls_eq :
  candidate_urls parse fetch =
  (merge (collect_from_profile parse fetch 0).1
         (collect_from_results parse fetch 1).1,
   (collect_from_results parse fetch 1).2).
Proof.
  unfold candidate_urls.
  pose proof (collect_from_profile_next 0%nat) as Hn.
  destruct (collect_from_profile parse fetch 0) as [p n1]. simpl in Hn. subst n1.
  by destruct (collect_from_results parse fetch 1) as [r n2].
Qed.

(** The records of the detail loop, one for every address. *)
Lemma validator_log_url sp u log log' :
  extract_complete_item_from_detail sp u log = Ok (None, log') ->
  log_url log' = log_url log.
Proof.
  intros H. apply validator_first_failing in H.
  destruct (first_failing sp u) as [c|].
  - destruct H as (_ & _ & Hk). by apply Hk.
  - by destruct H as (it & [= ] & _).
Qed.

Lemma log_url_failed u : log_url (fetch_failed u) = Some u.
Proof. unfold log_url, fetch_failed. by rewrite lookup_insert_eq. Qed.

Lemma perm_snoc_cons {A} (u : A) l : l ++ [u] ≡ₚ u :: l.
Proof. by rewrite Permutation_app_comm. Qed.

Lemma detail_loop_urls l n items0 sk0 items sk :
  detail_loop parse fetch n l items0 sk0 = Ok (items, sk) ->
  (url <$> items) ++ omap log_url sk
  ≡ₚ l ++ (url <$> items0) ++ omap log_url sk0.
Proof.
  revert n items0 sk0. induction l as [|u l IH]; intros n items0 sk0;
    cbn [detail_loop].
  - by intros [= <- <-].
  - assert (Hfail : detail_loop parse fetch (S n) l items0
                      (sk0 ++ [fetch_failed u]) = Ok (items, sk) ->
            (url <$> items) ++ omap log_url sk
            ≡ₚ (u :: l) ++ (url <$> items0) ++ omap log_url sk0).
    { intros H%IH. rewrite H, omap_app. cbn. rewrite log_url_failed.
      rewrite !app_assoc. apply perm_snoc_cons. }
    destruct (fetch n u) as [html|]; [|exact Hfail].
    destruct (negb (Str.truthy html)); [exact Hfail|].
    destruct (extract_complete_item_from_detail _ _ _) as [[[it|] log]|e] eqn:Ev;
      [| |done].
    + apply validator_item in Ev as [Hres _].
      assert (url it = u) as Hu by apply Hres.
      intros H%IH. rewrite H, fmap_app. cbn. rewrite Hu.
      rewrite <- (app_assoc (url <$> items0)). cbn.
      rewrite <- Permutation_middle.
      by rewrite (Permutation_middle l).
    + apply validator_log_url in Ev.
      assert (log_url log = Some u) as Hu.
      { rewrite Ev. unfold log_url. by rewrite lookup_singleton_eq. }
      intros H%IH. rewrite H, omap_app. cbn. rewrite Hu.
      rewrite !app_assoc. apply perm_snoc_cons.
Qed.

Lemma main_records catalog skipped :
  main parse fetch = Ok (catalog, skipped) ->
  (url <$> catalog) ++ omap log_url skipped ≡ₚ (candidate_urls parse fetch).1.
Proof.
  unfold main.
  assert (NoDup (candidate_urls parse fetch).1) as Hnd.
  { rewrite candidate_urls_eq. apply uniq_NoDup. }
  destruct (candidate_urls parse fetch) as [merged n]. simpl in *.
  destruct (detail_loop parse fetch n merged [] []) as [[items sk]|e] eqn:El;
    [|done].
  intros [= <- <-]. apply detail_loop_urls in El. cbn in El.
  rewrite app_nil_r in El. rewrite <- El.
  apply Permutation_app_tail. apply fmap_Permutation.
  unfold finalize. rewrite sort_desc_perm.
  rewrite dedup_items_id; [done| |intros; apply not_elem_of_empty].
  rewrite <- El in Hnd. by apply NoDup_app in Hnd as [? _].
Qed.

End Candidates.

(** Bodies that raise nothing *)

Lemma quiet_then {E A} (a b : flow E A) : quiet a -> quiet b -> quiet (a ;; b).
Proof. by destruct a. Qed.

Lemma quiet_for_each_in {E A B} (xs : list A) (body : A -> flow E B) :
  (forall x, x ∈ xs -> quiet (body x)) -> quiet (for_each xs body).
Proof.
  induction xs as [|x xs IH]; intros H; simpl; [done|].
  apply quiet_then; [apply H; left|]. apply IH. intros y Hy. apply H. by right.
Qed.

Lemma quiet_when {E A} c (b : flow E A) : quiet b -> quiet (when c b).
Proof. by destruct c. Qed.

Lemma fn_quiet {A} (body : flow string (option A)) :
  quiet body -> exists o, fn body = Ok o.
Proof. destruct body; simpl; [eauto..|done]. Qed.

Lemma quiet_call {A B} (r : result A) (k : A -> flow string B) :
  (exists a, r = Ok a) -> (forall a, r = Ok a -> quiet (k a)) ->
  quiet (call r k).
Proof. intros [a ->] H. by apply H. Qed.

(** Numbers within the limit of [int] *)

Lemma filter_length p s : (String.length (Str.filter p s) <= String.length s)%nat.
Proof.
  induction s as [|c s IH]; simpl; [done|]. destruct (p c); simpl; lia.
Qed.

Lemma to_int_money_returns t :
  (String.length t <= Str.MAX_STR_DIGITS)%nat ->
  exists o, to_int_money (Some t) = Ok o.
Proof.
  intros Hl. unfold to_int_money. destruct (negb (Str.truthy t)); [eauto|].
  unfold sub. rewrite sub_go_cls.
  destruct (Str.truthy (Str.filter _ t)) eqn:Ht; [|eauto].
  rewrite int_short; [by eexists|done|].
  pose proof (filter_length Chr.is_digit t). lia.
Qed.

Lemma to_int_returns t :
  (String.length t <= Str.MAX_STR_DIGITS)%nat ->
  exists o, to_int (Some t) = Ok o.
Proof.
  intros Hl. unfold to_int. destruct (negb (Str.truthy t)); [eauto|].
  destruct (search (plus Chr.is_digit) t) as [m|] eqn:E; [|eauto].
  pose proof (search_inside _ _ _ 0 E) as Hin%contains_length.
  unfold search in E. apply search_from_at in E as (prev & s' & E).
  apply match_at_words in E as (Hd%den_min_len & _). cbn in Hd, Hin.
  rewrite int_short; [by eexists| |cbn [group]; lia].
  apply truthy_length. cbn [group]. lia.
Qed.

(** The number of a group of digits of a text within the limit. *)
Lemma group_int_returns n r l s m :
  group_is (S n) Chr.is_digit (S l) r = true -> search r s = Some m ->
  (String.length s <= Str.MAX_STR_DIGITS)%nat ->
  exists z, Str.int (group (S n) m) = Ok z.
Proof.
  intros Hg E Hl.
  pose proof (search_inside _ _ _ (S n) E) as Hin%contains_length.
  apply (search_group _ _ _ _ _ _ Hg) in E as [_ Hlen].
  cbn [group] in *.
  rewrite int_short; [by eexists| |lia].
  apply truthy_length. lia.
Qed.

Lemma extract_price_returns sp :
  short_texts sp -> exists p, extract_price sp (page_text sp) = Ok p.
Proof.
  intros Hs. unfold extract_price. apply fn_quiet.
  assert (Hmoney : forall t (k : option Z -> flow string (option Z)),
            (String.length t <= Str.MAX_STR_DIGITS)%nat ->
            (forall p, quiet (k p)) ->
            quiet (call (to_int_money (Some t)) k)).
  { intros t k Hl Hk. apply quiet_call; [by apply to_int_money_returns | done]. }
  apply quiet_then; [|apply quiet_then; [|apply quiet_then; [|done]]].
  - destruct (select_one sp _) as [n|] eqn:En; [|done].
    unfold content_of. destruct (el_content n) as [c|] eqn:Ec; [|done].
    destruct (Str.truthy c); [|done].
    apply Hmoney; [by eapply Hs, src_content|]. intros p. by apply quiet_when.
  - apply quiet_for_each_in. intros sel _.
    destruct (select_one sp sel) as [n|] eqn:En; [|done].
    apply Hmoney; [by eapply Hs, src_element|]. intros p. by apply quiet_when.
  - destruct (search MONEY_RE (page_text sp)) as [m|] eqn:E; [|done].
    apply Hmoney; [|done].
    pose proof (search_inside _ _ _ 1 E) as Hin%contains_length.
    pose proof (Hs _ (src_text sp)). lia.
Qed.

Lemma beds_jsonld_quiet sp :
  finite_beds sp -> short_texts sp -> quiet (beds_jsonld sp).
Proof.
  intros Hfin Hs. unfold beds_jsonld.
  apply quiet_for_each_in. intros data Hdata.
  apply quiet_for_each_in. intros node Hnode.
  assert (node ∈ jsonld_nodes sp) as Hn.
  { unfold jsonld_nodes. apply list_elem_of_In, in_flat_map.
    exists data. split; by apply list_elem_of_In. }
  apply quiet_for_each_in. intros key Hkey. cbn zeta.
  specialize (Hfin node key).
  destruct (get key node) as [|b|z|f|s|l|kv] eqn:Eg; cbn [int_of_number];
    try done.
  - apply quiet_then; [|done]. by apply quiet_when.
  - apply quiet_then; [|done]. by apply quiet_when.
  - specialize (Hfin f Hn Hkey eq_refl).
    destruct f; try done; cbn [int_of_float]; (apply quiet_then; [|done]);
      by apply quiet_when.
  - apply quiet_then; [done|]. apply quiet_when.
    apply quiet_call; [|done]. apply to_int_returns.
    by eapply Hs, src_json.
Qed.

Lemma beds_cascade_quiet sp :
  finite_beds sp -> short_texts sp -> quiet (beds_cascade sp (page_text sp)).
Proof.
  intros Hfin Hs. unfold beds_cascade.
  pose proof (Hs _ (src_text sp)) as Ht.
  apply quiet_then; [by apply beds_jsonld_quiet|].
  apply quiet_then; [|apply quiet_then].
  - unfold beds_label.
    destruct (search BEDS_LABEL_RE (page_text sp)) as [m|] eqn:E; [|done].
    apply quiet_call; [|done].
    eapply (group_int_returns 1 _ 0); [|exact E|done]. vm_compute. reflexivity.
  - unfold beds_blocks. apply quiet_for_each_in. intros sel _.
    destruct (select_one sp sel) as [n|] eqn:En; [|done].
    apply quiet_call; [apply to_int_returns; by eapply Hs, src_element|].
    by intros [v|] _.
  - unfold beds_word.
    destruct (search BEDS_WORD_RE (page_text sp)) as [m|] eqn:E; [|done].
    apply quiet_call; [|done].
    eapply (group_int_returns 0 _ 0); [|exact E|done]. vm_compute. reflexivity.
Qed.

Lemma extract_beds_returns sp ptype :
  finite_beds sp -> short_texts sp ->
  exists o, extract_beds sp (page_text sp) ptype = Ok o.
Proof.
  intros Hfin Hs. unfold extract_beds. apply fn_quiet.
  apply quiet_then; [by apply beds_cascade_quiet|].
  apply quiet_then; [by apply quiet_when | done].
Qed.

Section Completion.
Variable parse : string -> soup.
Variable fetch : nat -> string -> option string.

Lemma detail_loop_returns l : forall n items sk,
  (forall k u html, fetch k u = Some html ->
     finite_beds (parse html) /\ short_texts (parse html)) ->
  exists r, detail_loop parse fetch n l items sk = Ok r.
Proof.
  induction l as [|u l IH]; intros n items sk Hfin; cbn [detail_loop]; [eauto|].
  destruct (fetch n u) as [html|] eqn:Ef; [|by apply IH].
  destruct (negb (Str.truthy html)); [by apply IH|].
  destruct (Hfin _ _ _ Ef) as [Hf Hs].
  destruct (extract_price_returns (parse html) Hs) as [p Hp].
  destruct (extract_beds_returns (parse html) (ptype_of u) Hf Hs) as [o Ho].
  destruct (validator_returns (parse html) u {["url" := u]} p o Hp Ho)
    as [[[it|] log] ->]; by apply IH.
Qed.

Lemma main_returns :
  (forall k u html, fetch k u = Some html ->
     finite_beds (parse html) /\ short_texts (parse html)) ->
  exists catalog skipped, main parse fetch = Ok (catalog, skipped).
Proof.
  intros Hfin. unfold main. destruct (candidate_urls parse fetch) as [merged n].
  destruct (detail_loop_returns merged n [] [] Hfin) as [[items sk] ->]. eauto.
Qed.

End Completion.

(** A non-finite number of bedrooms *)

Lemma beds_jsonld_raises sp kv rest f :
  iter_jsonld sp = JDict kv :: rest ->
  get "numberOfBedrooms" kv = JFloat f -> finite f = false ->
  exists e, beds_jsonld sp = Raised e /\ e ∈ ["OverflowError"; "ValueError"].
Proof.
  intros Hi Hg Hf. unfold beds_jsonld. rewrite Hi.
  cbn [for_each flatten_json]. rewrite Hg. cbn [int_of_number].
  destruct f as [| | |]; try done; cbn [int_of_float then_].
  - exists "OverflowError". split; [done|]. left.
  - exists "ValueError". split; [done|]. right. left.
Qed.

Lemma validator_raises sp u log kv rest f :
  Forall (fun c => passes sp u c = true) [Ownership; Area; Title; Price] ->
  iter_jsonld sp = JDict kv :: rest ->
  get "numberOfBedrooms" kv = JFloat f -> finite f = false ->
  exists e, extract_complete_item_from_detail sp u log = Exc e /\
            e ∈ ["OverflowError"; "ValueError"].
Proof.
  intros Hp Hi Hg Hf.
  destruct (beds_jsonld_raises sp kv rest f Hi Hg Hf) as (e & He & Hin).
  exists e. split; [|done].
  apply Forall_cons in Hp as [Ho Hp]. apply Forall_cons in Hp as [Ha Hp].
  apply Forall_cons in Hp as [Ht Hp]. apply Forall_cons in Hp as [Hpr _].
  cbn [passes] in *. unfold extract_complete_item_from_detail.
  rewrite Ho. cbn [negb].
  destruct (parse_location_from_url u) as [a|]; [|done]. cbn in Ha. rewrite Ha.
  cbn [negb].
  destruct (extract_title sp) as [t|]; [|done]. cbn in Ht. rewrite Ht. cbn [negb].
  destruct (extract_price sp (page_text sp)) as [[p|]|]; [|done..].
  unfold extract_beds, beds_cascade. by rewrite He.
Qed.

(** First occurrences *)

Lemma dedup_items_first seen l it :
  it ∈ dedup_items seen l <->
  exists pre post, l = pre ++ it :: post /\ (url it ∉ url <$> pre) /\ (url it ∉ seen).
Proof.
  revert seen. induction l as [|x l IH]; intros seen; simpl.
  - split; [by intros ?%elem_of_nil|]. intros (pre & post & H & _). by destruct pre.
  - destruct (decide (url x ∈ seen)) as [Hx|Hx].
    + rewrite IH. split.
      * intros (pre & post & -> & Hp & Hs). exists (x :: pre), post.
        split_and!; [done| |done]. rewrite fmap_cons.
        intros [Heq|?]%elem_of_cons; [|done]. apply Hs. by rewrite Heq.
      * intros (pre & post & Hl & Hp & Hs). destruct pre as [|y pre].
        { simplify_eq/=. done. }
        simplify_eq/=. exists pre, post. split_and!; [done| |done].
        intros Hin. apply Hp. by right.
    + rewrite elem_of_cons, IH. split.
      * intros [->|(pre & post & -> & Hp & Hs)].
        { exists [], l. split_and!; [done| |done]. apply not_elem_of_nil. }
        exists (x :: pre), post. split_and!; [done| |].
        -- rewrite fmap_cons. intros [Heq|?]%elem_of_cons; [|done].
           apply Hs, elem_of_union. left. by apply elem_of_singleton.
        -- intros Hin. apply Hs, elem_of_union. by right.
      * intros (pre & post & Hl & Hp & Hs). destruct pre as [|y pre].
        { simplify_eq/=. by left. }
        simplify_eq/=. right. exists pre, post. split_and!; [done| |].
        -- intros Hin. apply Hp. by right.
        -- intros [Hin|Hin]%elem_of_union; [|done].
           apply elem_of_singleton in Hin. apply Hp. rewrite Hin. left.
Qed.

Lemma stock1_dedup_first seen l it :
  it ∈ FetchStock1.dedup seen l <->
  exists pre post,
    l = pre ++ it :: post /\ Str.truthy (FetchStock1.url it) = true /\
    (FetchStock1.url it ∉ FetchStock1.url <$> pre) /\ (FetchStock1.url it ∉ seen).
Proof.
  revert seen. induction l as [|x l IH]; intros seen; simpl.
  - split; [by intros ?%elem_of_nil|]. intros (pre & post & H & _). by destruct pre.
  - destruct (Str.truthy (FetchStock1.url x)) eqn:Et; cbn [andb].
    2:{ rewrite IH. split.
        - intros (pre & post & -> & Htr & Hp & Hs). exists (x :: pre), post.
          split_and!; [done|done| |done]. rewrite fmap_cons.
          intros [Heq|?]%elem_of_cons; [|done]. congruence.
        - intros (pre & post & Hl & Htr & Hp & Hs). destruct pre as [|y pre].
          { simplify_eq/=. congruence. }
          simplify_eq/=. exists pre, post. split_and!; [done|done| |done].
          intros Hin. apply Hp. by right. }
    destruct (bool_decide_reflect (FetchStock1.url x ∉ seen)) as [Hx|Hx].
    + rewrite elem_of_cons, IH. split.
      * intros [->|(pre & post & -> & Htr & Hp & Hs)].
        { exists [], l. split_and!; [done|done| |done]. apply not_elem_of_nil. }
        exists (x :: pre), post. split_and!; [done|done| |].
        -- rewrite fmap_cons. intros [Heq|?]%elem_of_cons; [|done].
           apply Hs, elem_of_union. left. by apply elem_of_singleton.
        -- intros Hin. apply Hs, elem_of_union. by right.
      * intros (pre & post & Hl & Htr & Hp & Hs). destruct pre as [|y pre].
        { simplify_eq/=. by left. }
        simplify_eq/=. right. exists pre, post. split_and!; [done|done| |].
        -- intros Hin. apply Hp. by right.
        -- intros [Hin|Hin]%elem_of_union; [|done].
           apply elem_of_singleton in Hin. apply Hp. rewrite Hin. left.
    + rewrite IH. split.
      * intros (pre & post & -> & Htr & Hp & Hs). exists (x :: pre), post.
        split_and!; [done|done| |done]. rewrite fmap_cons.
        intros [Heq|?]%elem_of_cons; [|done]. apply Hx. by rewrite <- Heq.
      * intros (pre & post & Hl & Htr & Hp & Hs). destruct pre as [|y pre].
        { simplify_eq/=. done. }
        simplify_eq/=. exists pre, post. split_and!; [done|done| |done].
        intros Hin. apply Hp. by right.
Qed.

(** Absolute addresses *)

Lemma make_abs_id u : Str.startswith "http" u = true -> make_abs u = u.
Proof. unfold make_abs. by intros ->. Qed.

Lemma make_abs_idem u : make_abs (make_abs u) = make_abs u.
Proof. apply make_abs_id, make_abs_http. Qed.

Lemma next_url_make_abs nxt : FetchStock1.next_url nxt = make_abs nxt.
Proof.
  unfold FetchStock1.next_url, make_abs.
  destruct nxt as [|c nxt]; [reflexivity|].
  destruct (Str.startswith "http" (String c nxt)) eqn:Eh.
  - destruct (Ascii.eqb_spec "/" c) as [<-|Hc]; [done|].
    rewrite (startswith_cons "/" EmptyString c nxt).
    apply Ascii.eqb_neq in Hc. by rewrite Hc.
  - rewrite (startswith_cons "/" EmptyString c nxt).
    destruct (Ascii.eqb_spec "/" c) as [<-|Hc]; [done|].
    cbn [andb Str.lstrip]. unfold is_slash.
    destruct (Ascii.eqb_spec c "/") as [->|_]; [done|]. reflexivity.
Qed.

(** Numbers read from a text *)

Lemma filter_truthy p s : Str.truthy (Str.filter p s) = Str.existsb p s.
Proof.
  induction s as [|c s IH]; simpl; [done|]. by destruct (p c).
Qed.

Lemma to_int_money_digits t :
  to_int_money (Some t) =
  if Str.existsb Chr.is_digit t
  then Some <$> Str.int (Str.filter Chr.is_digit t) else Ok None.
Proof.
  unfold to_int_money, sub. rewrite sub_go_cls, filter_truthy.
  destruct t as [|c t]; done.
Qed.

Lemma search_from_plus p prev s :
  search_from (plus p) prev s =
  let t := Str.lstrip (not_in p) s in
  match span p t with
  | O => None
  | S n => Some (RMatch (Str.take (S n) t) [] (S n))
  end.
Proof.
  revert prev. induction s as [|c s IH]; intros prev;
    cbn [search_from]; rewrite match_at_plus; [done|].
  cbn [span Str.lstrip]. unfold not_in at 1 3.
  destruct (p c) eqn:Hp; cbn [negb].
  - cbn [span]. by rewrite Hp.
  - apply IH.
Qed.

Lemma span_lstrip_zero p s :
  span p (Str.lstrip (not_in p) s) = O -> Str.existsb p s = false.
Proof.
  induction s as [|c s IH]; simpl; [done|]. unfold not_in at 1.
  destruct (p c) eqn:Hp; simpl; [by rewrite Hp | done].
Qed.

Lemma span_lstrip_pos p s n :
  span p (Str.lstrip (not_in p) s) = S n -> Str.existsb p s = true.
Proof.
  induction s as [|c s IH]; simpl; [done|]. unfold not_in at 1.
  destruct (p c) eqn:Hp; simpl; [done | exact IH].
Qed.

Lemma to_int_first_run t :
  to_int (Some t) =
  if Str.existsb Chr.is_digit t
  then Some <$> Str.int (first_run Chr.is_digit t) else Ok None.
Proof.
  unfold to_int, search, first_run. rewrite search_from_plus. cbn zeta.
  destruct (span Chr.is_digit (Str.lstrip (not_in Chr.is_digit) t)) as [|n] eqn:E.
  - rewrite (span_lstrip_zero _ _ E). by destruct t.
  - rewrite (span_lstrip_pos _ _ _ E).
    destruct t as [|c t]; [done|]. done.
Qed.

(** The link to the next page *)

Lemma find_next_link_shape html nxt :
  find_next_link html = Some nxt -> shaped (not_in (Ascii.eqb dq)) 1 nxt.
Proof.
  unfold find_next_link.
  destruct (search NEXT_REL_RE html) as [m|] eqn:E1.
  - intros [= <-]. eapply search_group; [|exact E1]. vm_compute. reflexivity.
  - destruct (search NEXT_TEXT_RE html) as [m|] eqn:E2; [|done].
    intros [= <-]. eapply search_group; [|exact E2]. vm_compute. reflexivity.
Qed.

(** The characters [norm_space] keeps *)

Lemma str_filter_app p a b : Str.filter p (a +:+ b) = Str.filter p a +:+ Str.filter p b.
Proof.
  induction a as [|c a IH]; [done|]. rewrite app_cons_str. simpl.
  destruct (p c); [by rewrite app_cons_str, IH | exact IH].
Qed.

Lemma filter_collapse_space b s :
  Str.filter (not_in Chr.is_space) (collapse Chr.is_space " " b s)
  = Str.filter (not_in Chr.is_space) s.
Proof.
  revert b. induction s as [|c s IH]; intros b; [done|].
  cbn [collapse Str.filter]. unfold not_in at 2.
  destruct (Chr.is_space c) eqn:Hc; cbn [negb].
  - destruct b; [apply IH|]. rewrite str_filter_app. rewrite IH. done.
  - cbn [Str.filter]. unfold not_in at 1. rewrite Hc. cbn [negb]. by rewrite IH.
Qed.

Lemma filter_lstrip p s :
  Str.filter (not_in p) (Str.lstrip p s) = Str.filter (not_in p) s.
Proof.
  induction s as [|c s IH]; [done|]. cbn [Str.lstrip Str.filter].
  unfold not_in at 2. destruct (p c) eqn:Hp; cbn [negb]; [exact IH|].
  cbn [Str.filter]. unfold not_in at 1. by rewrite Hp.
Qed.

Lemma filter_rstrip p s :
  Str.filter (not_in p) (Str.rstrip p s) = Str.filter (not_in p) s.
Proof.
  induction s as [|c s IH]; [done|]. cbn [Str.rstrip Str.filter].
  unfold not_in at 2.
  destruct (Str.rstrip p s) as [|d r] eqn:Er.
  - rewrite <- IH. destruct (p c) eqn:Hp; cbn [negb]; [done|].
    cbn [Str.filter]. unfold not_in. by rewrite Hp.
  - rewrite <- IH. cbn [Str.filter]. unfold not_in at 1. done.
Qed.

Lemma norm_space_keeps s :
  Str.filter (not_in Chr.is_space) (norm_space s)
  = Str.filter (not_in Chr.is_space) s.
Proof.
  rewrite norm_space_collapse. unfold Str.strip.
  by rewrite filter_rstrip, filter_lstrip, filter_collapse_space.
Qed.

Lemma filter_none p s : Str.forallb p s = true -> Str.filter (not_in p) s = EmptyString.
Proof.
  induction s as [|c s IH]; simpl; [done|]. unfold not_in at 1.
  intros [-> Hs]%andb_prop. by apply IH.
Qed.

Lemma filter_empty p s :
  Str.filter (not_in p) s = EmptyString -> Str.forallb p s = true.
Proof.
  induction s as [|c s IH]; simpl; [done|]. unfold not_in at 1.
  destruct (p c); simpl; [exact IH | done].
Qed.

Lemma norm_space_empty s :
  norm_space s = EmptyString <-> Str.forallb Chr.is_space s = true.
Proof.
  split.
  - intros H. apply filter_empty. by rewrite <- norm_space_keeps, H.
  - intros H. apply filter_none in H. rewrite <- norm_space_keeps in H.
    apply filter_empty in H.
    destruct (norm_space_shape s) as (Hs & _).
    destruct (norm_space s) as [|c t]; [done|].
    simpl in *. by rewrite Hs in H.
Qed.

(** The words of a text *)

Lemma words_go_collapse b s : forall cur,
  (b = true -> cur = EmptyString) ->
  words_go Chr.is_space cur (collapse Chr.is_space " " b s)
  = words_go Chr.is_space cur s.
Proof.
  revert b. induction s as [|c s IH]; intros b cur Hb; [done|].
  cbn [collapse words_go]. destruct (Chr.is_space c) eqn:Hc.
  - destruct b.
    + rewrite (Hb eq_refl). rewrite IH by done. done.
    + change (" " +:+ collapse Chr.is_space " " true s)
        with (String " " (collapse Chr.is_space " " true s)).
      cbn [words_go]. change (Chr.is_space " ") with true. cbv iota.
      by rewrite IH.
  - cbn [words_go]. rewrite Hc. by apply IH.
Qed.

Lemma words_go_lstrip p s :
  words_go p EmptyString (Str.lstrip p s) = words_go p EmptyString s.
Proof.
  induction s as [|c s IH]; [done|]. cbn [Str.lstrip words_go].
  destruct (p c) eqn:Hp; [exact IH|]. cbn [words_go]. by rewrite Hp.
Qed.

Lemma words_go_cons p cur c s :
  words_go p cur (String c s) =
  if p c then flush cur ++ words_go p EmptyString s
  else words_go p (String c cur) s.
Proof. done. Qed.

Lemma words_go_rstrip p s : forall cur,
  words_go p cur (Str.rstrip p s) = words_go p cur s.
Proof.
  induction s as [|c s IH]; intros cur; [done|]. cbn [Str.rstrip].
  destruct (Str.rstrip p s) as [|d r] eqn:Er.
  - rewrite (words_go_cons p cur c s). destruct (p c) eqn:Hp.
    + rewrite <- IH. cbn. by rewrite app_nil_r.
    + rewrite words_go_cons, Hp. by rewrite <- IH.
  - rewrite !(words_go_cons p cur c). by rewrite !IH.
Qed.

Lemma norm_space_words s :
  words Chr.is_space (norm_space s) = words Chr.is_space s.
Proof.
  rewrite norm_space_collapse. unfold words, Str.strip.
  rewrite words_go_rstrip, words_go_lstrip. by apply words_go_collapse.
Qed.

(** The text of a page without slash *)

Lemma contains_slash_free p s :
  starts_with is_slash p = true -> Str.existsb is_slash s = false ->
  Str.contains p s = false.
Proof.
  destruct p as [|a p]; [done|]. cbn [starts_with]. unfold is_slash at 1.
  intros ->%Ascii.eqb_eq.
  induction s as [|c s IH]; [done|]. cbn [Str.existsb Str.contains Str.startswith].
  intros [Hc Hs]%orb_false_elim. rewrite (IH Hs), orb_false_r.
  unfold is_slash in Hc. rewrite Ascii.eqb_sym, Hc. done.
Qed.

Lemma lower_slash_free s :
  Str.existsb is_slash s = false -> Str.existsb is_slash (Str.lower s) = false.
Proof.
  induction s as [|c s IH]; [done|]. rewrite lower_cons. cbn [Str.existsb].
  intros [Hc Hs]%orb_false_elim. rewrite (IH Hs), orb_false_r.
  assert (H : forallb (fun c => Bool.eqb (is_slash (Chr.lower c)) (is_slash c))
                all_chars = true) by (vm_compute; reflexivity).
  apply all_chars_spec with (c := c) in H. apply Bool.eqb_prop in H. by rewrite H.
Qed.

Lemma text_signal_slash text :
  Str.existsb is_slash text = false ->
  existsb (fun snippet => Str.contains snippet (Str.lower text)) AGENT_URL_SNIPPETS
  || (any_name_is_agent (JStr text)
      && Str.contains "/results/residential/" (Str.lower text)) = false.
Proof.
  intros H%lower_slash_free. unfold AGENT_URL_SNIPPETS. cbn [existsb].
  rewrite !contains_slash_free by done. by rewrite andb_false_r.
Qed.

Lemma ownership_without_text sp text :
  Str.existsb is_slash text = false ->
  verify_agent_ownership sp text = verify_agent_ownership sp EmptyString.
Proof.
  intros H. unfold verify_agent_ownership. cbv zeta.
  rewrite (text_signal_slash text H).
  by rewrite (text_signal_slash EmptyString eq_refl).
Qed.

(** The mappings of a JSON tree *)

Lemma json_nested_ind (P : json -> Prop) :
  P JNull -> (forall b, P (JBool b)) -> (forall z, P (JInt z)) ->
  (forall f, P (JFloat f)) -> (forall s, P (JStr s)) ->
  (forall l, Forall P l -> P (JList l)) ->
  (forall kv, Forall (fun p => P p.2) kv -> P (JDict kv)) ->
  forall j, P j.
Proof.
  intros Hn Hb Hz Hf Hs Hl Hd.
  fix IH 1. intros [|b|z|f|s|l|kv]; [done..| |].
  - apply Hl. induction l as [|x l IHl]; constructor; [apply IH | exact IHl].
  - apply Hd. induction kv as [|[k v] kv IHkv]; constructor; [apply IH | exact IHkv].
Qed.

Lemma flatten_json_subdict d obj : d ∈ flatten_json obj <-> subdict d obj.
Proof.
  split.
  - revert d. induction obj as [|b|z|f|s|l IH|kv IH] using json_nested_ind;
      intros d; cbn [flatten_json]; try (by intros ?%elem_of_nil).
    + intros (v & Hv & Hd)%list_elem_of_In%in_flat_map.
      apply list_elem_of_In in Hv, Hd.
      rewrite Forall_forall in IH. eapply sub_item; [exact Hv|]. by apply IH.
    + intros [->|Hin]%elem_of_cons; [constructor|].
      apply list_elem_of_In, in_flat_map in Hin as ([k v] & Hv & Hd).
      apply list_elem_of_In in Hv, Hd.
      rewrite Forall_forall in IH. eapply sub_value; [exact Hv|].
      by apply (IH (k, v)).
  - induction 1 as [|kv k v Hin Hs IH|l v Hin Hs IH]; cbn [flatten_json].
    + destruct d; left.
    + right. apply list_elem_of_In, in_flat_map. exists (k, v).
      split; by apply list_elem_of_In.
    + apply list_elem_of_In, in_flat_map. exists v.
      split; by apply list_elem_of_In.
Qed.

(** The optional fields of a record of [fetch_stock1.py] *)

Lemma stock1_card_fields c it :
  FetchStock1.extract_from_card c = Ok (Some it) -> sound_fields it.
Proof.
  unfold FetchStock1.extract_from_card.
  intros (price & Hp & (beds & Hb & H)%bind_ok)%bind_ok. revert H.
  intros [= H]. revert H.
  set (url := match FetchStock1.card_anchor c with
              | Some a => _ | None => None end).
  set (title := if negb (truthy_str _) then _ else _).
  destruct url as [u|]; [|done]. destruct title as [t|]; [|done].
  destruct (Str.truthy u && Str.truthy t); [|done]. intros [= <-].
  unfold sound_fields. cbn [FetchStock1.price FetchStock1.beds FetchStock1.ref].
  split_and!.
  - destruct (or_match _ _) as [m|]; [|by injection Hp as <-]. intros z ->.
    by apply (to_int_money_nonneg (Some (group 1 m))).
  - destruct (search FetchStock1.BEDS_RE _) as [m|] eqn:E;
      [|by injection Hb as <-].
    apply fmap_Some_ok in Hb as (a & Ha & ->). intros z [= <-].
    eapply int_nonneg; [|done].
    apply (search_group 1 Chr.is_digit 1) in E as [? _]; [done|].
    vm_compute. reflexivity.
  - intros r. destruct (search FetchStock1.RL_RE _) as [m|] eqn:E1.
    + intros [= <-].
      apply (search_group 1 alnum 4) in E1 as [_ Hl]; [|vm_compute; reflexivity].
      pose proof (upper_length (group 1 m)). cbn [group] in *. lia.
    + destruct (search FetchStock1.WEB_REF_RE _) as [m|] eqn:E2; [|done].
      intros [= <-].
      apply (search_group 1 alnum 4) in E2 as [_ Hl]; [|vm_compute; reflexivity].
      pose proof (upper_length (group 1 m)). cbn [group] in *. lia.
Qed.

Lemma stock1_anchor_fields a : sound_fields (FetchStock1.item_of_anchor a).
Proof. unfold sound_fields, FetchStock1.item_of_anchor. cbn. by split_and!. Qed.

Section Stock1Run.
Variable env : option string.
Variable parse : string -> FetchStock1.soup.
Variable fetch : nat -> string -> option string.

Lemma stock1_main_fields catalog :
  FetchStock1.main env parse fetch = Ok catalog -> Forall sound_fields catalog.
Proof.
  intros H. apply (Stock1Facts.stock1_main_Forall _ _ _ sound_fields) in H.
  - eapply Forall_impl; [exact H|]. by intros it [? _].
  - apply stock1_card_fields.
  - apply stock1_anchor_fields.
Qed.

(** A failed request ends the run of [fetch_stock1.py]. *)
Lemma stock1_pages_loop_fetched left n url all_items out :
  FetchStock1.pages_loop parse fetch (S left) n (Some url) all_items = Ok out ->
  Str.truthy url = true -> is_Some (fetch n url).
Proof.
  cbn [FetchStock1.pages_loop]. intros H Ht. rewrite Ht in H. cbn [negb] in H.
  by destruct (fetch n url).
Qed.

End Stock1Run.

(** Cases of letters *)


Lemma lower_idem t : Str.lower (Str.lower t) = Str.lower t.
Proof.
  induction t as [|c t IH]; [done|]. rewrite !lower_cons, IH. f_equal.
  assert (H : forallb (fun c => Ascii.eqb (Chr.lower (Chr.lower c)) (Chr.lower c))
                all_chars = true) by (vm_compute; reflexivity).
  apply all_chars_spec with (c := c) in H. by apply Ascii.eqb_eq in H.
Qed.

Lemma title_from_no_hyphen b s :
  Str.forallb (not_in (Ascii.eqb "-")) s = true ->
  no_hyphen (Str.title_from b s) = true.
Proof.
  unfold no_hyphen. revert b. induction s as [|c s IH]; intros b; [done|].
  cbn [Str.title_from Str.forallb]. intros [Hc Hs]%andb_prop.
  rewrite forallb_app, (IH _ Hs), andb_true_r.
  assert (H : forallb (fun c => implb (not_in (Ascii.eqb "-") c)
                 (no_hyphen [Chr.code (Chr.lower c)] && no_hyphen (Chr.title c)))
                all_chars = true) by (vm_compute; reflexivity).
  apply all_chars_spec with (c := c) in H. rewrite Hc in H. cbn [implb] in H.
  apply andb_prop in H as [Hl Hu]. by destruct b.
Qed.

Lemma area_name_no_hyphen slug : no_hyphen (area_name slug) = true.
Proof.
  rewrite <- area_name_code. apply title_from_no_hyphen.
  unfold Str.replace.
  apply (str_map_forallb (fun _ => true)); [|by induction slug].
  intros c _. unfold not_in. by destruct (Ascii.eqb_spec c "-") as [->|Hc];
    [|destruct (Ascii.eqb_spec "-" c) as [<-|]].
Qed.

Lemma parse_location_no_hyphen url a :
  parse_location_from_url url = Some a -> no_hyphen a = true.
Proof.
  unfold parse_location_from_url.
  destruct (sale_index (url_parts url)) as [i|]; [|done].
  destruct (_ <? _)%nat; [|done].
  destruct (url_parts url !! (i + 2)%nat) as [slug|]; [|done].
  intros [= <-]. rewrite area_name_code. apply area_name_no_hyphen.
Qed.

Lemma property_type_lower url t :
  property_type_from_url url = Some t -> Str.lower t = t.
Proof.
  unfold property_type_from_url.
  destruct (sale_index (url_parts url)) as [i|]; [|done].
  destruct (_ <? _)%nat; [|done].
  destruct (url_parts url !! (i + 3)%nat) as [ty|]; [|done].
  intros [= <-]. apply lower_idem.
Qed.

(** The type and the number of bedrooms *)

Lemma extract_beds_found sp text t1 t2 b :
  extract_beds sp text t1 = Ok (Some b) -> b <> 0 ->
  extract_beds sp text t2 = Ok (Some b).
Proof.
  unfold extract_beds. destruct (beds_cascade sp text) as [o| |e]; cbn.
  - done.
  - destruct (bool_decide (t1 ∈ TYPES_NO_BEDS)); cbn; [|done].
    by intros [= <-].
  - done.
Qed.

(** Without network *)

Section Offline.
Variable parse : string -> soup.
Variable fetch : nat -> string -> option string.

Lemma results_loop_failed left n u collected :
  Str.truthy u = true -> fetch n u = None ->
  results_loop parse fetch (S left) n (Some u) collected = (collected, S n).
Proof. intros Hu Hf. cbn [results_loop]. by rewrite Hu, Hf. Qed.

Lemma main_no_network :
  (forall n u, fetch n u = None) -> main parse fetch = Ok ([], []).
Proof.
  intros Hf. unfold main. rewrite candidate_urls_eq.
  unfold collect_from_profile, collect_from_results, MAX_PAGES.
  rewrite Hf, results_loop_failed by done. done.
Qed.

End Offline.

Lemma stock1_main_failed env parse fetch :
  fetch 0%nat (FetchStock1.RESULTS_URL env) = None ->
  FetchStock1.main env parse fetch = Exc "RequestException".
Proof.
  intros Hf. unfold FetchStock1.main, FetchStock1.MAX_PAGES.
  assert (FetchStock1.normalize_start_url env (FetchStock1.RESULTS_URL env)
          = FetchStock1.RESULTS_URL env) as ->.
  { unfold FetchStock1.normalize_start_url. by destruct (Str.contains _ _). }
  cbn [FetchStock1.pages_loop].
  change (negb (Str.truthy (FetchStock1.RESULTS_URL env))) with false. cbv iota.
  by rewrite Hf.
Qed.

(** The sort *)

Lemma finalize_perm items : finalize items ≡ₚ dedup_items ∅ items.
Proof. apply sort_desc_perm. Qed.

Lemma finalize_stable items k :
  filter (fun it => sort_key it = k) (finalize items)
  = filter (fun it => sort_key it = k) (dedup_items ∅ items).
Proof. apply sort_desc_stable, key_lt_asym. Qed.

(** The JSON-LD nodes of a page *)

Lemma jsonld_nodes_subdict sp node :
  node ∈ jsonld_nodes sp <->
  exists data, Some data ∈ ld_scripts sp /\ subdict node data.
Proof.
  unfold jsonld_nodes, iter_jsonld. split.
  - intros (data & Hd & Hn)%list_elem_of_In%in_flat_map.
    apply list_elem_of_In in Hd, Hn.
    apply list_elem_of_omap in Hd as (o & Ho & Hid). cbn in Hid. subst o.
    exists data. split; [done|]. by apply flatten_json_subdict.
  - intros (data & Hd & Hs). apply list_elem_of_In, in_flat_map.
    exists data. split; apply list_elem_of_In.
    + apply list_elem_of_omap. by exists (Some data).
    + by apply flatten_json_subdict.
Qed.

Lemma norm_space_truthy s :
  Str.truthy (norm_space s) = Str.existsb (not_in Chr.is_space) s.
Proof.
  rewrite <- filter_truthy, <- norm_space_keeps, filter_truthy.
  destruct (norm_space_shape s) as (Hs & _).
  destruct (norm_space s) as [|c t]; [done|].
  cbn in *. unfold not_in. by rewrite Hs.
Qed.

Lemma candidate_count parse fetch :
  (2 <= (candidate_urls parse fetch).2 <= 1 + MAX_PAGES)%nat.
Proof.
  rewrite candidate_urls_eq. cbn [snd].
  pose proof (collect_from_results_count parse fetch 1). lia.
Qed.

(** A price of zero *)

Lemma call_money_zero t (body : flow string (option Z)) :
  fn (call (to_int_money (Some t)) (fun p => when (truthy_int p) (Return p)) ;;
      body) = Ok (Some 0) ->
  (exists p, to_int_money (Some t) = Ok p /\ truthy_int p = false) /\
  fn body = Ok (Some 0).
Proof.
  destruct (to_int_money (Some t)) as [p|e]; [|done]. cbn [call].
  destruct (truthy_int p) eqn:Ep; cbn [when then_].
  - cbn [fn]. intros [= ->]. done.
  - intros H. split; [by exists p | done].
Qed.

Lemma then_assoc {E A} (a b c : flow E A) : ((a ;; b) ;; c) = (a ;; (b ;; c)).
Proof. by destruct a. Qed.

Lemma for_each_money_zero sp sels (body : flow string (option Z)) :
  fn (for_each sels (fun sel =>
        match select_one sp sel with
        | Some n =>
            call (to_int_money (Some (el_text n))) (fun p =>
            when (truthy_int p) (Return p))
        | None => Continue
        end) ;; body) = Ok (Some 0) ->
  (forall sel n,
     sel ∈ sels -> select_one sp sel = Some n ->
     exists p, to_int_money (Some (el_text n)) = Ok p /\ truthy_int p = false) /\
  fn body = Ok (Some 0).
Proof.
  induction sels as [|s sels IH]; cbn [for_each].
  - intros H. split; [|done]. by intros sel n ?%elem_of_nil.
  - rewrite then_assoc. destruct (select_one sp s) as [n0|] eqn:E0.
    + intros [Hp [Hall H]%IH]%call_money_zero. split; [|done].
      intros sel n [->|Hsel]%elem_of_cons Hn; [|by eapply Hall].
      rewrite E0 in Hn. by injection Hn as <-.
    + intros [Hall H]%IH. split; [|done].
      intros sel n [->|Hsel]%elem_of_cons Hn; [|by eapply Hall].
      by rewrite E0 in Hn.
Qed.

Lemma extract_price_zero sp text :
  extract_price sp text = Ok (Some 0) ->
  (exists m, search MONEY_RE text = Some m /\
             to_int_money (Some (group 1 m)) = Ok (Some 0)) /\
  (forall n c,
     select_one sp "meta[itemprop='price']" = Some n -> content_of n = Some c ->
     exists p, to_int_money (Some c) = Ok p /\ truthy_int p = false) /\
  (forall sel n,
     sel ∈ [".price"; ".property-price"; "[class*='price']"] ->
     select_one sp sel = Some n ->
     exists p, to_int_money (Some (el_text n)) = Ok p /\ truthy_int p = false).
Proof.
  unfold extract_price. intros H.
  assert ((forall n c,
             select_one sp "meta[itemprop='price']" = Some n ->
             content_of n = Some c ->
             exists p, to_int_money (Some c) = Ok p /\ truthy_int p = false) /\
          fn (for_each [".price"; ".property-price"; "[class*='price']"]
                (fun sel =>
                   match select_one sp sel with
                   | Some n =>
                       call (to_int_money (Some (el_text n))) (fun p =>
                       when (truthy_int p) (Return p))
                   | None => Continue
                   end) ;;
              match search MONEY_RE text with
              | Some m => call (to_int_money (Some (group 1 m))) Return
              | None => Continue
              end ;; Return None) = Ok (Some 0)) as [Hmeta H'].
  { revert H. destruct (select_one sp "meta[itemprop='price']") as [n0|].
    - destruct (content_of n0) as [c0|] eqn:Ec0.
      + intros [Hp H]%call_money_zero. split; [|done].
        intros n c [= <-] Hc. rewrite Ec0 in Hc. by injection Hc as <-.
      + intros H. split; [|done]. intros n c [= <-] Hc. by rewrite Ec0 in Hc.
    - intros H. split; [|done]. by intros n c [=]. }
  apply for_each_money_zero in H' as [Hcss Hrest].
  split; [|done].
  destruct (search MONEY_RE text) as [m|]; [|done].
  exists m. split; [done|].
  by destruct (to_int_money (Some (group 1 m))) as [[z|]|e];
    cbn in Hrest; simplify_eq.
Qed.

(** The links to the listings *)

Lemma run_lit_complete p : forall st k,
  Str.startswith p (ms_rest st) = true ->
  exists st', run (lit p) st k = k st'.
Proof.
  induction p as [|c p IH]; intros st k; [by exists st|].
  rewrite run_lit_cons. destruct (ms_rest st) as [|x s]; [done|].
  cbn [Str.startswith]. intros [-> Hs]%andb_prop. by apply IH.
Qed.

Lemma search_from_lit_complete p prev s :
  Str.contains p s = true -> is_Some (search_from (lit p) prev s).
Proof.
  assert (Hhere : forall prev s, Str.startswith p s = true ->
                  is_Some (match_at (lit p) prev s)).
  { intros prev0 s0 H. unfold match_at.
    destruct (run_lit_complete p (MState prev0 O s0 []) Some H) as [st' ->].
    eauto. }
  revert prev. induction s as [|c s IH]; intros prev;
    cbn [Str.contains search_from].
  - rewrite orb_false_r. intros H. destruct (Hhere prev EmptyString H) as [m ->].
    eauto.
  - intros [H|H]%orb_prop.
    + destruct (Hhere prev (String c s) H) as [m ->]. eauto.
    + destruct (match_at (lit p) prev (String c s)); [eauto | by apply IH].
Qed.

Lemma residential_anchors_contains sp :
  residential_anchors sp = residential (anchors sp).
Proof.
  unfold residential_anchors, residential. apply list_filter_ext_in.
  intros h _. split.
  - apply search_from_lit.
  - apply search_from_lit_complete.
Qed.

Lemma omap_fmap_ext {A B} (f : A -> option B) (g : A -> B) (l : list A) :
  (forall x, x ∈ l -> f x = Some (g x)) -> omap f l = g <$> l.
Proof.
  induction l as [|x l IH]; intros H; [done|]. cbn.
  rewrite (H x) by left. cbn. f_equal. apply IH. intros y Hy. apply H. by right.
Qed.

Lemma contains_truthy p s :
  Str.truthy p = true -> Str.contains p s = true -> Str.truthy s = true.
Proof. destruct p, s; cbn; done. Qed.

Section Links.
Variable parse : string -> soup.

Lemma parse_results_links html :
  parse_results_for_detail_urls parse html
  = uniq ∅ (make_abs <$> residential (anchors (parse html))).
Proof.
  unfold parse_results_for_detail_urls. cbv zeta.
  rewrite residential_anchors_contains. f_equal.
  apply omap_fmap_ext. intros h [Hh _]%list_elem_of_filter.
  rewrite (contains_truthy "/results/residential/" h eq_refl Hh). cbn [negb].
  by rewrite make_abs_contains.
Qed.

Lemma parse_profile_links html :
  parse_profile_for_detail_urls parse html
  = uniq ∅ ((make_abs <$> residential (anchors (parse html)))
            ++ jsonld_links (parse html)).
Proof.
  unfold parse_profile_for_detail_urls, jsonld_links. cbv zeta.
  rewrite residential_anchors_contains. f_equal. f_equal.
  apply omap_fmap_ext. intros h [Hh _]%list_elem_of_filter.
  by rewrite (contains_truthy "/results/residential/" h eq_refl Hh).
Qed.

End Links.

(** Where the fields of an item are read *)

Lemma filter_id p s : Str.forallb p s = true -> Str.filter p s = s.
Proof.
  induction s as [|c s IH]; [done|]. cbn [Str.forallb Str.filter].
  intros [-> Hs]%andb_prop. by rewrite (IH Hs).
Qed.

Lemma existsb_truthy p s : Str.existsb p s = true -> Str.truthy s = true.
Proof. by destruct s. Qed.

Lemma written_whole s : Str.truthy s = true -> written s s.
Proof. intros H. split; [done|]. left. apply contains_refl. Qed.

Lemma to_int_money_number t p :
  to_int_money (Some t) = Ok (Some p) ->
  Str.truthy t = true /\ number_of t = Ok p.
Proof.
  rewrite to_int_money_digits.
  destruct (Str.existsb Chr.is_digit t) eqn:E; [|done].
  intros (z & Hz & [= <-])%fmap_Some_ok. split; [|done].
  by eapply existsb_truthy.
Qed.

Lemma to_int_number t b :
  to_int (Some t) = Ok (Some b) ->
  exists raw, written raw t /\ number_of raw = Ok b.
Proof.
  unfold to_int. destruct (negb (Str.truthy t)); [done|].
  destruct (search (plus Chr.is_digit) t) as [m|] eqn:E; [|done].
  intros (z & Hz & [= <-])%fmap_Some_ok. exists (group 0 m).
  pose proof (search_inside _ _ _ 0 E) as Hin.
  pose proof (search_from_plus_whole _ _ _ _ E) as Hd.
  unfold number_of. cbn [group] in *. rewrite (filter_id _ _ Hd).
  split; [|done]. split; [|by left].
  unfold Str.int in Hz. by destruct (Str.truthy (m_whole m)).
Qed.

(** The number of a group of digits. *)
Lemma group_number n r l s m z :
  group_is (S n) Chr.is_digit (S l) r = true -> search r s = Some m ->
  Str.int (group (S n) m) = Ok z ->
  written (group (S n) m) s /\ number_of (group (S n) m) = Ok z.
Proof.
  intros Hg E Hz.
  pose proof (search_inside _ _ _ (S n) E) as Hin.
  apply (search_group _ _ _ _ _ _ Hg) in E as [Hd Hlen].
  cbn [group] in *. unfold number_of. rewrite (filter_id _ _ Hd).
  split; [|done]. split; [|by left]. apply truthy_length. lia.
Qed.

Lemma area_sourced u a : parse_location_from_url u = Some a -> area_found u a.
Proof.
  intros H. pose proof (parse_location_from_parts u) as Hl. rewrite H in Hl.
  inversion Hl as [pre city slug rest Hm| |]; subst.
  by exists pre, city, slug, rest.
Qed.

Lemma title_loop_sourced sp sels o t :
  title_loop sp sels o = Some t -> o = Some t \/ title_found sp t.
Proof.
  revert o. induction sels as [|sel sels IH]; intros o; cbn [title_loop];
    [by left|].
  destruct (select_one sp sel) as [n|] eqn:En; [|apply IH].
  assert (title_found sp
            (norm_space
               match content_of n with
               | Some c => if String.eqb (el_name n) "meta" then c else el_text n
               | None => el_text n
               end)) as Hsrc.
  { unfold content_of. destruct (el_content n) as [c|] eqn:Ec.
    - destruct (Str.truthy c); [|eexists; split; [by eapply src_element|done]].
      destruct (String.eqb (el_name n) "meta").
      + eexists. split; [by eapply src_content | done].
      + eexists. split; [by eapply src_element | done].
    - eexists. split; [by eapply src_element | done]. }
  cbv zeta. destruct (Str.truthy _).
  - intros [= <-]. by right.
  - intros [[= <-]|H]%IH; by right.
Qed.

Lemma title_sourced sp t : extract_title sp = Some t -> title_found sp t.
Proof.
  unfold extract_title.
  destruct (title_loop sp TITLE_SELECTORS None) as [t0|] eqn:E.
  - apply title_loop_sourced in E as [[=]|Hsrc].
    destruct (negb _); [|by intros [= <-]].
    destruct (title_tag sp) as [n|] eqn:En; [|by intros [= <-]].
    intros [= <-]. eexists. split; [by eapply src_title | done].
  - simpl. destruct (title_tag sp) as [n|] eqn:En; [|done].
    intros [= <-]. eexists. split; [by eapply src_title | done].
Qed.

Lemma price_sourced sp p :
  extract_price sp (page_text sp) = Ok (Some p) -> price_found sp p.
Proof.
  unfold extract_price. intros H.
  eapply (fn_returns (fun o => forall p, o = Some p -> price_found sp p)) in H;
    [exact H| |done|done].
  apply returns_then; [|apply returns_then; [|apply returns_then]].
  - destruct (select_one sp _) as [n|] eqn:En; [|done].
    unfold content_of. destruct (el_content n) as [c|] eqn:Ec; [|done].
    destruct (Str.truthy c); [|done].
    apply returns_call. intros o Ho. apply returns_when. intros q ->.
    apply to_int_money_number in Ho as [Ht Hn].
    exists c, c. split_and!; [by eapply src_content | by apply written_whole | done].
  - apply returns_for_each. intros sel.
    destruct (select_one sp sel) as [n|] eqn:En; [|done].
    apply returns_call. intros o Ho. apply returns_when. intros q ->.
    apply to_int_money_number in Ho as [Ht Hn].
    exists (el_text n), (el_text n).
    split_and!; [by eapply src_element | by apply written_whole | done].
  - destruct (search MONEY_RE (page_text sp)) as [m|] eqn:E; [|done].
    apply returns_call. intros o Ho q ->.
    apply to_int_money_number in Ho as [Ht Hn].
    exists (page_text sp), (group 1 m).
    split_and!; [apply src_text | | done].
    split; [done|]. left. by eapply search_inside.
  - done.
Qed.

Lemma beds_cascade_sourced sp :
  returns (fun o => forall b, o = Some b -> beds_found sp b)
          (beds_cascade sp (page_text sp)).
Proof.
  unfold beds_cascade.
  apply returns_then; [|apply returns_then; [|apply returns_then]].
  - unfold beds_jsonld. apply returns_for_each_in. intros data Hdata.
    apply returns_for_each_in. intros node Hnode.
    assert (node ∈ jsonld_nodes sp) as Hn.
    { unfold jsonld_nodes. apply list_elem_of_In, in_flat_map.
      exists data. split; by apply list_elem_of_In. }
    apply returns_for_each_in. intros key Hkey. cbv zeta.
    apply returns_then.
    + destruct (int_of_number (get key node)) as [[z| |e]|] eqn:Ei; try done.
      apply returns_when. intros b [= <-]. right. by exists node, key.
    + destruct (get key node) as [| | | |s| |] eqn:Eg; try done.
      apply returns_when. apply returns_call. intros o Ho b ->.
      apply to_int_number in Ho as (raw & Hw & Hr). left.
      exists s, raw. split_and!; [by eapply src_json | done | done].
  - unfold beds_label.
    destruct (search BEDS_LABEL_RE (page_text sp)) as [m|] eqn:E; [|done].
    apply returns_call. intros z Hz b [= <-]. left.
    exists (page_text sp), (group 2 m). split; [apply src_text|].
    eapply (group_number 1 _ 0); [|done..]. vm_compute. reflexivity.
  - unfold beds_blocks. apply returns_for_each. intros sel.
    destruct (select_one sp sel) as [n|] eqn:En; [|done].
    apply returns_call. intros [v|] Hv; [|done]. intros b [= <-].
    apply to_int_number in Hv as (raw & Hw & Hr). left.
    exists (el_text n), raw. split_and!; [by eapply src_element | done | done].
  - unfold beds_word.
    destruct (search BEDS_WORD_RE (page_text sp)) as [m|] eqn:E; [|done].
    apply returns_call. intros z Hz b [= <-]. left.
    exists (page_text sp), (group 1 m). split; [apply src_text|].
    eapply (group_number 0 _ 0); [|done..]. vm_compute. reflexivity.
Qed.

Lemma beds_sourced sp u b :
  extract_beds sp (page_text sp) (ptype_of u) = Ok (Some b) ->
  beds_found sp b \/ beds_by_rule sp u b.
Proof.
  unfold extract_beds, beds_by_rule.
  pose proof (beds_cascade_sourced sp) as Hc.
  destruct (beds_cascade sp (page_text sp)) as [o| |e]; cbn.
  - intros [= ->]. left. by apply Hc.
  - destruct (bool_decide_reflect (ptype_of u ∈ TYPES_NO_BEDS)); cbn; [|done].
    intros [= <-]. by right.
  - done.
Qed.

(** A code of a match: not empty, and a part of the text. *)
Lemma group_written n q l r s m :
  group_is (S n) q (S l) r = true -> search r s = Some m ->
  Str.truthy (group (S n) m) = true /\ Str.contains (group (S n) m) s = true.
Proof.
  intros Hg E. split; [|by eapply search_inside].
  apply (search_group _ _ _ _ _ _ Hg) in E as [_ Hlen].
  apply truthy_length. cbn [group]. lia.
Qed.

Lemma ref_sourced sp u r :
  extract_ref sp (page_text sp) u = Some r -> ref_found sp u r.
Proof.
  unfold extract_ref.
  set (P := fun o : option ustring => forall r, o = Some r -> ref_found sp u r).
  assert (forall body : flow Empty_set (option ustring),
            returns P body -> pure_fn body = Some r -> ref_found sp u r) as Hfn.
  { intros [o| |[]]; simpl; [|done]. intros H ->. by apply H. }
  assert (Hlab : group_is 1 alnum 5 REF_LABELLED_RE = true)
    by (vm_compute; reflexivity).
  assert (Hrl : group_is 1 alnum 5 REF_RL_RE = true)
    by (vm_compute; reflexivity).
  assert (Hnum : group_is 1 Chr.is_digit 5 REF_NUMERIC_RE = true)
    by (vm_compute; reflexivity).
  apply Hfn.
  apply returns_then; [|apply returns_then; [|apply returns_then;
    [|apply returns_then; [|apply returns_then]]]].
  - destruct (search REF_LABELLED_RE (page_text sp)) as [m|] eqn:E; [|done].
    intros ? [= <-]. exists (page_text sp), (group 1 m).
    destruct (group_written 0 _ 4 _ _ _ Hlab E) as [Ht Hc].
    split_and!; [left; apply src_text | split; [done | by left] | done].
  - apply returns_for_each. intros sel.
    destruct (select_one sp sel) as [n|] eqn:En; [|done]. cbv zeta.
    assert (forall m,
              Str.truthy (group 1 m) = true /\
              Str.contains (group 1 m) (norm_space (el_text n)) = true ->
              P (Some (Str.upper (group 1 m)))) as Hin.
    { intros m [Ht Hc] ? [= <-]. exists (el_text n), (group 1 m).
      split_and!; [left; by eapply src_element | split; [done | by right] | done]. }
    destruct (search REF_LABELLED_RE _) as [m|] eqn:E1; cbn [or_match].
    { apply Hin. exact (group_written 0 _ 4 _ _ _ Hlab E1). }
    destruct (search REF_RL_RE _) as [m|] eqn:E2; cbn [or_match].
    { apply Hin. exact (group_written 0 _ 4 _ _ _ Hrl E2). }
    destruct (search REF_NUMERIC_RE _) as [m|] eqn:E3; [|done].
    apply Hin. exact (group_written 0 _ 4 _ _ _ Hnum E3).
  - destruct (search REF_RL_RE (page_text sp)) as [m|] eqn:E; [|done].
    intros ? [= <-]. exists (page_text sp), (group 1 m).
    destruct (group_written 0 _ 4 _ _ _ Hrl E) as [Ht Hc].
    split_and!; [left; apply src_text | split; [done | by left] | done].
  - apply returns_for_each_in. intros m Hm. cbv zeta.
    unfold when. destruct (Str.truthy (group 1 m)) eqn:Ht; [|done].
    intros ? [= <-]. exists (page_text sp), (group 1 m).
    split_and!; [left; apply src_text | | done].
    split; [done|]. left. by eapply finditer_inside.
  - cbv zeta. apply returns_for_each_in. intros m Hm. apply returns_when.
    intros ? [= <-]. exists (page_text sp), (group 1 m).
    pose proof (finditer_group 1 _ _ _ _ _ Hnum Hm) as [Hd Hlen].
    split_and!; [left; apply src_text | | ].
    + split; [|left; by eapply finditer_inside].
      apply truthy_length. cbn [group]. lia.
    + symmetry. by apply upper_digits.
  - intros v Hv. apply fmap_Some in Hv as (raw & Hraw & ->).
    pose proof (last_numeric_shape _ _ Hraw) as [Hd Hlen].
    exists u, raw. split_and!; [by right | | symmetry; by apply upper_digits].
    split; [apply truthy_length; lia|]. left.
    unfold last_numeric_segment_from_url in Hraw.
    destruct (search _ u) as [m|] eqn:E; [|done]. injection Hraw as <-.
    exact (search_inside _ _ _ 1 E).
Qed.

(** Every field of a returned item is read on the page or in the address;
    the number of bedrooms alone may be the default of its rule. *)
Lemma resolved_sourced sp u it : resolved sp u it -> sourced sp u it.
Proof.
  intros (Hu & _ & Ha & Ht & Hp & Hb & Hr & _).
  split_and!; [done| | | | |].
  - by apply area_sourced.
  - by apply title_sourced.
  - by apply price_sourced.
  - by apply beds_sourced.
  - by apply ref_sourced.
Qed.

Section Sources.
Variable parse : string -> soup.
Variable fetch : nat -> string -> option string.

Lemma main_read_from_page catalog skipped it :
  main parse fetch = Ok (catalog, skipped) -> it ∈ catalog ->
  complete it /\ read_from_page parse fetch it.
Proof.
  intros H Hit. destruct (main_catalog _ _ _ _ _ H Hit) as [Hc (n & html & Hf & Hr)].
  split; [done|]. exists n, html. split_and!; [done..|]. by apply resolved_sourced.
Qed.

End Sources.

(** The exceptions of the price *)

Lemma raising_then {E A} (P : E -> Prop) (a b : flow E A) :
  raising P a -> raising P b -> raising P (a ;; b).
Proof. by destruct a. Qed.

Lemma raising_for_each {E A B} (P : E -> Prop) (xs : list A)
    (body : A -> flow E B) :
  (forall x, raising P (body x)) -> raising P (for_each xs body).
Proof.
  intros H. induction xs as [|x xs IH]; simpl; [done|]. by apply raising_then.
Qed.

Lemma to_int_money_raises txt e : to_int_money txt = Exc e -> e = "ValueError".
Proof.
  unfold to_int_money. destruct txt as [t|]; [|done].
  destruct (negb (Str.truthy t)); [done|].
  destruct (Str.truthy _); [|done].
  destruct (Str.int _) as [z|e'] eqn:E; [done|]. intros [= <-].
  by eapply int_raises.
Qed.

Lemma raising_money t (k : option Z -> flow string (option Z)) :
  (forall p, raising (fun e => e = "ValueError") (k p)) ->
  raising (fun e => e = "ValueError") (call (to_int_money (Some t)) k).
Proof.
  intros Hk. destruct (to_int_money (Some t)) as [p|e] eqn:E; cbn; [apply Hk|].
  by eapply to_int_money_raises.
Qed.

(** [extract_price] raises nothing but the [ValueError] of [int]. *)
Lemma extract_price_raises sp text e :
  extract_price sp text = Exc e -> e = "ValueError".
Proof.
  unfold extract_price.
  assert (forall body : flow string (option Z),
            raising (fun e => e = "ValueError") body ->
            fn body = Exc e -> e = "ValueError") as Hfn.
  { intros [o| |e']; simpl; [done..|]. by intros -> [= <-]. }
  apply Hfn.
  assert (forall p : option Z,
            raising (E := string) (fun e => e = "ValueError")
              (when (truthy_int p) (Return p))) as Hw.
  { intros p. by destruct (truthy_int p). }
  apply raising_then; [|apply raising_then; [|apply raising_then; [|done]]].
  - destruct (select_one sp _) as [n|]; [|done].
    destruct (content_of n) as [c|]; [|done]. by apply raising_money.
  - apply raising_for_each. intros sel.
    destruct (select_one sp sel) as [n|]; [|done]. by apply raising_money.
  - destruct (search MONEY_RE text) as [m|]; [|done]. by apply raising_money.
Qed.

(** Absolute addresses: [make_abs] leaves alone whatever begins with the
    letters "http", and gives an absolute address otherwise. *)
Lemma make_abs_scheme h :
  absolute (make_abs h) = true \/
  (Str.startswith "http" h = true /\ make_abs h = h).
Proof.
  unfold make_abs. destruct (Str.startswith "http" h) eqn:E; [by right|left].
  unfold absolute. apply orb_true_iff. right.
  destruct (Str.startswith "/" h).
  - by apply (startswith_app_l "https://" "https://www.huizemark.com" h).
  - by apply (startswith_app_l "https://" "https://www.huizemark.com/" h).
Qed.

(** * The properties of the specification *)

(** ** C1: the records of the catalog *)

(** C1 (amended).  Every record of the catalog written by
    [fetch_stock.py] has its six fields resolved: [ref], [title], [url] and
    [area] are non-empty strings, [price] and [beds] are non-negative
    integers.  Every field is the value its extractor gives on the page
    fetched at the record's URL, and none is a default: the area is made
    from the segment two positions after the marker of the URL, the title
    is a text of the page with its whitespace normalised, the price is the
    number written by the digits of a text of the page, the reference is a
    code written in a text of the page or in the URL, in upper case, and
    the number of bedrooms is a number written on the page or a number of
    a JSON-LD node, or else the 0 of the rule of the types without
    bedrooms.  Every record of the catalog written by [fetch_stock1.py]
    has a non-empty [url] and a non-empty [title]; nothing more is
    promised of it. *)
Theorem catalog_records_resolved :
  (forall parse fetch catalog skipped,
     main parse fetch = Ok (catalog, skipped) ->
     Forall (fun it => complete it /\ read_from_page parse fetch it) catalog) /\
  (forall env parse fetch catalog,
     FetchStock1.main env parse fetch = Ok catalog -> Forall named catalog).
Proof.
  split.
  - intros parse fetch catalog skipped H. apply Forall_forall. intros it Hit.
    by eapply main_read_from_page.
  - intros env parse fetch catalog H. apply Forall_forall. intros it Hit.
    by eapply Stock1Facts.stock1_main_named.
Qed.

(** The run on the example site, and the run on the example cards. *)
Lemma catalog_records_resolved_witness :
  Forall (fun it => complete it /\ read_from_page site_parse site_fetch it)
         [house; land] /\
  Forall named
         [FetchStock1.Item (Some (Ustr.of_string "RL12345")) "3 Bedroom House"
            house_url (Some 2500000) (Some 3)
            (Some (Ustr.of_string "Sandton Central"));
          bare_item].
Proof.
  split.
  - apply (proj1 catalog_records_resolved site_parse site_fetch [house; land]
             [ <["property_type" := "flat"]>
                 (<["reason" := "missing_beds_required_for_residential"]>
                    {["url" := flat_url]});
               fetch_failed gone_url ]).
    vm_compute. reflexivity.
  - apply (proj2 catalog_records_resolved None cards_parse cards_fetch).
    vm_compute. reflexivity.
Defined.

(** C1, as stated, fails on [fetch_stock1.py]: the catalog of a run has a
    record without reference, price and number of bedrooms, and the
    catalog of another run has a record whose title is the default
    "Huizemark Property". *)
Lemma stock1_partial_record :
  (exists catalog it,
     FetchStock1.main None cards_parse cards_fetch = Ok catalog /\
     it ∈ catalog /\
     FetchStock1.ref it = None /\ FetchStock1.price it = None /\
     FetchStock1.beds it = None) /\
  (exists catalog it,
     FetchStock1.main None links_parse cards_fetch = Ok catalog /\
     it ∈ catalog /\
     FetchStock1.title it = "Huizemark Property" /\
     FetchStock1.ref it = None /\ FetchStock1.price it = None /\
     FetchStock1.beds it = None).
Proof.
  split.
  - eexists _, bare_item. split; [vm_compute; reflexivity|].
    split; [|done]. apply elem_of_cons. right. apply elem_of_cons. by left.
  - eexists _, _. split; [vm_compute; reflexivity|].
    split; [apply elem_of_cons; by left | done].
Qed.

(** ** C2: the bedroom rule *)

(** C2.  On a page where the four sources of the bedroom cascade give
    nothing: when the type read from the URL is one of the types without
    bedrooms, [extract_beds] returns 0, the beds check passes and a
    rejection of the page, if any, is not for missing beds; otherwise
    [extract_beds] returns nothing, and the validator rejects the page, at
    the beds check or at an earlier one, unless [extract_price] raises the
    [ValueError] of [int].  That exception is not caught: on the page of a
    flat that tells no number of bedrooms and whose price metadata has 4301
    digits, the validator raises where the specification has it reject the
    page. *)
Theorem beds_type_rule :
  (forall sp u log,
     beds_cascade sp (page_text sp) = Continue ->
     if bool_decide (ptype_of u ∈ TYPES_NO_BEDS) then
       extract_beds sp (page_text sp) (ptype_of u) = Ok (Some 0) /\
       passes sp u Beds = true /\
       forall log',
         extract_complete_item_from_detail sp u log = Ok (None, log') ->
         log' !! "reason" <> Some "missing_beds_required_for_residential"
     else
       extract_beds sp (page_text sp) (ptype_of u) = Ok None /\
       ((exists log' c,
           extract_complete_item_from_detail sp u log = Ok (None, log') /\
           first_failing sp u = Some c /\ c <> Ref /\
           log' !! "reason" = Some (reason_of c)) \/
        (extract_complete_item_from_detail sp u log = Exc "ValueError" /\
         extract_price sp (page_text sp) = Exc "ValueError"))) /\
  (beds_cascade long_price_page (page_text long_price_page) = Continue /\
   ptype_of flat_url = "flat" /\
   extract_beds long_price_page (page_text long_price_page) (ptype_of flat_url)
   = Ok None /\
   extract_complete_item_from_detail long_price_page flat_url
     {["url" := flat_url]} = Exc "ValueError").
Proof.
  split; [|vm_compute; done].
  intros sp u log Hc.
  pose proof (extract_beds_no_signal sp _ (ptype_of u) Hc) as Hb.
  destruct (bool_decide (ptype_of u ∈ TYPES_NO_BEDS)).
  - split; [done|]. split; [cbn; by rewrite Hb|].
    intros log' Hout. apply validator_first_failing in Hout.
    destruct (first_failing sp u) as [c|] eqn:Ec.
    + destruct Hout as (_ & Hr' & _). cbn in Hr'. rewrite Hr'. intros [= Hr].
      apply (reason_of_inj c Beds) in Hr as ->.
      apply find_some in Ec as [_ Ec]. cbn in Ec. by rewrite Hb in Ec.
    + by destruct Hout as (it & [=] & _).
  - split; [done|].
    destruct (extract_complete_item_from_detail sp u log) as [out|e] eqn:Hout.
    + left. pose proof (validator_first_failing _ _ _ _ Hout) as Hff.
      assert (passes sp u Beds = false) as Hp by (cbn; by rewrite Hb).
      unfold first_failing, checks in *. cbn [find] in *.
      repeat match type of Hff with
             | context [negb (passes sp u ?c)] =>
                 lazymatch c with
                 | Beds => rewrite Hp in *
                 | _ => destruct (passes sp u c)
                 end; cbn [negb] in *
             end;
        destruct out as [o log']; destruct Hff as (Ho & Hr & _);
        cbn in Ho; subst o; eexists log', _; split_and!; done.
    + right. apply validator_exception in Hout as [Hp|[_ He]].
      * pose proof (extract_price_raises _ _ _ Hp) as ->. done.
      * rewrite Hb in He. done.
Qed.

(** The land page and the flat page: nothing tells a number of bedrooms. *)
Lemma beds_type_rule_witness :
  (beds_cascade land_page (page_text land_page) = Continue /\
   extract_beds land_page (page_text land_page) (ptype_of land_url)
   = Ok (Some 0)) /\
  (beds_cascade flat_page (page_text flat_page) = Continue /\
   extract_beds flat_page (page_text flat_page) (ptype_of flat_url) = Ok None).
Proof.
  assert (Hl : beds_cascade land_page (page_text land_page) = Continue)
    by (vm_compute; reflexivity).
  assert (Hf : beds_cascade flat_page (page_text flat_page) = Continue)
    by (vm_compute; reflexivity).
  split; (split; [done|]).
  - pose proof (proj1 beds_type_rule land_page land_url ∅ Hl) as R.
    destruct (bool_decide (ptype_of land_url ∈ TYPES_NO_BEDS)) eqn:E.
    + exact (proj1 R).
    + vm_compute in E. discriminate E.
  - pose proof (proj1 beds_type_rule flat_page flat_url ∅ Hf) as R.
    destruct (bool_decide (ptype_of flat_url ∈ TYPES_NO_BEDS)) eqn:E.
    + vm_compute in E. discriminate E.
    + exact (proj1 R).
Defined.

(** ** C3: the area *)

(** C3 (amended).  The area is a function of the segments of the URL's
    path alone.  [parse_location_from_url] of [fetch_stock.py] gives the
    segment two positions after the marker segment, with hyphens replaced by
    spaces and in title case (every maximal run of cased characters has
    its first character in title case and the others in lower case), and
    nothing when the path has no marker or no segment two positions after
    it; the marker is the first ["for-sale"] segment or, when no segment
    is ["for-sale"], the first ["to-let"] segment.  [area_from_url] of
    [fetch_stock1.py] gives the same when there is a segment two positions
    after the marker, and otherwise falls back on the segment just after
    the marker, and gives nothing only when there is none.  The segments
    of [http(s)://host/s1/.../sn], with or without a final slash, are
    [s1], ..., [sn]. *)
Theorem area_from_url_path :
  (forall url,
     location_of (url_parts url) (parse_location_from_url url) /\
     (forall a, location_of (url_parts url) a -> a = parse_location_from_url url) /\
     location1_of (FetchStock1.url_parts url) (FetchStock1.area_from_url url) /\
     FetchStock1.url_parts url = url_parts url) /\
  (forall secure host segs trailing,
     segment host -> segs <> [] -> Forall segment segs ->
     url_parts (http_url secure host segs trailing) = segs) /\
  area_name "sandton-central" = Ustr.of_string "Sandton Central".
Proof.
  split; [|split; [apply url_parts_of_path | vm_compute; reflexivity]].
  intros url. split_and!.
  - apply parse_location_from_parts.
  - intros a Ha. eapply location_of_unique; [done|].
    apply parse_location_from_parts.
  - apply area_from_parts.
  - done.
Qed.

(** The segments of a URL of the site. *)
Lemma area_from_url_path_witness :
  url_parts
    (http_url true "www.huizemark.com"
       ["results"; "residential"; "to-let"; "johannesburg"; "sandton-central";
        "flat"; "12345"] true)
  = ["results"; "residential"; "to-let"; "johannesburg"; "sandton-central";
     "flat"; "12345"].
Proof.
  apply (proj1 (proj2 area_from_url_path)).
  - split; vm_compute; reflexivity.
  - discriminate.
  - repeat constructor.
Defined.

(** C3, as stated, fails on [area_from_url]: the path of this URL has no
    segment two positions after ["for-sale"], and the city is returned. *)
Lemma area_fallback_to_city :
  let url := "https://www.huizemark.com/results/residential/for-sale/sandton" in
  FetchStock1.url_parts url = ["results"; "residential"; "for-sale"; "sandton"] /\
  FetchStock1.area_from_url url = Some (Ustr.of_string "Sandton") /\
  ~ location_of (FetchStock1.url_parts url) (FetchStock1.area_from_url url).
Proof.
  cbv zeta. split; [vm_compute; reflexivity|].
  split; [vm_compute; reflexivity|].
  intros H.
  assert (location_of
            (FetchStock1.url_parts
               "https://www.huizemark.com/results/residential/for-sale/sandton")
            None) as Hn.
  { apply (loc_short _ ["results"; "residential"] ["sandton"]); [|simpl; lia].
    left. split; [vm_compute; reflexivity|].
    intros Hin. repeat (apply elem_of_cons in Hin as [Hin|Hin]; [done|]).
    by apply elem_of_nil in Hin. }
  pose proof (location_of_unique _ _ _ H Hn) as E.
  vm_compute in E. discriminate E.
Qed.

(** The example of the specification, a URL without marker, and a slug
    with a letter beyond ASCII: the e with acute accent, U+00E9, is a cased
    character, so that the letter after it stays small. *)
Example area_sandton_central :
  parse_location_from_url
    "https://www.huizemark.com/results/residential/for-sale/johannesburg/sandton-central/house/12345/"
  = Some (Ustr.of_string "Sandton Central") /\
  parse_location_from_url "https://www.huizemark.com/agents/blessing-nsibande/75570/"
  = None /\
  parse_location_from_url
    ("https://www.huizemark.com/results/residential/for-sale/montreal/montr"
     +:+ String "233" "al-nord" +:+ "/house/12345/")
  = Some (Ustr.of_string ("Montr" +:+ String "233" "al Nord")).
Proof. vm_compute. done. Qed.

(** ** C4: the price zero *)

(** C4.  The specification has a price of zero treated as no match; the
    code does not: on the plot page, whose only price is ["R 0"] in the
    text, [extract_price] returns 0 and the validator emits a record of
    price 0.  A zero in the price metadata is passed over, as specified, and
    a page with no other price is rejected with [missing_price]. *)
Theorem price_zero_accepted :
  extract_price plot_page (page_text plot_page) = Ok (Some 0) /\
  extract_complete_item_from_detail plot_page plot_url {["url" := plot_url]}
  = Ok (Some (Listing (Ustr.of_string "AB12348") "Plot in Sandton Central"
                      plot_url 0 0 (Ustr.of_string "Sandton Central")),
        {["url" := plot_url]}) /\
  extract_price plot_page_meta (page_text plot_page_meta) = Ok None /\
  extract_complete_item_from_detail plot_page_meta plot_url {["url" := plot_url]}
  = Ok (None, <["reason" := "missing_price"]> {["url" := plot_url]}).
Proof. vm_compute. done. Qed.

(** ** C5: the outcome of the validator *)

(** C5 (amended).  When the validator does not raise, its outcome is a
    complete item or a rejection whose reason is that of the first failing
    check, the checks being, in this order, ownership
    ([not_owned_by_agent_75570]), area ([missing_area]), title
    ([missing_title]), price ([missing_price]), beds
    ([missing_beds_required_for_residential]) and ref ([missing_ref]); the
    skip log is otherwise left as it was.  The records of the skipped pages
    of a run have one of these six reasons or [detail_fetch_failed], which
    the crawl loop records when a page cannot be fetched. *)
Theorem validator_first_failing_reason :
  (forall sp u log out,
     extract_complete_item_from_detail sp u log = Ok out ->
     match first_failing sp u with
     | None => exists it, out = (Some it, log) /\ resolved sp u it
     | Some c =>
         out.1 = None /\ out.2 !! "reason" = Some (reason_of c) /\
         forall k, k <> "reason" -> k <> "property_type" ->
                   out.2 !! k = log !! k
     end) /\
  (forall parse fetch catalog skipped,
     main parse fetch = Ok (catalog, skipped) ->
     Forall (has_reason reasons) skipped).
Proof. split; [apply validator_first_failing | apply main_skipped]. Qed.

(** The house page passes every check; the skip log of the run on the
    example site. *)
Lemma validator_first_failing_reason_witness :
  (exists it,
     (Some house, ({["url" := house_url]} : gmap string string))
     = (Some it, {["url" := house_url]}) /\
     resolved house_page house_url it) /\
  Forall (has_reason reasons)
    [ <["property_type" := "flat"]>
        (<["reason" := "missing_beds_required_for_residential"]>
           {["url" := flat_url]});
      fetch_failed gone_url ].
Proof.
  split.
  - assert (H : extract_complete_item_from_detail house_page house_url
                  {["url" := house_url]}
                = Ok (Some house, {["url" := house_url]}))
      by (vm_compute; reflexivity).
    pose proof (proj1 validator_first_failing_reason _ _ _ _ H) as R.
    destruct (first_failing house_page house_url) eqn:E.
    + vm_compute in E. discriminate E.
    + exact R.
  - apply (proj2 validator_first_failing_reason site_parse site_fetch
             [house; land]).
    vm_compute. reflexivity.
Defined.

(** C5, as stated, fails on the reason of the ownership check: the code
    writes [not_owned_by_agent_75570], which is none of the listed
    reasons. *)
Lemma ownership_reason_names_agent :
  exists log,
    extract_complete_item_from_detail foreign_page house_url
      {["url" := house_url]} = Ok (None, log) /\
    log !! "reason" = Some "not_owned_by_agent_75570" /\
    ~ has_reason listed_reasons log.
Proof.
  eexists. split; [vm_compute; reflexivity|]. split; [done|].
  intros (r & Hr & Hin). vm_compute in Hr. injection Hr as <-.
  unfold listed_reasons in Hin.
  repeat (apply elem_of_cons in Hin as [Hin|Hin]; [done|]).
  by apply elem_of_nil in Hin.
Qed.

(** ** C6: the labelled reference *)

(** C6.  In a text where the labelled reference [Web Ref: AB12345] is the
    first labelled reference (no match of the labelled pattern begins
    before it) and its digits are not continued, [extract_ref] returns
    [AB12345], whatever else the text holds before or after it, bare
    numbers included, and whatever the document and the URL.  But the
    labelled pattern, unlike the two other patterns of references, has no
    word boundary before its label, and finds the label "reference" inside
    the word "preference": in the text "Buyer preference 654321. Web Ref:
    AB12345", which holds the labelled reference and an unrelated number,
    [extract_ref] returns the number. *)
Theorem extract_ref_prefers_label :
  (forall sp pre post url,
     begins_within REF_LABELLED_RE (String.length pre) None
       (pre +:+ LABEL +:+ post) = false ->
     starts_with Chr.is_digit post = false ->
     extract_ref sp (pre +:+ LABEL +:+ post) url
     = Some (Ustr.of_string "AB12345")) /\
  (preference_text = "Buyer preference 654321. " +:+ LABEL +:+ EmptyString /\
   group 0 <$> search REF_LABELLED_RE preference_text = Some "reference 654321" /\
   forall sp url,
     extract_ref sp preference_text url = Some (Ustr.of_string "654321")).
Proof.
  split.
  - intros sp pre post url Hb Hpost. unfold extract_ref.
    by rewrite search_label.
  - split; [reflexivity|]. split; [vm_compute; reflexivity|].
    intros sp url. unfold extract_ref.
    destruct (search REF_LABELLED_RE preference_text) as [m|] eqn:E;
      vm_compute in E; [|discriminate E].
    injection E as <-. reflexivity.
Qed.

(** A text with a bare number before the label and two after it. *)
Lemma extract_ref_prefers_label_witness :
  extract_ref house_page
    "Stand 654321 in Sandton, preferred area. Web Ref: AB12345 Erf 123456 call 0115550000"
    "https://www.huizemark.com/results/residential/for-sale/a/b/house/777777/"
  = Some (Ustr.of_string "AB12345").
Proof.
  apply (proj1 extract_ref_prefers_label house_page
           "Stand 654321 in Sandton, preferred area. "
           " Erf 123456 call 0115550000").
  - vm_compute. reflexivity.
  - vm_compute. reflexivity.
Defined.

(** With no labelled reference, the bare number is returned. *)
Example extract_ref_bare_number :
  extract_ref house_page "Stand 654321 in Sandton" "https://www.huizemark.com/x"
  = Some (Ustr.of_string "654321").
Proof. vm_compute. reflexivity. Qed.

(** ** C7: the order of the catalog *)

(** C7 (amended).  The catalog of [fetch_stock.py] holds one record for
    each URL of the items, and is sorted in descending order of price,
    records of equal price being in descending order of title.  The
    catalog of [fetch_stock1.py] holds one record for each URL and is
    sorted in descending order of price alone: records of equal price keep
    the order in which they were found. *)
Theorem catalog_order (items : list listing) (items1 : list FetchStock1.item) :
  (StronglySorted price_then_title (finalize items) /\
   NoDup (url <$> finalize items) /\
   (forall u, u ∈ url <$> items <-> u ∈ url <$> finalize items)) /\
  (StronglySorted price_desc (FetchStock1.finalize items1) /\
   NoDup (FetchStock1.url <$> FetchStock1.finalize items1) /\
   (forall k,
      filter (fun it => price1 it = k) (FetchStock1.finalize items1) =
      filter (fun it => price1 it = k) (FetchStock1.dedup ∅ items1))).
Proof.
  split; split_and!.
  - eapply StronglySorted_iff; [apply before_price_then_title|].
    apply finalize_sorted.
  - apply finalize_NoDup.
  - intros u. unfold finalize. rewrite sort_desc_perm. split.
    + intros Hu. by destruct (dedup_items_cover ∅ items u Hu) as [?%elem_of_empty|?].
    + intros (it & -> & [Hit _]%dedup_items_elem)%list_elem_of_fmap.
      apply list_elem_of_fmap. by exists it.
  - eapply StronglySorted_iff; [apply before_price_desc|].
    apply Stock1Facts.stock1_finalize_sorted.
  - apply Stock1Facts.stock1_finalize_NoDup.
  - apply Stock1Facts.stock1_finalize_stable.
Qed.

(** C7, as stated, fails on [fetch_stock1.py], where the title is no
    tie-break: two records of one price come out in the order they came
    in, so that neither order of the titles holds of every catalog. *)
Lemma stock1_title_not_tie_break :
  FetchStock1.finalize [item_a; item_b] = [item_a; item_b] /\
  FetchStock1.finalize [item_b; item_a] = [item_b; item_a] /\
  ~ (forall l, StronglySorted price_then_title_desc (FetchStock1.finalize l)) /\
  ~ (forall l, StronglySorted price_then_title_asc (FetchStock1.finalize l)).
Proof.
  split; [vm_compute; reflexivity|]. split; [vm_compute; reflexivity|].
  split; intros H.
  - specialize (H [item_a; item_b]).
    change (FetchStock1.finalize [item_a; item_b]) with [item_a; item_b] in H.
    apply StronglySorted_inv in H as [_ H]. apply Forall_cons in H as [H _].
    destruct H as [H|[_ H]]; [vm_compute in H; discriminate H|].
    by apply H.
  - specialize (H [item_b; item_a]).
    change (FetchStock1.finalize [item_b; item_a]) with [item_b; item_a] in H.
    apply StronglySorted_inv in H as [_ H]. apply Forall_cons in H as [H _].
    destruct H as [H|[_ H]]; [vm_compute in H; discriminate H|].
    by apply H.
Qed.

(** ** C8: idempotence *)

(** C8.  De-duplicating and sorting the records a second time changes
    nothing, in either script, and neither does de-duplicating the merged
    URLs a second time. *)
Theorem dedup_sort_idempotent (items : list listing) (urls : list string)
    (items1 : list FetchStock1.item) :
  finalize (finalize items) = finalize items /\
  uniq ∅ (uniq ∅ urls) = uniq ∅ urls /\
  merge (merge urls []) [] = merge urls [] /\
  FetchStock1.finalize (FetchStock1.finalize items1) = FetchStock1.finalize items1.
Proof.
  assert (forall l, uniq ∅ (uniq ∅ l) = uniq ∅ l) as Hu.
  { intros l. apply uniq_id; [apply uniq_NoDup|]. intros u _.
    apply not_elem_of_empty. }
  split_and!.
  - apply finalize_idem.
  - apply Hu.
  - unfold merge. rewrite !app_nil_r. apply Hu.
  - apply Stock1Facts.stock1_finalize_idem.
Qed.

(** ** C9: the candidate URLs *)

(** C9.  Every URL handed to the detail loop begins with ["http"] and
    contains ["/results/residential/"], and no URL is handed twice.  It is
    an absolute URL whenever the link it comes from does not begin with
    the letters "http": [make_abs] takes whatever begins with these four
    letters for an absolute URL and leaves it as it is.  On a profile page
    with the relative link "httpdocs/results/residential/...", that link is
    handed to the detail loop as it is, and is not an absolute URL. *)
Theorem candidate_urls_invariant :
  (forall parse fetch,
     Forall detail_url (candidate_urls parse fetch).1 /\
     NoDup (candidate_urls parse fetch).1) /\
  (forall href,
     absolute (make_abs href) = true \/
     (Str.startswith "http" href = true /\ make_abs href = href)) /\
  ((candidate_urls docs_parse docs_fetch).1 = [docs_href] /\
   detail_url docs_href /\ absolute docs_href = false).
Proof.
  split_and!.
  - intros parse fetch. split; [apply candidate_urls_detail|].
    unfold candidate_urls.
    destruct (collect_from_profile parse fetch 0) as [urls_profile n1].
    destruct (collect_from_results parse fetch n1) as [urls_results n2].
    apply uniq_NoDup.
  - apply make_abs_scheme.
  - vm_compute. reflexivity.
  - split; vm_compute; reflexivity.
  - vm_compute. reflexivity.
Qed.

Example candidate_urls_site :
  (candidate_urls site_parse site_fetch).1
  = [house_url; land_url; flat_url; gone_url].
Proof. vm_compute. reflexivity. Qed.

(** A run over two results pages: the second page is found through the
    link of the first, one page is kept and one is of another agent. *)
Example paged_run :
  find_next_link page_one_html = Some "/results/agent/75570/?page=2" /\
  find_next_link page_two_html = None /\
  main paged_parse paged_fetch
  = Ok ([house],
        [ <["reason" := "not_owned_by_agent_75570"]> {["url" := land_url]} ]).
Proof. vm_compute. done. Qed.

(** ** C10: the normal form of [norm_space] *)

(** C10.  [norm_space] is idempotent; its value neither begins nor ends
    with whitespace and has no two whitespace characters side by side; the
    title of every item the validator returns is such a value. *)
Theorem norm_space_normal_form :
  (forall s,
     norm_space (norm_space s) = norm_space s /\ normal (norm_space s)) /\
  (forall sp u log it log',
     extract_complete_item_from_detail sp u log = Ok (Some it, log') ->
     norm_space (title it) = title it /\ normal (title it)).
Proof.
  assert (forall s, normal (norm_space s)) as Hn.
  { intros s. destruct (norm_space_shape s) as (? & ? & ? & _). done. }
  split.
  - intros s. split; [apply norm_space_idem | apply Hn].
  - intros sp u log it log' H. apply validator_item in H as [Hres _].
    destruct Hres as (_ & _ & _ & Ht & _).
    apply extract_title_norm in Ht as [raw ->].
    split; [apply norm_space_idem | apply Hn].
Qed.

(** The title of the house. *)
Lemma norm_space_normal_form_witness :
  norm_space (title house) = title house /\ normal (title house).
Proof.
  apply (proj2 norm_space_normal_form house_page house_url
           {["url" := house_url]} house {["url" := house_url]}).
  vm_compute. reflexivity.
Defined.

Example norm_space_example :
  norm_space (String "009" "  3   Bedroom" +:+ String "010" " House  ")
  = "3 Bedroom House".
Proof. vm_compute. reflexivity. Qed.

(** * Further properties of the code *)

(** ** Addresses *)

(** X1.  [make_abs] always gives an address that begins with ["http"], and
    applying it twice is applying it once. *)
Theorem make_abs_absolute (u : string) :
  Str.startswith "http" (make_abs u) = true /\
  make_abs (make_abs u) = make_abs u.
Proof. split; [apply make_abs_http | apply make_abs_idem]. Qed.

(** X2.  The address of the next page is the same in both scripts: the
    three-way test in [main] of [fetch_stock1.py] gives what [make_abs] of
    [fetch_stock.py] gives, for every link. *)
Theorem next_url_agrees (nxt : string) :
  FetchStock1.next_url nxt = make_abs nxt.
Proof. apply next_url_make_abs. Qed.

(** X5.  The path segments of a URL, as both area readers split it: the
    only segment of an empty path is the empty text; otherwise no segment
    is empty and no segment holds a slash, however many slashes stand
    between two segments or at either end of the path. *)
Theorem url_parts_well_formed (url : string) :
  (url_parts url = [EmptyString] \/ Forall segment (url_parts url)) /\
  FetchStock1.url_parts url = url_parts url.
Proof. split; [apply url_parts_segments | reflexivity]. Qed.

(** X6.  A property type read from a URL is never empty, is in lower case
    already (the second [lower()] of the validator changes nothing), and
    comes with an area: a URL that has a type has an area. *)
Theorem property_type_needs_area (url t : string) :
  property_type_from_url url = Some t ->
  Str.truthy t = true /\ ptype_of url = t /\
  exists a, parse_location_from_url url = Some a.
Proof.
  intros H. destruct (property_type_located url t H) as [Ht Ha].
  split_and!; [done| |done].
  unfold ptype_of. rewrite H. cbn [default]. by eapply property_type_lower.
Qed.

Lemma property_type_needs_area_witness :
  Str.truthy "house" = true /\ ptype_of house_url = "house" /\
  exists a, parse_location_from_url house_url = Some a.
Proof.
  apply (property_type_needs_area house_url "house"). vm_compute. reflexivity.
Defined.

(** The type is lowered as Python lowers it: the capital E with acute
    accent, U+00C9, becomes U+00E9. *)
Example property_type_latin_letters :
  property_type_from_url
    ("https://www.huizemark.com/results/residential/for-sale/a/b/"
     +:+ String "201" "Z" +:+ "/12345/")
  = Some (String "233" "z").
Proof. vm_compute. reflexivity. Qed.

(** X7.  An area read from a URL by [parse_location_from_url] is never the
    empty text, so that the validator's test [not area] fails only on
    [None]; it holds no hyphen; and [area_from_url] of [fetch_stock1.py]
    gives the same area for that URL. *)
Theorem area_never_empty (url : string) (a : ustring) :
  parse_location_from_url url = Some a ->
  Ustr.truthy a = true /\ no_hyphen a = true /\
  FetchStock1.area_from_url url = Some a.
Proof.
  intros H. split_and!.
  - by eapply parse_location_truthy.
  - by eapply parse_location_no_hyphen.
  - by apply area_agrees.
Qed.

Lemma area_never_empty_witness :
  Ustr.truthy (Ustr.of_string "Sandton Central") = true /\
  no_hyphen (Ustr.of_string "Sandton Central") = true /\
  FetchStock1.area_from_url house_url = Some (Ustr.of_string "Sandton Central").
Proof.
  apply (area_never_empty house_url (Ustr.of_string "Sandton Central")).
  vm_compute. reflexivity.
Defined.

(** ** Numbers *)

(** X3.  [to_int_money] reads the digits of the text and nothing else: it
    gives nothing when the text has no digit, it raises [ValueError] when
    the text has more than 4300 digits, and otherwise it gives the number
    written by the digits in their order, which is not negative.
    [to_number] of [fetch_stock1.py] is the same function. *)
Theorem to_int_money_reads_digits (t : string) :
  let digits := Str.filter Chr.is_digit t in
  to_int_money (Some t)
  = (if negb (Str.existsb Chr.is_digit t) then Ok None
     else if (Str.MAX_STR_DIGITS <? String.length digits)%nat
          then Exc "ValueError"
          else Ok (Some (Str.int_acc 0 digits))) /\
  FetchStock1.to_number (Some t) = to_int_money (Some t) /\
  0 <= Str.int_acc 0 digits.
Proof.
  cbv zeta. split_and!; [|reflexivity|].
  - rewrite to_int_money_digits, <- filter_truthy.
    destruct (Str.truthy (Str.filter Chr.is_digit t)) eqn:Ht; [|done].
    cbn [negb]. unfold Str.int. rewrite Ht. cbn [negb orb].
    by destruct (_ <? _)%nat.
  - apply int_acc_nonneg; [done | apply filter_forallb].
Qed.

(** X4.  [to_int] reads the first run of digits of the text: it gives
    nothing when the text has no digit, it raises [ValueError] when the
    run has more than 4300 digits, and otherwise it gives the number the
    run writes. *)
Theorem to_int_reads_first_run (t : string) :
  let run := first_run Chr.is_digit t in
  to_int (Some t)
  = (if negb (Str.existsb Chr.is_digit t) then Ok None
     else if (Str.MAX_STR_DIGITS <? String.length run)%nat
          then Exc "ValueError"
          else Ok (Some (Str.int_acc 0 run))).
Proof.
  cbv zeta. rewrite to_int_first_run.
  destruct (Str.existsb Chr.is_digit t) eqn:E; [|done]. cbn [negb].
  assert (Str.truthy (first_run Chr.is_digit t) = true) as Ht.
  { unfold first_run. cbv zeta.
    destruct (span Chr.is_digit (Str.lstrip (not_in Chr.is_digit) t)) as [|n] eqn:Es.
    - apply span_lstrip_zero in Es. congruence.
    - destruct (Str.lstrip (not_in Chr.is_digit) t); [done|]. done. }
  unfold Str.int. rewrite Ht. cbn [negb orb]. by destruct (_ <? _)%nat.
Qed.

(** The limit is 4300 digits: a number of 4301 digits raises. *)
Example long_number_raises :
  String.length long_number = 4301%nat /\
  to_int_money (Some long_number) = Exc "ValueError" /\
  to_int (Some long_number) = Exc "ValueError" /\
  to_int_money (Some (Str.take 4300 long_number))
  = Ok (Some (Str.int_acc 0 (Str.take 4300 long_number))).
Proof. vm_compute. done. Qed.

(** ** Texts *)

(** X16.  [norm_space] keeps the words of the text: the maximal runs of
    characters that are not whitespace are the same before and after, in
    the same order; so are the characters that are not whitespace; and
    the result is empty exactly when the text is made of whitespace. *)
Theorem norm_space_keeps_words (s : string) :
  words Chr.is_space (norm_space s) = words Chr.is_space s /\
  Str.filter (not_in Chr.is_space) (norm_space s)
  = Str.filter (not_in Chr.is_space) s /\
  Str.truthy (norm_space s) = Str.existsb (not_in Chr.is_space) s.
Proof.
  split_and!; [apply norm_space_words | apply norm_space_keeps
              | apply norm_space_truthy].
Qed.

(** ** The crawl *)

(** X9.  A link found by [find_next_link] is never empty and holds no
    double quote, so that the test [if nxt] of the results loop never
    fails on a link that was found, and the address requested next begins
    with ["http"]. *)
Theorem next_link_not_empty (html nxt : string) :
  find_next_link html = Some nxt ->
  Str.truthy nxt = true /\
  Str.forallb (not_in (Ascii.eqb dq)) nxt = true /\
  Str.startswith "http" (make_abs nxt) = true.
Proof.
  intros [Hq Hl]%find_next_link_shape. split_and!.
  - apply truthy_length. lia.
  - done.
  - apply make_abs_http.
Qed.

Lemma next_link_not_empty_witness :
  Str.truthy "/results/agent/75570/?page=2" = true /\
  Str.forallb (not_in (Ascii.eqb dq)) "/results/agent/75570/?page=2" = true /\
  Str.startswith "http" (make_abs "/results/agent/75570/?page=2") = true.
Proof.
  apply (next_link_not_empty page_one_html). vm_compute. reflexivity.
Defined.

(** X10.  "Merge (profile first)": the candidate URLs are the URLs of the
    profile page, in their order, followed by the URLs of the results
    pages that the profile page does not have, in their order. *)
Theorem profile_urls_first (parse : string -> soup)
    (fetch : nat -> string -> option string) :
  let p := (collect_from_profile parse fetch 0).1 in
  let r := (collect_from_results parse fetch 1).1 in
  (candidate_urls parse fetch).1 = p ++ filter (fun u => u ∉ p) r.
Proof.
  cbv zeta. rewrite candidate_urls_eq. cbn [fst].
  apply merge_profile_first.
  - apply collect_from_profile_NoDup.
  - apply results_loop_NoDup. constructor.
Qed.

(** X11.  The results loop requests at least one page and at most
    [MAX_PAGES] pages and collects no URL twice; with the request of the
    profile page, the collection of the candidate URLs makes between 2
    and 21 requests. *)
Theorem results_pages_bounded (parse : string -> soup)
    (fetch : nat -> string -> option string) (n : nat) :
  NoDup (collect_from_results parse fetch n).1 /\
  (n < (collect_from_results parse fetch n).2 <= n + MAX_PAGES)%nat /\
  (2 <= (candidate_urls parse fetch).2 <= 21)%nat.
Proof.
  split_and!.
  - apply results_loop_NoDup. constructor.
  - apply collect_from_results_count.
  - apply collect_from_results_count.
  - pose proof (candidate_count parse fetch) as H. unfold MAX_PAGES in H. lia.
  - pose proof (candidate_count parse fetch) as H. unfold MAX_PAGES in H. lia.
Qed.

(** X12.  In a run that ends, every candidate URL gives exactly one record:
    the URLs of the catalog together with the URLs of the skip log are the
    candidate URLs, each once.  So the second de-duplication of [main]
    removes nothing, and the two files hold as many records as there are
    candidates. *)
Theorem one_record_per_candidate (parse : string -> soup)
    (fetch : nat -> string -> option string) (catalog : list listing)
    (skipped : list (gmap string string)) :
  main parse fetch = Ok (catalog, skipped) ->
  (url <$> catalog) ++ omap log_url skipped ≡ₚ (candidate_urls parse fetch).1 /\
  (length catalog + length skipped = length (candidate_urls parse fetch).1)%nat.
Proof.
  intros H. pose proof (main_records parse fetch catalog skipped H) as Hp.
  split; [done|].
  assert (length (omap log_url skipped) = length skipped) as Hl.
  { revert H. unfold main. destruct (candidate_urls parse fetch) as [merged n].
    destruct (detail_loop parse fetch n merged [] []) as [[items sk]|e] eqn:El;
      [|done].
    intros [= _ <-].
    assert (Forall (fun log => is_Some (log_url log)) sk) as Hsk.
    { eapply (detail_loop_Forall parse fetch (fun _ => True)
                (fun log => is_Some (log_url log)) merged) in El as [_ Hsk];
        try done.
      intros k u html log _ _ _ Hv. apply validator_log_url in Hv.
      rewrite Hv. unfold log_url. by rewrite lookup_singleton_eq. }
    clear -Hsk. induction Hsk as [|log sk [u Hu] _ IH]; [done|].
    cbn. rewrite Hu. cbn. by rewrite IH. }
  apply Permutation_length in Hp.
  rewrite length_app, length_fmap, Hl in Hp. done.
Qed.

Lemma one_record_per_candidate_witness :
  (url <$> [house; land]) ++
    omap log_url
      [ <["property_type" := "flat"]>
          (<["reason" := "missing_beds_required_for_residential"]>
             {["url" := flat_url]});
        fetch_failed gone_url ]
  ≡ₚ (candidate_urls site_parse site_fetch).1 /\
  (2 + 2 = length (candidate_urls site_parse site_fetch).1)%nat.
Proof.
  apply (one_record_per_candidate site_parse site_fetch [house; land]).
  vm_compute. reflexivity.
Defined.

(** ** Exceptions *)

(** The texts of the example pages are short. *)
Lemma page_short agent heading text :
  (String.length heading <= Str.MAX_STR_DIGITS)%nat ->
  (String.length text <= Str.MAX_STR_DIGITS)%nat ->
  short_texts (page agent heading text).
Proof.
  intros Hh Ht src Hsrc.
  inversion Hsrc as [|sel n Hn|sel n c Hn Hc|n Hn|node key s Hn Hg]; subst;
    cbn in *.
  - done.
  - destruct (String.eqb sel "h1"); [|done]. by injection Hn as <-.
  - destruct (String.eqb sel "h1"); [|done]. by injection Hn as <-.
  - done.
  - by apply elem_of_nil in Hn.
Qed.

Lemma bare_short hrefs :
  short_texts (Soup hrefs [] (fun _ => None) None EmptyString).
Proof.
  intros src Hsrc.
  inversion Hsrc as [|sel n Hn|sel n c Hn Hc|n Hn|node key s Hn Hg]; subst;
    cbn in *; try done.
  - lia.
  - by apply elem_of_nil in Hn.
Qed.

(** X13.  The run of [fetch_stock.py] ends without exception, whatever the
    transport answers, provided that no fetched page has a JSON-LD node
    with a non-finite number of bedrooms or of rooms, and that no text of
    a fetched page has more than 4300 characters, so that no number read
    on it is beyond the limit of [int]. *)
Theorem run_completes (parse : string -> soup)
    (fetch : nat -> string -> option string) :
  (forall k u html, fetch k u = Some html ->
     finite_beds (parse html) /\ short_texts (parse html)) ->
  exists catalog skipped, main parse fetch = Ok (catalog, skipped).
Proof. apply main_returns. Qed.

Lemma run_completes_witness :
  exists catalog skipped, main site_parse site_fetch = Ok (catalog, skipped).
Proof.
  apply (run_completes site_parse site_fetch).
  intros k u html _. split.
  - intros node key f Hn. exfalso. revert Hn. unfold site_parse.
    repeat match goal with
           | |- context [String.eqb html ?s] => destruct (String.eqb html s)
           end;
      vm_compute; by intros ?%elem_of_nil.
  - unfold site_parse.
    repeat match goal with
           | |- context [String.eqb html ?s] => destruct (String.eqb html s)
           end;
      first [ apply bare_short | apply page_short; vm_compute; lia ].
Defined.

(** X14.  On a page that passes the checks of ownership, area, title and
    price, and whose first JSON-LD block is a mapping with a non-finite
    [numberOfBedrooms] ([NaN] or an infinity, which [json.loads] reads),
    the validator raises [ValueError] or [OverflowError]: the page is
    neither accepted nor rejected with a reason. *)
Theorem non_finite_beds_raise (sp : soup) (u : string)
    (log : gmap string string) (kv : dict) (rest : list json) (f : spec_float) :
  Forall (fun c => passes sp u c = true) [Ownership; Area; Title; Price] ->
  iter_jsonld sp = JDict kv :: rest ->
  get "numberOfBedrooms" kv = JFloat f -> finite f = false ->
  exists e, extract_complete_item_from_detail sp u log = Exc e /\
            e ∈ ["OverflowError"; "ValueError"].
Proof. apply validator_raises. Qed.

Lemma non_finite_beds_raise_witness :
  exists e,
    extract_complete_item_from_detail nan_page house_url {["url" := house_url]}
    = Exc e /\ e ∈ ["OverflowError"; "ValueError"].
Proof.
  apply (non_finite_beds_raise nan_page house_url {["url" := house_url]}
           [("@type", JStr "House"); ("numberOfBedrooms", JFloat S754_nan)]
           [] S754_nan).
  - repeat (constructor; [vm_compute; reflexivity|]). constructor.
  - reflexivity.
  - reflexivity.
  - reflexivity.
Defined.

(** X20.  A transport failure is fatal to [fetch_stock1.py] and harmless
    to [fetch_stock.py]: when the first request fails, the earlier script
    ends with the exception and writes nothing; when every request fails,
    the strict script ends with an empty catalog and an empty skip log. *)
Theorem transport_failure :
  (forall env parse fetch,
     fetch 0%nat (FetchStock1.RESULTS_URL env) = None ->
     FetchStock1.main env parse fetch = Exc "RequestException") /\
  (forall parse fetch,
     (forall n u, fetch n u = None) -> main parse fetch = Ok ([], [])).
Proof. split; [apply stock1_main_failed | apply main_no_network]. Qed.

Lemma transport_failure_witness :
  FetchStock1.main None cards_parse no_network = Exc "RequestException" /\
  main site_parse no_network = Ok ([], []).
Proof.
  split.
  - apply (proj1 transport_failure None cards_parse no_network). reflexivity.
  - apply (proj2 transport_failure site_parse no_network). reflexivity.
Defined.

(** ** Records *)

(** X15.  De-duplication keeps first occurrences, in both scripts: a record
    is kept exactly when no record before it in the list has its URL (and,
    in [fetch_stock1.py], its URL is not empty). *)
Theorem dedup_keeps_first :
  (forall (l : list listing) it,
     it ∈ dedup_items ∅ l <->
     exists pre post, l = pre ++ it :: post /\ (url it ∉ url <$> pre)) /\
  (forall (l : list FetchStock1.item) it,
     it ∈ FetchStock1.dedup ∅ l <->
     exists pre post,
       l = pre ++ it :: post /\ Str.truthy (FetchStock1.url it) = true /\
       (FetchStock1.url it ∉ FetchStock1.url <$> pre)).
Proof.
  split.
  - intros l it. rewrite dedup_items_first. split.
    + intros (pre & post & ? & ? & _). eauto.
    + intros (pre & post & ? & ?). exists pre, post.
      split_and!; [done..|]. apply not_elem_of_empty.
  - intros l it. rewrite stock1_dedup_first. split.
    + intros (pre & post & ? & ? & ? & _). eauto.
    + intros (pre & post & ? & ? & ?). exists pre, post.
      split_and!; [done..|]. apply not_elem_of_empty.
Qed.

(** X23.  The sort of [fetch_stock.py] neither loses nor repeats a record:
    the catalog is a rearrangement of the de-duplicated items; and it is
    stable: the records of one price and one title keep their order. *)
Theorem sort_keeps_records (items : list listing) (k : Z * string) :
  finalize items ≡ₚ dedup_items ∅ items /\
  filter (fun it => sort_key it = k) (finalize items)
  = filter (fun it => sort_key it = k) (dedup_items ∅ items).
Proof. split; [apply finalize_perm | apply finalize_stable]. Qed.

(** X19.  In every record of the catalog of [fetch_stock1.py], a price
    and a number of bedrooms, when present, are not negative, and a
    reference, when present, has at least four characters. *)
Theorem stock1_fields_sound (env : option string)
    (parse : string -> FetchStock1.soup)
    (fetch : nat -> string -> option string) (catalog : list FetchStock1.item) :
  FetchStock1.main env parse fetch = Ok catalog -> Forall sound_fields catalog.
Proof. apply stock1_main_fields. Qed.

Lemma stock1_fields_sound_witness :
  Forall sound_fields
    [FetchStock1.Item (Some (Ustr.of_string "RL12345")) "3 Bedroom House"
       house_url (Some 2500000) (Some 3)
       (Some (Ustr.of_string "Sandton Central"));
     bare_item].
Proof.
  apply (stock1_fields_sound None cards_parse cards_fetch).
  vm_compute. reflexivity.
Defined.

(** X21.  [normalize_start_url] of [fetch_stock1.py] gives the address of
    the results, whatever the agent identifier the environment gives, when
    the address holds ["/agents/"], and the address itself otherwise; so
    its result holds ["/agents/"] only when the address of the results
    does, which the identifier of the environment decides; and the run
    starts at the address of the results. *)
Theorem start_url_never_profile (env : option string) (url : string) :
  FetchStock1.normalize_start_url env url
  = (if Str.contains "/agents/" url then FetchStock1.RESULTS_URL env else url) /\
  (Str.contains "/agents/" (FetchStock1.normalize_start_url env url) = true ->
   Str.contains "/agents/" (FetchStock1.RESULTS_URL env) = true) /\
  FetchStock1.normalize_start_url env (FetchStock1.RESULTS_URL env)
  = FetchStock1.RESULTS_URL env /\
  Str.contains "/agents/" (FetchStock1.RESULTS_URL None) = false.
Proof.
  split_and!; [done| | |by vm_compute].
  - unfold FetchStock1.normalize_start_url.
    destruct (Str.contains "/agents/" url) eqn:E; [done | congruence].
  - unfold FetchStock1.normalize_start_url. by destruct (Str.contains _ _).
Qed.

(** With an identifier that holds ["/agents/"], the address of the results
    holds it too. *)
Example start_url_of_environment :
  FetchStock1.RESULTS_URL (Some "75570") = FetchStock1.RESULTS_URL None /\
  FetchStock1.RESULTS_URL (Some "1/agents/2")
  = "https://www.huizemark.com/results/agent/1/agents/2/" /\
  Str.contains "/agents/"
    (FetchStock1.normalize_start_url (Some "1/agents/2")
       "https://www.huizemark.com/agents/blessing-nsibande/75570/") = true.
Proof. vm_compute. done. Qed.

(** ** The validator *)

(** X17.  The JSON-LD nodes of a page are exactly the mappings of the
    blocks that parse: the blocks themselves when they are mappings, and
    every mapping nested in them, through values of mappings and items of
    lists, at any depth. *)
Theorem jsonld_nodes_all_mappings (sp : soup) (node : dict) :
  node ∈ jsonld_nodes sp <->
  exists data, Some data ∈ ld_scripts sp /\ subdict node data.
Proof. apply jsonld_nodes_subdict. Qed.

(** X18.  When the visible text of a page holds no slash, the text plays
    no part in the ownership check: the name of the agent in the text is
    not enough, and the answer is that of the links, of the JSON-LD nodes
    and of [og:url]. *)
Theorem ownership_ignores_plain_text (sp : soup) (text : string) :
  Str.existsb is_slash text = false ->
  verify_agent_ownership sp text = verify_agent_ownership sp EmptyString.
Proof. apply ownership_without_text. Qed.

Lemma ownership_ignores_plain_text_witness :
  verify_agent_ownership foreign_page "Listed by Blessing Nsibande of Huizemark"
  = verify_agent_ownership foreign_page EmptyString.
Proof.
  apply (ownership_ignores_plain_text foreign_page). vm_compute. reflexivity.
Defined.

(** X22.  The property type decides the number of bedrooms only by
    default: a number of bedrooms other than zero that [extract_beds]
    returns was found on the page, and is returned whatever the type. *)
Theorem beds_type_only_default (sp : soup) (text t1 t2 : string) (b : Z) :
  extract_beds sp text t1 = Ok (Some b) -> b <> 0 ->
  extract_beds sp text t2 = Ok (Some b).
Proof. apply extract_beds_found. Qed.

Lemma beds_type_only_default_witness :
  extract_beds house_page (page_text house_page) "vacant-land" = Ok (Some 3).
Proof.
  apply (beds_type_only_default house_page (page_text house_page) "house").
  - vm_compute. reflexivity.
  - lia.
Defined.

(** ** Further signals *)

(** X24.  A price of zero comes from the visible text only: when
    [extract_price] returns 0, the first "R ..." of the text has digits
    that read zero, and the price metadata and the three price blocks,
    where the page has them, gave no number or the number zero. *)
Theorem zero_price_from_text (sp : soup) (text : string) :
  extract_price sp text = Ok (Some 0) ->
  (exists m, search MONEY_RE text = Some m /\
             to_int_money (Some (group 1 m)) = Ok (Some 0)) /\
  (forall n c,
     select_one sp "meta[itemprop='price']" = Some n -> content_of n = Some c ->
     exists p, to_int_money (Some c) = Ok p /\ truthy_int p = false) /\
  (forall sel n,
     sel ∈ [".price"; ".property-price"; "[class*='price']"] ->
     select_one sp sel = Some n ->
     exists p, to_int_money (Some (el_text n)) = Ok p /\ truthy_int p = false).
Proof. apply extract_price_zero. Qed.

Lemma zero_price_from_text_witness :
  exists m, search MONEY_RE (page_text plot_page) = Some m /\
            to_int_money (Some (group 1 m)) = Ok (Some 0).
Proof.
  apply (zero_price_from_text plot_page). vm_compute. reflexivity.
Defined.

(** X26.  The detail URLs of a results page are the links of the page
    whose [href] contains ["/results/residential/"], made absolute, first
    occurrences only: an empty [href] never passes, and the second test on
    the absolute address removes nothing.  The profile page gives the same
    links, followed by the addresses of its JSON-LD nodes. *)
Theorem detail_links_of_page (parse : string -> soup) (html : string) :
  parse_results_for_detail_urls parse html
  = uniq ∅ (make_abs <$> residential (anchors (parse html))) /\
  parse_profile_for_detail_urls parse html
  = uniq ∅ ((make_abs <$> residential (anchors (parse html)))
            ++ jsonld_links (parse html)).
Proof. split; [apply parse_results_links | apply parse_profile_links]. Qed.
